(** * jaml: 2D vector viewer (vector2.h, viewer_win32.c)

    A shallow embedding of the numeric core of the viewer: the camera
    transform, the grid-step ladder, the label generator, the vector list,
    the preset registry and the window procedure's state changes, together
    with the [vec2] helpers of [vector2.h] that they use.

    Number model.  The C code computes on [float] (IEEE binary32) and, in
    [nice_step_for_scale], on [double] (binary64).  Both formats are
    modelled bit-exactly with the parameterised operations of
    [SpecFloat] (round to nearest, ties to even; every operation rounds to
    its own format, as with SSE code generation).  The camera code is
    written once against the interface [FloatOps] and read at two
    instances: binary32, which is what the program computes, and exact
    rational arithmetic, which is what the program would compute without
    rounding.  Properties that the specification states "up to rounding"
    are proved at the exact instance and evaluated at the binary32 one. *)

From Stdlib Require Import ZArith QArith Qabs Qpower Lia Lqa Bool List String Ascii.
From Stdlib Require Import Floats.SpecFloat.
Import ListNotations.

Set Implicit Arguments.
Local Open Scope Z_scope.

(** ** Undefined behaviour as [None] *)

Definition obind {A B : Type} (o : option A) (k : A -> option B) : option B :=
  match o with
  | Some a => k a
  | None => None
  end.

Notation "x <- e ;; k" := (obind e (fun x => k))
  (at level 61, e at next level, right associativity).

(** 32-bit signed integers ([int], [LONG], [short] promoted to [int]).
    Signed overflow and out-of-range conversions are undefined in C: the
    operations below return [None] there. *)
Definition INT_MIN : Z := - 2 ^ 31.
Definition INT_MAX : Z := 2 ^ 31 - 1.

Definition in_int (z : Z) : bool := (INT_MIN <=? z) && (z <=? INT_MAX).

Definition int_checked (z : Z) : option Z := if in_int z then Some z else None.

Definition int_sub (a b : Z) : option Z := int_checked (a - b).
Definition int_add (a b : Z) : option Z := int_checked (a + b).
Definition int_abs (a : Z) : option Z := int_checked (Z.abs a).

(** ** IEEE binary32 and binary64 *)

Module IEEE.

Definition float := spec_float.

Section Format.
Variables prec emax : Z.

(** The integer [m] times [2^e], rounded to the format. *)
Definition of_scaled (m e : Z) : float := binary_normalize prec emax m e false.

Definition of_Z (n : Z) : float := of_scaled n 0.

(** Re-rounding of a value of another format (a C conversion between
    [float] and [double]). *)
Definition convert (x : float) : float :=
  match x with
  | S754_finite s m e => binary_normalize prec emax (cond_Zopp s (Zpos m)) e s
  | _ => x
  end.

(** A decimal literal [n/d] whose numerator and denominator are exact in
    the format: the correctly rounded quotient. *)
Definition lit (n : Z) (d : positive) : float :=
  SFdiv prec emax (of_Z n) (of_Z (Zpos d)).
End Format.

(** Truncation toward zero of a finite value; [None] for NaN and the
    infinities. *)
Definition trunc (x : float) : option Z :=
  match x with
  | S754_zero _ => Some 0
  | S754_finite s m e => Some (cond_Zopp s (Z.shiftl (Zpos m) e))
  | _ => None
  end.

(** The C conversion to a 32-bit integer type. *)
Definition to_int (x : float) : option Z :=
  z <- trunc x ;; int_checked z.

Definition is_nan (x : float) : bool :=
  match x with S754_nan => true | _ => false end.

Definition is_finite (x : float) : bool :=
  match x with S754_zero _ | S754_finite _ _ _ => true | _ => false end.

(** The exact rational value of a finite float. *)
Definition to_Q (x : float) : Q :=
  match x with
  | S754_finite s m e =>
      let z := cond_Zopp s (Zpos m) in
      match e with
      | Z0 => inject_Z z
      | Zpos p => inject_Z (z * 2 ^ Zpos p)
      | Zneg p => Qmake z (2 ^ p)
      end
  | _ => 0%Q
  end.

End IEEE.

Abbreviation float := IEEE.float.

(** binary32: the C type [float]. *)
Module F32.
Definition prec : Z := 24.
Definition emax : Z := 128.
Definition add : float -> float -> float := SFadd prec emax.
Definition sub : float -> float -> float := SFsub prec emax.
Definition mul : float -> float -> float := SFmul prec emax.
Definition div : float -> float -> float := SFdiv prec emax.
Definition ltb : float -> float -> bool := SFltb.
Definition leb : float -> float -> bool := SFleb.
Definition eqb : float -> float -> bool := SFeqb.
Definition of_Z : Z -> float := IEEE.of_Z prec emax.
Definition lit : Z -> positive -> float := IEEE.lit prec emax.
Definition of_double : float -> float := IEEE.convert prec emax.
End F32.

(** binary64: the C type [double]. *)
Module F64.
Definition prec : Z := 53.
Definition emax : Z := 1024.
Definition add : float -> float -> float := SFadd prec emax.
Definition sub : float -> float -> float := SFsub prec emax.
Definition mul : float -> float -> float := SFmul prec emax.
Definition div : float -> float -> float := SFdiv prec emax.
Definition sqrt : float -> float := SFsqrt prec emax.
Definition ltb : float -> float -> bool := SFltb.
Definition leb : float -> float -> bool := SFleb.
Definition of_Z : Z -> float := IEEE.of_Z prec emax.
Definition lit : Z -> positive -> float := IEEE.lit prec emax.
Definition of_float : float -> float := IEEE.convert prec emax.
End F64.

(** ** The arithmetic interface of the camera code

    [FloatOps F] lists what the camera code asks of the type [float]:
    the four operations, the comparisons, the conversions from and to
    32-bit integers and decimal literals. *)

Class FloatOps (F : Type) : Type := {
  fadd : F -> F -> F;
  fsub : F -> F -> F;
  fmul : F -> F -> F;
  fdiv : F -> F -> F;
  fltb : F -> F -> bool;          (* x < y *)
  fleb : F -> F -> bool;          (* x <= y *)
  of_int : Z -> F;                (* (float)i *)
  to_long : F -> option Z;        (* (LONG)x, (int)x *)
  flit : Z -> positive -> F       (* the literal n/d *)
}.

Declare Scope float_scope.
Delimit Scope float_scope with flt.
Infix "+" := fadd : float_scope.
Infix "-" := fsub : float_scope.
Infix "*" := fmul : float_scope.
Infix "/" := fdiv : float_scope.
Infix "<?" := fltb : float_scope.
Infix "<=?" := fleb : float_scope.
Notation "x >? y" := (fltb y x) (only parsing) : float_scope.

(** What the program computes. *)
#[global] Instance binary32_ops : FloatOps float := {
  fadd := F32.add;
  fsub := F32.sub;
  fmul := F32.mul;
  fdiv := F32.div;
  fltb := F32.ltb;
  fleb := F32.leb;
  of_int := F32.of_Z;
  to_long := IEEE.to_int;
  flit := F32.lit
}.

(** The same expressions without rounding. *)
Module Exact.

Definition ltb (x y : Q) : bool := negb (Qle_bool y x).

(** Truncation toward zero. *)
Definition trunc (q : Q) : Z := Z.quot (Qnum q) (Zpos (Qden q)).

Definition to_long (q : Q) : option Z := int_checked (trunc q).

#[global] Instance ops : FloatOps Q := {
  fadd := Qplus;
  fsub := Qminus;
  fmul := Qmult;
  fdiv := Qdiv;
  fltb := ltb;
  fleb := Qle_bool;
  of_int := inject_Z;
  to_long := to_long;
  flit := Qmake
}.

End Exact.

(** ** vector2.h: the value type *)

Record vec2 (F : Type) : Type := mk_vec2 { vx : F; vy : F }.

Record POINT : Type := mk_POINT { px : Z; py : Z }.

(** ** viewer_win32.c: camera and utilities *)

Record Camera (F : Type) : Type := mk_Camera {
  scale : F;   (* pixels per world unit *)
  panX : F;    (* additional pixel offset X *)
  panY : F     (* additional pixel offset Y *)
}.

Section CameraCode.
Context {F : Type} `{FloatOps F}.
Local Open Scope float_scope.

(** [static Camera g_cam = { 80.0f, 0.0f, 0.0f };] *)
Definition g_cam_init : Camera F :=
  mk_Camera (flit 80 1) (flit 0 1) (flit 0 1).

Definition clampf (x a b : F) : F :=
  if x <? a then a else if x >? b then b else x.

(** The globals [g_cam], [g_clientW] and [g_clientH] are read-only
    arguments here. *)
Definition world_to_screen (cam : Camera F) (W Hc : Z) (x y : F) : option POINT :=
  sx <- to_long (of_int W * flit 1 2 + panX cam + x * scale cam) ;;
  sy <- to_long (of_int Hc * flit 1 2 + panY cam - y * scale cam) ;;
  Some (mk_POINT sx sy).

Definition screen_to_world (cam : Camera F) (W Hc : Z) (sx sy : Z) : vec2 F :=
  let x := (of_int sx - of_int W * flit 1 2 - panX cam) / scale cam in
  let y := (of_int Hc * flit 1 2 + panY cam - of_int sy) / scale cam in
  mk_vec2 x y.

Definition zoomFactor (wheelDelta : Z) : F :=
  if (0 <? wheelDelta)%Z then flit 11 10 else flit 1 1 / flit 11 10.

(** [handle_zoom_at_cursor]: the new camera, or [None] when a conversion
    to [LONG] or the integer subtraction is undefined. *)
Definition handle_zoom_at_cursor (cam : Camera F) (W Hc : Z)
    (wheelDelta mx my : Z) : option (Camera F) :=
  let w0 := screen_to_world cam W Hc mx my in
  let cam1 := mk_Camera
                (clampf (scale cam * zoomFactor wheelDelta) (flit 10 1) (flit 2000 1))
                (panX cam) (panY cam) in
  s1 <- world_to_screen cam1 W Hc (vx w0) (vy w0) ;;
  dx <- int_sub mx (px s1) ;;
  dy <- int_sub my (py s1) ;;
  Some (mk_Camera (scale cam1) (panX cam1 + of_int dx) (panY cam1 + of_int dy)).

End CameraCode.

(** ** viewer_win32.c: the grid step

    [log10], [floor] and [pow] belong to the C math library.  They are
    modelled by the two operations of [DecadeOps]: [floor_log10 t] is
    [floor(log10(t))] as an integer, [pow10 k] is [pow(10.0, k)]. *)

Class DecadeOps (F : Type) : Type := {
  floor_log10 : F -> Z;
  pow10 : Z -> F
}.

Section GridCode.
Context {F : Type} `{FloatOps F} `{DecadeOps F}.
Local Open Scope float_scope.

Definition nice_step_for_scale (target_world_step : F) : F :=
  if target_world_step <=? flit 0 1 then flit 1 1
  else
    let k := floor_log10 target_world_step in
    let base := pow10 k in
    let frac := target_world_step / base in
    let m := if frac <? flit 3 2 then flit 1 1
             else if frac <? flit 3 1 then flit 2 1
             else if frac <? flit 7 1 then flit 5 1
             else flit 10 1 in
    m * base.

End GridCode.

Module Decade.

(** The largest [k >= 0] with [10^k * d <= n], searched upward. *)
Fixpoint up (fuel : nat) (n d k : Z) : Z :=
  match fuel with
  | O => k
  | S f => if 10 * d <=? n then up f n (10 * d) (k + 1) else k
  end.

(** Minus the least [j] with [d <= 10^j * n], searched downward. *)
Fixpoint down (fuel : nat) (n d k : Z) : Z :=
  match fuel with
  | O => k
  | S f => if n <? d then down f (10 * n) d (k - 1) else k
  end.

(** [floor(log10(n/d))] for positive [n] and [d]. *)
Definition floor_log10_frac (n d : Z) : Z :=
  if d <=? n then up (S (Z.to_nat (Z.log2 n))) n d 0
  else down (S (Z.to_nat (Z.log2 d))) n d 0.

Definition floor_log10_Q (t : Q) : Z := floor_log10_frac (Qnum t) (Zpos (Qden t)).

Definition pow10_Q (k : Z) : Q :=
  match k with
  | Zneg p => Qmake 1 (10 ^ p)
  | _ => inject_Z (10 ^ k)
  end.

#[global] Instance exact : DecadeOps Q := {
  floor_log10 := floor_log10_Q;
  pow10 := pow10_Q
}.

(** binary64: the logarithm's floor is taken on the exact value of the
    argument; the power of ten is rounded to nearest (it is exact up to
    [10^22], and [1/10^j] is correctly rounded up to [j = 22]). *)
Definition pow10_64 (k : Z) : float :=
  match k with
  | Zneg p => F64.div (F64.of_Z 1) (F64.of_Z (10 ^ Zpos p))
  | _ => F64.of_Z (10 ^ k)
  end.

Definition binary64 : DecadeOps float := {|
  floor_log10 := fun t => floor_log10_Q (IEEE.to_Q t);
  pow10 := pow10_64
|}.

End Decade.

Definition binary64_ops : FloatOps float := {|
  fadd := F64.add;
  fsub := F64.sub;
  fmul := F64.mul;
  fdiv := F64.div;
  fltb := F64.ltb;
  fleb := F64.leb;
  of_int := F64.of_Z;
  to_long := IEEE.to_int;
  flit := F64.lit
|}.


(** ** viewer_win32.c: labels *)

(** [size_t] is 64 bits wide. *)
Definition SIZE_MOD : Z := 2 ^ 64.
Definition size_wrap (z : Z) : Z := z mod SIZE_MOD.

Definition NUL : ascii := Ascii.zero.

(** [(char)('a' + d)] *)
Definition letter (d : Z) : ascii := ascii_of_N (Z.to_N (97 + d)).

(** [a[i] = c]; a store outside the list is not recorded. *)
Fixpoint store {A : Type} (l : list A) (i : nat) (c : A) : list A :=
  match l, i with
  | [], _ => []
  | _ :: r, O => c :: r
  | a :: r, S j => a :: store r j c
  end.

(** The bytes of a C string: up to the first NUL. *)
Fixpoint c_str (buf : list ascii) : string :=
  match buf with
  | [] => EmptyString
  | c :: r => if Ascii.eqb c NUL then EmptyString else String c (c_str r)
  end.

(** The [while (x > 0 && n < sizeof(tmp))] loop: [tmp] holds the letters
    written so far, [fuel] is the room left in [tmp]. *)
Fixpoint label_loop (fuel : nat) (x : Z) (tmp : list ascii) : list ascii :=
  match fuel with
  | O => tmp
  | S f =>
      if 0 <? x then
        let x1 := x - 1 in
        label_loop f (x1 / 26) (tmp ++ [letter (x1 mod 26)])
      else tmp
  end.

(** [tmp] after the loop, for the index [idx]. *)
Definition label_digits (idx : Z) : list ascii :=
  label_loop 32 (size_wrap (idx + 1)) [].

(** The [for] loop copying [tmp] reversed into [out]. *)
Fixpoint copy_rev (tmp : list ascii) (n : nat) (out : list ascii) (i m : nat) : list ascii :=
  match m with
  | O => out
  | S m' => copy_rev tmp n (store out i (nth (n - 1 - i) tmp NUL)) (S i) m'
  end.

Definition make_label (idx : Z) (out : list ascii) (outsz : Z) : list ascii :=
  if outsz =? 0 then out
  else
    let tmp := label_digits idx in
    let n := List.length tmp in
    let m := if Z.of_nat n <? outsz - 1 then n else Z.to_nat (outsz - 1) in
    store (copy_rev tmp n out 0 m) m NUL.

(** The specification's reading of a label: bijective base 26 has the
    digits 1..26, written [a]..[z]; [bij26_value] is the number that a
    string of such digits denotes, least significant digit first. *)
Definition bij26_digit (c : ascii) : Z := Z.of_N (N_of_ascii c) - 96.

Fixpoint bij26_value (digits : list ascii) : Z :=
  match digits with
  | [] => 0
  | c :: r => bij26_digit c + 26 * bij26_value r
  end.

Definition is_lower (c : ascii) : bool :=
  (97 <=? Z.of_N (N_of_ascii c)) && (Z.of_N (N_of_ascii c) <=? 122).

(** ** viewer_win32.c: vector storage *)

Definition COLORREF := Z.

Definition RGB (r g b : Z) : COLORREF :=
  Z.lor (Z.lor r (Z.shiftl g 8)) (Z.shiftl b 16).

Record VEntry : Type := mk_VEntry {
  v : vec2 float;
  color : COLORREF;
  label : list ascii        (* char label[8] *)
}.

Definition LABEL_SIZE : Z := 8.

(** Storage handed out by [realloc] is indeterminate; the model fills it
    with zero bytes. *)
Definition VEntry_blank : VEntry :=
  mk_VEntry (mk_vec2 (S754_zero false) (S754_zero false)) 0 (repeat NUL 8).

Record VecList : Type := mk_VecList {
  data : list VEntry;       (* the [cap] slots of the allocation *)
  len : Z;
  cap : Z
}.

(** [static VecList g_vecs = { NULL, 0, 0 };] *)
Definition g_vecs_init : VecList := mk_VecList [] 0 0.

(** [realloc] is taken to succeed. *)
Definition veclist_reserve (l : VecList) (want : Z) : VecList :=
  if want <=? cap l then l
  else
    let newCap := if cap l =? 0 then 16 else size_wrap (cap l * 2) in
    let newCap := if newCap <? want then want else newCap in
    mk_VecList (firstn (Z.to_nat newCap) (data l)
                  ++ repeat VEntry_blank (Z.to_nat newCap - List.length (data l)))
               (len l) newCap.

(** [veclist_push] reads and increments the global label counter, which is
    threaded here as a second component. *)
Definition veclist_push (l : VecList) (counter : Z) (value : vec2 float)
    (col : COLORREF) : VecList * Z :=
  let l1 := if cap l <? size_wrap (len l + 1)
            then veclist_reserve l (size_wrap (len l + 1)) else l in
  let i := Z.to_nat (len l1) in
  let old := nth i (data l1) VEntry_blank in
  let e := mk_VEntry value col (make_label counter (label old) LABEL_SIZE) in
  (mk_VecList (store (data l1) i e) (size_wrap (len l1 + 1)) (cap l1),
   size_wrap (counter + 1)).

Definition veclist_clear (l : VecList) : VecList :=
  mk_VecList (data l) 0 (cap l).

Definition veclist_free (l : VecList) : VecList := mk_VecList [] 0 0.

(** The entries in use, in insertion order. *)
Definition entries (l : VecList) : list VEntry := firstn (Z.to_nat (len l)) (data l).

(** ** vector2.h: operations *)

Section Vector2Field.
Context {F : Type} `{FloatOps F}.
Local Open Scope float_scope.

Definition vec2_add (a b : vec2 F) : vec2 F := mk_vec2 (vx a + vx b) (vy a + vy b).

Definition vec2_sub (a b : vec2 F) : vec2 F := mk_vec2 (vx a - vx b) (vy a - vy b).

Definition vec2_mul (a : vec2 F) (t : F) : vec2 F := mk_vec2 (vx a * t) (vy a * t).

Definition vec2_length2 (a : vec2 F) : F := vx a * vx a + vy a * vy a.

Definition vec2_dot (a b : vec2 F) : F := vx a * vx b + vy a * vy b.

Definition vec2_cross (a b : vec2 F) : F := vx a * vy b - vy a * vx b.

Definition vec2_min (a b : vec2 F) : vec2 F :=
  mk_vec2 (if vx a <? vx b then vx a else vx b) (if vy a <? vy b then vy a else vy b).

Definition vec2_max (a b : vec2 F) : vec2 F :=
  mk_vec2 (if vx a >? vx b then vx a else vx b) (if vy a >? vy b then vy a else vy b).

(** [abs] is the integer function of [<stdlib.h>]: its argument is
    converted to [int], and its [int] result back to [float]. *)
Definition vec2_abs (a : vec2 F) : option (vec2 F) :=
  ix <- to_long (vx a) ;;
  ax <- int_abs ix ;;
  iy <- to_long (vy a) ;;
  ay <- int_abs iy ;;
  Some (mk_vec2 (of_int ax) (of_int ay)).

Definition vec2_project (a onto_b : vec2 F) : vec2 F :=
  let scalar := vec2_dot a onto_b / vec2_length2 onto_b in
  mk_vec2 (vx onto_b * scalar) (vy onto_b * scalar).

End Vector2Field.

(** The functions that call the math library, on binary32. *)

(** [sqrt] is the [double] function: the argument is widened, the result
    narrowed on return. *)
Definition sqrt_via_double (x : float) : float :=
  F32.of_double (F64.sqrt (F64.of_float x)).

Definition fabsf (x : float) : float := SFabs x.

(** [fmaxf]: a NaN argument is treated as missing. *)
Definition fmaxf (x y : float) : float :=
  if IEEE.is_nan x then y
  else if IEEE.is_nan y then x
  else if F32.ltb x y then y else x.

Definition f32_zero : float := S754_zero false.

Definition EPSILON : float := F32.lit 1 1000000.

Definition vec2_length (a : vec2 float) : float := sqrt_via_double (vec2_length2 a).

Definition vec2_normalize (a : vec2 float) : vec2 float :=
  let l := vec2_length a in
  if F32.eqb l f32_zero then mk_vec2 f32_zero f32_zero
  else mk_vec2 (F32.div (vx a) l) (F32.div (vy a) l).

Definition vec2_equal (a b : vec2 float) (eps : float) : bool :=
  if F32.ltb (vec2_length a) eps && F32.ltb (vec2_length b) eps then true
  else
    F32.leb (fabsf (F32.sub (vx a) (vx b)))
            (F32.mul eps (fmaxf (fabsf (vx a)) (fabsf (vx b))))
    && F32.leb (fabsf (F32.sub (vy a) (vy b)))
               (F32.mul eps (fmaxf (fabsf (vy a)) (fabsf (vy b)))).

Definition vec2_reflect (a n : vec2 float) : vec2 float :=
  let safe_n := vec2_normalize n in
  let dot := vec2_dot a safe_n in
  let two := F32.of_Z 2 in
  mk_vec2 (F32.sub (vx a) (F32.mul (F32.mul two dot) (vx safe_n)))
          (F32.sub (vy a) (F32.mul (F32.mul two dot) (vy safe_n))).

(** What the program takes from outside: [cosf] and [sinf] of the math
    library and the values that successive calls of [rand] return. *)
Record Env : Type := mk_Env {
  cosf : float -> float;
  sinf : float -> float;
  rand_tape : nat -> Z
}.

Definition vec2_rotate (env : Env) (a : vec2 float) (radians : float) : vec2 float :=
  let cos_radians := cosf env radians in
  let sin_radians := sinf env radians in
  mk_vec2 (F32.sub (F32.mul (vx a) cos_radians) (F32.mul (vy a) sin_radians))
          (F32.add (F32.mul (vx a) sin_radians) (F32.mul (vy a) cos_radians)).

(** ** viewer_win32.c: the program state (its globals) *)

Record World : Type := mk_World {
  g_cam : Camera float;
  g_clientW : Z;
  g_clientH : Z;
  g_label_counter : Z;
  g_vecs : VecList;
  g_preset_index : Z;
  g_preset_name : string;
  g_rightDragging : bool;
  g_lastMouse : POINT;
  g_rand_calls : nat          (* position on the tape of [rand] results *)
}.

Definition world_init : World :=
  mk_World g_cam_init 800 600 0 g_vecs_init 0 "Empty" false (mk_POINT 0 0) 0.

Definition set_cam (w : World) (c : Camera float) : World :=
  mk_World c (g_clientW w) (g_clientH w) (g_label_counter w) (g_vecs w)
    (g_preset_index w) (g_preset_name w) (g_rightDragging w) (g_lastMouse w)
    (g_rand_calls w).

Definition set_client (w : World) (cw ch : Z) : World :=
  mk_World (g_cam w) cw ch (g_label_counter w) (g_vecs w)
    (g_preset_index w) (g_preset_name w) (g_rightDragging w) (g_lastMouse w)
    (g_rand_calls w).

Definition set_label_counter (w : World) (n : Z) : World :=
  mk_World (g_cam w) (g_clientW w) (g_clientH w) n (g_vecs w)
    (g_preset_index w) (g_preset_name w) (g_rightDragging w) (g_lastMouse w)
    (g_rand_calls w).

Definition set_vecs (w : World) (l : VecList) : World :=
  mk_World (g_cam w) (g_clientW w) (g_clientH w) (g_label_counter w) l
    (g_preset_index w) (g_preset_name w) (g_rightDragging w) (g_lastMouse w)
    (g_rand_calls w).

Definition set_preset (w : World) (i : Z) (nm : string) : World :=
  mk_World (g_cam w) (g_clientW w) (g_clientH w) (g_label_counter w) (g_vecs w)
    i nm (g_rightDragging w) (g_lastMouse w) (g_rand_calls w).

Definition set_drag (w : World) (d : bool) (p : POINT) : World :=
  mk_World (g_cam w) (g_clientW w) (g_clientH w) (g_label_counter w) (g_vecs w)
    (g_preset_index w) (g_preset_name w) d p (g_rand_calls w).

Definition set_rand_calls (w : World) (n : nat) : World :=
  mk_World (g_cam w) (g_clientW w) (g_clientH w) (g_label_counter w) (g_vecs w)
    (g_preset_index w) (g_preset_name w) (g_rightDragging w) (g_lastMouse w) n.

(** [veclist_push(&g_vecs, value, col)] on the globals. *)
Definition push_g_vecs (w : World) (value : vec2 float) (col : COLORREF) : World :=
  let '(l, c) := veclist_push (g_vecs w) (g_label_counter w) value col in
  set_label_counter (set_vecs w l) c.

(** [veclist_clear(&g_vecs)] on the globals. *)
Definition clear_g_vecs (w : World) : World := set_vecs w (veclist_clear (g_vecs w)).

(** ** viewer_win32.c: presets *)

Definition add_vec_col (x y : float) (c : COLORREF) (w : World) : World :=
  push_g_vecs w (mk_vec2 x y) c.

Definition reset_list_and_labels (w : World) : World :=
  set_label_counter (clear_g_vecs w) 0.

Definition preset_empty (env : Env) (w : World) : World := reset_list_and_labels w.

Definition preset_basis (env : Env) (w : World) : World :=
  let w := reset_list_and_labels w in
  let w := add_vec_col (F32.of_Z 2) (F32.of_Z 0) (RGB 230 80 80) w in
  let w := add_vec_col (F32.of_Z 0) (F32.of_Z 2) (RGB 80 160 255) w in
  let w := add_vec_col (F32.of_Z (-2)) (F32.of_Z 0) (RGB 160 90 90) w in
  let w := add_vec_col (F32.of_Z 0) (F32.of_Z (-2)) (RGB 90 120 180) w in
  let w := add_vec_col (F32.lit 3 2) (F32.lit 3 2) (RGB 90 220 120) w in
  add_vec_col (F32.lit (-3) 2) (F32.lit 3 2) (RGB 220 180 90) w.

(** [M_PI], the binary64 number nearest to pi. *)
Definition M_PI : float := IEEE.of_scaled F64.prec F64.emax 884279719003555 (-48).

(** [(float)i * (float)(2.0 * M_PI / n)] *)
Definition turn_fraction (i n : Z) : float :=
  F32.mul (F32.of_Z i)
          (F32.of_double (F64.div (F64.mul (F64.of_Z 2) M_PI) (F64.of_Z n))).

(** A [for (int i = 0; i < n; ++i)] loop whose body is [body i]. *)
Fixpoint for_loop (n : nat) (i : Z) (body : Z -> World -> World) (w : World) : World :=
  match n with
  | O => w
  | S n' => for_loop n' (i + 1) body (body i w)
  end.

Definition preset_spokes (env : Env) (w : World) : World :=
  let w := reset_list_and_labels w in
  let R := F32.of_Z 3 in
  for_loop 16 0
    (fun i w =>
       let a := turn_fraction i 16 in
       add_vec_col (F32.mul (cosf env a) R) (F32.mul (sinf env a) R) (RGB 120 210 140) w)
    w.

Definition RAND_MAX : Z := 32767.

(** [rand()]: the next value on the tape. *)
Definition rand (env : Env) (w : World) : Z * World :=
  (rand_tape env (g_rand_calls w), set_rand_calls w (S (g_rand_calls w))).

(** [srand(time(NULL))] only chooses which values follow; the tape already
    stands for any such choice. *)
Definition preset_random (env : Env) (w : World) : World :=
  let w := reset_list_and_labels w in
  for_loop 40 0
    (fun _ w =>
       let '(r1, w) := rand env w in
       let x := F32.sub (F32.mul (F32.div (F32.of_Z r1) (F32.of_Z RAND_MAX)) (F32.of_Z 10))
                        (F32.of_Z 5) in
       let '(r2, w) := rand env w in
       let y := F32.sub (F32.mul (F32.div (F32.of_Z r2) (F32.of_Z RAND_MAX)) (F32.of_Z 6))
                        (F32.of_Z 3) in
       add_vec_col x y (RGB 80 220 160) w)
    w.

Definition preset_projection (env : Env) (w : World) : World :=
  let w := reset_list_and_labels w in
  let a := mk_vec2 (F32.of_Z 3) (F32.of_Z 2) in
  let b := mk_vec2 (F32.of_Z 4) (F32.of_Z 1) in
  let p := vec2_project a b in
  let w := add_vec_col (vx a) (vy a) (RGB 90 200 255) w in
  let w := add_vec_col (vx b) (vy b) (RGB 255 160 60) w in
  add_vec_col (vx p) (vy p) (RGB 255 220 0) w.

Definition preset_reflection (env : Env) (w : World) : World :=
  let w := reset_list_and_labels w in
  let i := mk_vec2 (F32.of_Z 3) (F32.of_Z (-2)) in
  let n := mk_vec2 (F32.of_Z 0) (F32.of_Z 1) in
  let r := vec2_reflect i n in
  let w := add_vec_col (vx i) (vy i) (RGB 90 200 255) w in
  let w := add_vec_col (vx n) (vy n) (RGB 255 160 60) w in
  add_vec_col (vx r) (vy r) (RGB 255 80 200) w.

Definition preset_rotations (env : Env) (w : World) : World :=
  let w := reset_list_and_labels w in
  let v0 := mk_vec2 (F32.of_Z 4) (F32.of_Z 0) in
  for_loop 12 0
    (fun k w =>
       let a := turn_fraction k 12 in
       let r := vec2_rotate env v0 a in
       add_vec_col (vx r) (vy r) (RGB 100 210 130) w)
    w.

Record PresetDesc : Type := mk_PresetDesc {
  name : string;
  fn : Env -> World -> World
}.

Definition g_presets : list PresetDesc := [
  mk_PresetDesc "Empty" preset_empty;
  mk_PresetDesc "Basis & Diagonals" preset_basis;
  mk_PresetDesc "Spokes Circle" preset_spokes;
  mk_PresetDesc "Random Vectors" preset_random;
  mk_PresetDesc "Projection (a onto b)" preset_projection;
  mk_PresetDesc "Reflection (i about n)" preset_reflection;
  mk_PresetDesc "Rotations" preset_rotations
].

Definition g_preset_count : Z := Z.of_nat (List.length g_presets).

Definition preset_at (i : Z) : PresetDesc :=
  nth (Z.to_nat i) g_presets (mk_PresetDesc EmptyString (fun _ w => w)).

Definition preset_apply_index (env : Env) (idx : Z) (w : World) : World :=
  if g_preset_count =? 0 then w
  else
    let idx := if idx <? 0 then g_preset_count - 1 else idx in
    let idx := if idx >=? g_preset_count then 0 else idx in
    let w := set_preset w idx (name (preset_at idx)) in
    fn (preset_at (g_preset_index w)) env w.

Definition preset_next (env : Env) (w : World) : option World :=
  idx <- int_add (g_preset_index w) 1 ;;
  Some (preset_apply_index env idx w).

Definition preset_prev (env : Env) (w : World) : option World :=
  idx <- int_sub (g_preset_index w) 1 ;;
  Some (preset_apply_index env idx w).

(** ** viewer_win32.c: the window procedure *)

Definition LOWORD (l : Z) : Z := Z.land l 65535.
Definition HIWORD (l : Z) : Z := Z.land (Z.shiftr l 16) 65535.

(** [(int)(short)w] for a 16-bit word [w]. *)
Definition short_of_word (w : Z) : Z := if w <? 32768 then w else w - 65536.

Definition GET_X_LPARAM (lp : Z) : Z := short_of_word (LOWORD lp).
Definition GET_Y_LPARAM (lp : Z) : Z := short_of_word (HIWORD lp).
Definition GET_WHEEL_DELTA_WPARAM (wp : Z) : Z := short_of_word (HIWORD wp).

Definition VK_DELETE : Z := 46.
Definition KEY_R : Z := 82.
Definition KEY_1 : Z := 49.
Definition KEY_2 : Z := 50.

(** The messages the procedure handles, with their parameters.  For the
    wheel message, [origin] is the screen position of the client area,
    which [ScreenToClient] subtracts. *)
Inductive Msg : Type :=
  | WM_CREATE
  | WM_SIZE (lParam : Z)
  | WM_LBUTTONDOWN (lParam : Z)
  | WM_RBUTTONDOWN (lParam : Z)
  | WM_MOUSEMOVE (lParam : Z)
  | WM_RBUTTONUP
  | WM_MOUSEWHEEL (wParam lParam : Z) (origin : POINT)
  | WM_KEYDOWN (wParam : Z)
  | WM_PAINT
  | WM_DESTROY
  | WM_OTHER.

Definition WndProc (env : Env) (msg : Msg) (w : World) : option World :=
  match msg with
  | WM_CREATE => Some (preset_apply_index env 0 w)
  | WM_SIZE lParam => Some (set_client w (LOWORD lParam) (HIWORD lParam))
  | WM_LBUTTONDOWN lParam =>
      let mx := GET_X_LPARAM lParam in
      let my := GET_Y_LPARAM lParam in
      let p := screen_to_world (g_cam w) (g_clientW w) (g_clientH w) mx my in
      Some (push_g_vecs w p (RGB 80 220 160))
  | WM_RBUTTONDOWN lParam =>
      Some (set_drag w true (mk_POINT (GET_X_LPARAM lParam) (GET_Y_LPARAM lParam)))
  | WM_MOUSEMOVE lParam =>
      if g_rightDragging w then
        let mx := GET_X_LPARAM lParam in
        let my := GET_Y_LPARAM lParam in
        dx <- int_sub mx (px (g_lastMouse w)) ;;
        dy <- int_sub my (py (g_lastMouse w)) ;;
        let c := g_cam w in
        let c := mk_Camera (scale c) (F32.add (panX c) (F32.of_Z dx))
                           (F32.add (panY c) (F32.of_Z dy)) in
        Some (set_drag (set_cam w c) (g_rightDragging w) (mk_POINT mx my))
      else Some w
  | WM_RBUTTONUP => Some (set_drag w false (g_lastMouse w))
  | WM_MOUSEWHEEL wParam lParam origin =>
      let delta := GET_WHEEL_DELTA_WPARAM wParam in
      sx <- int_sub (GET_X_LPARAM lParam) (px origin) ;;
      sy <- int_sub (GET_Y_LPARAM lParam) (py origin) ;;
      c <- handle_zoom_at_cursor (g_cam w) (g_clientW w) (g_clientH w) delta sx sy ;;
      Some (set_cam w c)
  | WM_KEYDOWN wParam =>
      if wParam =? VK_DELETE then Some (set_label_counter (clear_g_vecs w) 0)
      else if wParam =? KEY_R then Some (set_cam w g_cam_init)
      else if wParam =? KEY_1 then preset_prev env w
      else if wParam =? KEY_2 then preset_next env w
      else Some w
  | WM_PAINT => Some w
  | WM_DESTROY => Some (set_vecs w (veclist_free (g_vecs w)))
  | WM_OTHER => Some w
  end.

(** Runs of the preset operations. *)
Inductive PresetOp : Type :=
  | op_apply (idx : Z)
  | op_next
  | op_prev.

Definition run_op (env : Env) (op : PresetOp) (w : World) : option World :=
  match op with
  | op_apply idx => Some (preset_apply_index env idx w)
  | op_next => preset_next env w
  | op_prev => preset_prev env w
  end.

Fixpoint run_ops (env : Env) (ops : list PresetOp) (w : World) : option World :=
  match ops with
  | [] => Some w
  | op :: rest => w1 <- run_op env op w ;; run_ops env rest w1
  end.

Fixpoint run_msgs (env : Env) (msgs : list Msg) (w : World) : option World :=
  match msgs with
  | [] => Some w
  | m :: rest => w1 <- WndProc env m w ;; run_msgs env rest w1
  end.

(** ** Vocabulary of the statements *)

(** The part of the state that the generators leave alone. *)
Definition same_preset (w w' : World) : Prop :=
  g_preset_index w' = g_preset_index w /\ g_preset_name w' = g_preset_name w.

(** The label counter and the length of the list, and what a push does to
    the pair. *)
Definition counts (w : World) : Z * Z := (g_label_counter w, len (g_vecs w)).

Definition bump (c : Z * Z) : Z * Z := (size_wrap (fst c + 1), size_wrap (snd c + 1)).

(** The current preset is an entry of the registry, and the current name
    is that entry's name. *)
Definition preset_ok (w : World) : Prop :=
  0 <= g_preset_index w <= g_preset_count - 1 /\
  g_preset_name w = name (preset_at (g_preset_index w)).

(** The index that [preset_apply_index] settles on. *)
Definition wrapped (idx : Z) : Z :=
  if idx <? 0 then g_preset_count - 1
  else if g_preset_count <=? idx then 0 else idx.

(** A well-formed vector list: the length is within the capacity, the
    allocation has [cap] slots, and every slot has its 8 label bytes. *)
Definition VecList_wf (l : VecList) : Prop :=
  0 <= len l <= cap l /\
  Z.of_nat (List.length (data l)) = cap l /\
  Forall (fun e => List.length (label e) = 8%nat) (data l).

(** [lo, lo+1, ..., lo+n-1] *)
Definition zrange (lo : Z) (n : nat) : list Z :=
  map (fun i => lo + Z.of_nat i) (seq 0 n).

(** Whether the binary32 program maps the screen point [p] to the world
    and back to a point at most [tol] pixels from [p] in each
    coordinate. *)
Definition round_trip_within (tol : Z) (cam : Camera float) (W Hc : Z) (p : Z * Z) : bool :=
  let w := screen_to_world cam W Hc (fst p) (snd p) in
  match world_to_screen cam W Hc (vx w) (vy w) with
  | Some q => (Z.abs (px q - fst p) <=? tol) && (Z.abs (py q - snd p) <=? tol)
  | None => false
  end.



(** ** Values used in the examples *)

(** An environment for closed examples: a crude [cosf]/[sinf] and a
    constant tape.  No statement below depends on these values. *)
Definition sample_env : Env :=
  mk_Env (fun _ => F32.of_Z 1) (fun _ => F32.of_Z 0) (fun _ => 12345).

Definition sample_buffer : list ascii := repeat "#"%char 8.

(** A camera reached from the initial one by one wheel step up at the
    client point (123, 456). *)
Definition zoomed_camera : Camera float :=
  mk_Camera (F32.of_Z 88) (F32.of_Z 28) (F32.of_Z (-15)).

(** The same camera at the exact instance. *)
Definition zoomed_camera_exact : Camera Q := mk_Camera 88%Q 28%Q (-15)%Q.

Definition MAKE_LPARAM (x y : Z) : Z := Z.lor (Z.land x 65535) (Z.shiftl (Z.land y 65535) 16).

(** ** vector2.h: the remaining operations *)

Section Vector2Distance.
Context {F : Type} `{FloatOps F}.
Local Open Scope float_scope.

Definition vec2_dist2 (a b : vec2 F) : F :=
  let diff_x := vx a - vx b in
  let diff_y := vy a - vy b in
  diff_x * diff_x + diff_y * diff_y.

Definition vec2_reject (a from_b : vec2 F) : vec2 F :=
  let projection := vec2_project a from_b in
  mk_vec2 (vx a - vx projection) (vy a - vy projection).

End Vector2Distance.

(** Unary minus on [float]. *)
Definition fneg (x : float) : float := SFopp x.

Definition vec2_dist (a b : vec2 float) : float := sqrt_via_double (vec2_dist2 a b).

Definition vec2_perp (a : vec2 float) : vec2 float := mk_vec2 (fneg (vy a)) (vx a).

Definition vec2_rot90_ccw (a : vec2 float) : vec2 float := mk_vec2 (fneg (vy a)) (vx a).

Definition vec2_rot90_cw (a : vec2 float) : vec2 float := mk_vec2 (vy a) (fneg (vx a)).

Definition vec2_rotate_around (env : Env) (a pivot : vec2 float) (radians : float)
    : vec2 float :=
  let dv := mk_vec2 (F32.sub (vx a) (vx pivot)) (F32.sub (vy a) (vy pivot)) in
  let r := vec2_rotate env dv radians in
  mk_vec2 (F32.add (vx r) (vx pivot)) (F32.add (vy r) (vy pivot)).

(** ** Vocabulary of the further statements *)

(** Numerical equality of two vectors, component by component (it
    identifies [+0] and [-0] and fails on NaN). *)
Definition vec2_same (a b : vec2 float) : bool :=
  F32.eqb (vx a) (vx b) && F32.eqb (vy a) (vy b).

Definition vec2_finite (a : vec2 float) : bool :=
  IEEE.is_finite (vx a) && IEEE.is_finite (vy a).

(** The largest number that [k] letters denote in bijective base 26. *)
Fixpoint bij26_max (k : nat) : Z :=
  match k with
  | O => 0
  | S k' => 26 * (bij26_max k' + 1)
  end.

(** The label of an index as the viewer shows it. *)
Definition label_string (idx : Z) : string :=
  string_of_list_ascii (firstn 7 (rev (label_digits idx))).

(** Entry [i] of the list carries the label of [i], for every [i]. *)
Definition labelled_in_order (l : VecList) : Prop :=
  map (fun e => c_str (label e)) (entries l)
  = map (fun i => label_string (Z.of_nat i)) (seq 0 (Z.to_nat (len l))).

(** The scene invariant of the viewer. *)
Definition scene_ok (w : World) : Prop :=
  VecList_wf (g_vecs w) /\
  g_label_counter w = len (g_vecs w) /\
  labelled_in_order (g_vecs w).

(** The camera invariant of the viewer. *)
Definition camera_ok (w : World) : Prop :=
  F32.leb (F32.of_Z 10) (scale (g_cam w)) = true /\
  F32.leb (scale (g_cam w)) (F32.of_Z 2000) = true /\
  0 <= g_clientW w <= 65535 /\ 0 <= g_clientH w <= 65535.

(** Messages whose handlers write the camera, and messages whose handlers
    write the scene (the list, the label counter, the current preset). *)
Definition writes_camera (msg : Msg) : bool :=
  match msg with
  | WM_MOUSEMOVE _ | WM_MOUSEWHEEL _ _ _ => true
  | WM_KEYDOWN k => k =? KEY_R
  | _ => false
  end.

Definition writes_scene (msg : Msg) : bool :=
  match msg with
  | WM_CREATE | WM_LBUTTONDOWN _ | WM_DESTROY => true
  | WM_KEYDOWN k => (k =? VK_DELETE) || (k =? KEY_1) || (k =? KEY_2)
  | _ => false
  end.

Definition is_destroy (msg : Msg) : bool :=
  match msg with WM_DESTROY => true | _ => false end.

(** What the preset generators and the list operations leave alone. *)
Definition scene_only (w w' : World) : Prop :=
  g_cam w' = g_cam w /\
  g_clientW w' = g_clientW w /\ g_clientH w' = g_clientH w /\
  g_preset_index w' = g_preset_index w /\ g_preset_name w' = g_preset_name w /\
  g_rightDragging w' = g_rightDragging w /\ g_lastMouse w' = g_lastMouse w.

(** A short session: create, previous, next, next, a click, a wheel step,
    a drag and a resize. *)
Definition session_msgs : list Msg :=
  [WM_CREATE; WM_KEYDOWN KEY_1; WM_KEYDOWN KEY_2; WM_KEYDOWN KEY_2;
   WM_LBUTTONDOWN (MAKE_LPARAM 10 20);
   WM_MOUSEWHEEL (Z.shiftl 120 16) (MAKE_LPARAM 200 300) (mk_POINT 50 60);
   WM_RBUTTONDOWN (MAKE_LPARAM 5 5); WM_MOUSEMOVE (MAKE_LPARAM 9 2); WM_RBUTTONUP;
   WM_SIZE (MAKE_LPARAM 1024 768)].

Definition session_end : World :=
  match run_msgs sample_env session_msgs world_init with
  | Some w => w
  | None => world_init
  end.

(** Whether a vector lies in the box [-hx, hx] x [-hy, hy]. *)
Definition in_box (hx hy : Z) (p : vec2 float) : bool :=
  F32.leb (F32.of_Z (- hx)) (vx p) && F32.leb (vx p) (F32.of_Z hx)
  && (F32.leb (F32.of_Z (- hy)) (vy p) && F32.leb (vy p) (F32.of_Z hy)).

(** The two coordinates that [preset_random] makes of the values [r1] and
    [r2] of [rand]. *)
Definition random_point (r1 r2 : Z) : vec2 float :=
  mk_vec2 (F32.sub (F32.mul (F32.div (F32.of_Z r1) (F32.of_Z RAND_MAX)) (F32.of_Z 10))
                   (F32.of_Z 5))
          (F32.sub (F32.mul (F32.div (F32.of_Z r2) (F32.of_Z RAND_MAX)) (F32.of_Z 6))
                   (F32.of_Z 3)).

(** The vectors of the entries in use. *)
Definition vectors (l : VecList) : list (vec2 float) := map v (entries l).

(** Whether [f] holds of [lo], [lo+1], ..., [lo+n-1]. *)
Fixpoint all_from (f : Z -> bool) (lo : Z) (n : nat) : bool :=
  match n with
  | O => true
  | S k => f lo && all_from f (lo + 1) k
  end.

(** The messages whose handlers convert world coordinates to pixels with
    [world_to_screen]: the wheel, and painting, whose drawing code is not
    part of [WndProc] above. *)
Definition projects (msg : Msg) : bool :=
  match msg with WM_MOUSEWHEEL _ _ _ | WM_PAINT => true | _ => false end.

(** The last mouse position holds two signed 16-bit numbers. *)
Definition mouse_ok (w : World) : Prop :=
  -32768 <= px (g_lastMouse w) <= 32767 /\ -32768 <= py (g_lastMouse w) <= 32767.

(** The step of the grid in [draw_grid_and_axes]:
    [nice_step_for_scale(80.0 / (double)g_cam.scale)]. *)
Section GridStep.
Context {F : Type} `{FloatOps F} `{DecadeOps F}.
Local Open Scope float_scope.

Definition grid_step (scale : F) : F := nice_step_for_scale (flit 80 1 / scale).

End GridStep.

Definition grid_step_64 (scale : float) : float :=
  @grid_step float binary64_ops Decade.binary64 (F64.of_float scale).

(** [vec2_angle]; [acos] is the [double] function of the math library,
    applied to the widened quotient, its result narrowed on return. *)
Definition vec2_angle (acos : float -> float) (a b : vec2 float) : float :=
  let dot := vec2_dot a b in
  let len_a := vec2_length a in
  let len_b := vec2_length b in
  if F32.eqb len_a f32_zero || F32.eqb len_b f32_zero then f32_zero
  else F32.of_double (acos (F64.of_float (F32.div dot (F32.mul len_a len_b)))).

(** ** Vocabulary and values of the zoom and equality statements *)








(** The powers of two [2^-100] and [2^-110] in binary32. *)
Definition tiny : float := IEEE.of_scaled F32.prec F32.emax 1 (-100).
Definition tiny_eps : float := IEEE.of_scaled F32.prec F32.emax 1 (-110).

(** * Properties *)

(** ** Integers *)

Lemma int_checked_in (z : Z) : INT_MIN <= z <= INT_MAX -> int_checked z = Some z.
Proof.
  intros [Hlo Hhi]. unfold int_checked, in_int.
  apply Z.leb_le in Hlo. apply Z.leb_le in Hhi.
  now rewrite Hlo, Hhi.
Qed.

Lemma in_int_range (z : Z) : in_int z = true <-> INT_MIN <= z <= INT_MAX.
Proof.
  unfold in_int. rewrite andb_true_iff, !Z.leb_le. tauto.
Qed.

(** ** Exact arithmetic *)

Module ExactFacts.
Local Open Scope Q_scope.

Lemma trunc_inject_Z (q : Q) (z : Z) : q == inject_Z z -> Exact.trunc q = z.
Proof.
  unfold Qeq, Exact.trunc. simpl. intros E.
  rewrite Z.mul_1_r in E. rewrite E. apply Z.quot_mul. discriminate.
Qed.

(** Truncation moves a number by less than one. *)
Lemma trunc_error (q : Q) : Qabs (inject_Z (Exact.trunc q) - q) < 1.
Proof.
  destruct q as [n d]. unfold Exact.trunc. cbn [Qnum Qden].
  pose proof (Z.quot_rem' n (Zpos d)) as E.
  pose proof (Z.rem_bound_abs n (Zpos d)) as B.
  assert (Hd : Zpos d <> 0%Z) by discriminate. specialize (B Hd).
  set (k := Z.quot n (Zpos d)) in *. set (r := Z.rem n (Zpos d)) in *.
  apply (proj2 (Qabs_Qlt_condition _ _)).
  unfold Qlt, Qminus, Qplus, Qopp, inject_Z. simpl.
  split; nia.
Qed.


Lemma ltb_lt (x y : Q) : Exact.ltb x y = true <-> x < y.
Proof.
  unfold Exact.ltb. rewrite negb_true_iff.
  split.
  - intros E. apply Qnot_le_lt. intros L. apply Qle_bool_iff in L. congruence.
  - intros L. destruct (Qle_bool y x) eqn:E; [|reflexivity].
    apply Qle_bool_iff in E. lra.
Qed.

Lemma ltb_ge (x y : Q) : Exact.ltb x y = false <-> y <= x.
Proof.
  unfold Exact.ltb. rewrite negb_false_iff. apply Qle_bool_iff.
Qed.


End ExactFacts.

(** ** The binary32 program over a window *)

Module WindowFacts.

Lemma forallb_zrange (f : Z -> bool) (lo : Z) (n : nat) :
  forallb f (zrange lo n) = true ->
  forall z : Z, lo <= z < lo + Z.of_nat n -> f z = true.
Proof.
  unfold zrange. rewrite forallb_forall. intros H z Hz. apply H.
  apply in_map_iff. exists (Z.to_nat (z - lo)). split; [lia|].
  apply in_seq. lia.
Qed.

(** The two coordinates are treated independently. *)
Lemma within_components (tol : Z) (cam : Camera float) (W Hc sx sy sx' sy' : Z) :
  round_trip_within tol cam W Hc (sx, sy') = true ->
  round_trip_within tol cam W Hc (sx', sy) = true ->
  round_trip_within tol cam W Hc (sx, sy) = true.
Proof.
  unfold round_trip_within, world_to_screen, screen_to_world.
  cbn [fst snd vx vy].
  repeat match goal with
         | |- context [to_long ?e] => destruct (to_long e)
         end;
    cbn [obind px py]; rewrite ?andb_true_iff; intuition discriminate.
Qed.

Lemma within_spec (tol : Z) (cam : Camera float) (W Hc sx sy : Z) :
  round_trip_within tol cam W Hc (sx, sy) = true ->
  let w := screen_to_world cam W Hc sx sy in
  exists q : POINT,
    world_to_screen cam W Hc (vx w) (vy w) = Some q /\
    Z.abs (px q - sx) <= tol /\ Z.abs (py q - sy) <= tol.
Proof.
  unfold round_trip_within. cbv zeta. cbn [fst snd]. intros H.
  destruct (world_to_screen _ _ _ _ _) as [q|]; [|discriminate].
  apply andb_true_iff in H. destruct H as [H1 H2].
  apply Z.leb_le in H1. apply Z.leb_le in H2. exists q. auto.
Qed.

Lemma within_window (tol : Z) (cam : Camera float) (W Hc : Z) (nx ny : nat) :
  forallb (fun x => round_trip_within tol cam W Hc (x, 0)) (zrange 0 nx) = true ->
  forallb (fun y => round_trip_within tol cam W Hc (0, y)) (zrange 0 ny) = true ->
  forall sx sy : Z, 0 <= sx < Z.of_nat nx -> 0 <= sy < Z.of_nat ny ->
    round_trip_within tol cam W Hc (sx, sy) = true.
Proof.
  intros Hx Hy sx sy Hsx Hsy.
  apply within_components with (sx' := 0) (sy' := 0).
  - apply (@forallb_zrange _ _ _ Hx). lia.
  - apply (@forallb_zrange _ _ _ Hy). lia.
Qed.





(** With the initial camera and the initial 800x600 client area, the
    binary32 round trip returns every point of the window unchanged. *)
Lemma round_trip_initial_camera (sx sy : Z) :
  0 <= sx < 800 -> 0 <= sy < 600 ->
  let w := screen_to_world (F:=float) g_cam_init 800 600 sx sy in
  world_to_screen g_cam_init 800 600 (vx w) (vy w) = Some (mk_POINT sx sy).
Proof.
  intros Hsx Hsy.
  assert (H : round_trip_within 0 g_cam_init 800 600 (sx, sy) = true).
  { apply (@within_window 0 g_cam_init 800 600 800 600);
      [vm_compute; reflexivity | vm_compute; reflexivity | lia | lia]. }
  destruct (@within_spec _ _ _ _ _ _ H) as ([a b] & E & Ha & Hb).
  cbn [px py] in Ha, Hb. cbv zeta. rewrite E. f_equal. f_equal; lia.
Qed.

(** After one wheel step the round trip is within one pixel on the whole
    window, and the truncation does cost a pixel at some points. *)
Lemma round_trip_zoomed_camera (sx sy : Z) :
  0 <= sx < 800 -> 0 <= sy < 600 ->
  let w := screen_to_world zoomed_camera 800 600 sx sy in
  exists q : POINT,
    world_to_screen zoomed_camera 800 600 (vx w) (vy w) = Some q /\
    Z.abs (px q - sx) <= 1 /\ Z.abs (py q - sy) <= 1.
Proof.
  intros Hsx Hsy. apply within_spec.
  apply (@within_window 1 zoomed_camera 800 600 800 600);
    [vm_compute; reflexivity | vm_compute; reflexivity | lia | lia].
Qed.


End WindowFacts.

(** C1. [world_to_screen] undoes [screen_to_world] up to rounding and
    truncation.  Without rounding the round trip is exact: for every
    camera with a non-zero scale, every client size and every screen point
    with [LONG] coordinates, mapping the point to the world and back
    returns the same point, and the conversions to [LONG] are defined.  In
    binary32, on the initial 800x600 window, the round trip is exact for
    the initial camera and within one pixel, the pixel lost to truncation,
    for the camera after one wheel step. *)
Theorem world_to_screen_screen_to_world_round_trip :
  forall (cam : Camera Q) (W Hc sx sy bx by_ : Z),
    ~ (scale cam == 0)%Q ->
    in_int sx = true -> in_int sy = true ->
    0 <= bx < 800 -> 0 <= by_ < 600 ->
    (let w := screen_to_world cam W Hc sx sy in
     world_to_screen cam W Hc (vx w) (vy w) = Some (mk_POINT sx sy)) /\
    (let w := screen_to_world (F:=float) g_cam_init 800 600 bx by_ in
     world_to_screen g_cam_init 800 600 (vx w) (vy w) = Some (mk_POINT bx by_)) /\
    (let w := screen_to_world zoomed_camera 800 600 bx by_ in
     exists q : POINT,
       world_to_screen zoomed_camera 800 600 (vx w) (vy w) = Some q /\
       Z.abs (px q - bx) <= 1 /\ Z.abs (py q - by_) <= 1).
Proof.
  intros cam W Hc sx sy bx by_ Hs Hx Hy Hbx Hby.
  split; [|split].
  - apply in_int_range in Hx. apply in_int_range in Hy.
    unfold world_to_screen, screen_to_world.
    cbn [vx vy fadd fsub fmul fdiv of_int to_long flit Exact.ops].
    unfold Exact.to_long.
    rewrite (@ExactFacts.trunc_inject_Z _ sx) by (field; exact Hs).
    rewrite (@ExactFacts.trunc_inject_Z _ sy) by (field; exact Hs).
    rewrite !int_checked_in by assumption. reflexivity.
  - apply WindowFacts.round_trip_initial_camera; assumption.
  - apply WindowFacts.round_trip_zoomed_camera; assumption.
Qed.

(** The other direction: a world point mapped to the screen and back
    moves by less than one pixel, the pixel lost to truncation. *)
Lemma screen_to_world_world_to_screen_exact :
  forall (cam : Camera Q) (W Hc : Z) (x y : Q) (p : POINT),
    (0 < scale cam)%Q ->
    world_to_screen cam W Hc x y = Some p ->
    let w := screen_to_world cam W Hc (px p) (py p) in
    (Qabs (vx w - x) * scale cam < 1)%Q /\ (Qabs (vy w - y) * scale cam < 1)%Q.
Proof.
  intros [s pX pY] W Hc x y p Hs. cbn [scale] in Hs.
  unfold world_to_screen, screen_to_world.
  cbn [vx vy scale panX panY fadd fsub fmul fdiv of_int to_long flit Exact.ops].
  unfold Exact.to_long, int_checked.
  set (rx := (inject_Z W * (1 # 2) + pX + x * s)%Q).
  set (ry := (inject_Z Hc * (1 # 2) + pY - y * s)%Q).
  destruct (in_int (Exact.trunc rx)); [|discriminate].
  destruct (in_int (Exact.trunc ry)); [|discriminate].
  cbn [obind]. intros E. injection E as <-. cbn [px py].
  pose proof (ExactFacts.trunc_error rx) as Ex.
  pose proof (ExactFacts.trunc_error ry) as Ey.
  assert (scaled : forall d t : Q, (d * s == t)%Q -> (Qabs t < 1)%Q -> (Qabs d * s < 1)%Q).
  { intros d t E Ht.
    assert (E1 : (Qabs d * s == Qabs (d * s))%Q).
    { rewrite Qabs_Qmult. rewrite (Qabs_pos s) by lra. reflexivity. }
    rewrite E1, E. exact Ht. }
  split.
  - apply scaled with (t := (inject_Z (Exact.trunc rx) - rx)%Q); [|exact Ex].
    unfold rx. field. lra.
  - apply scaled with (t := (- (inject_Z (Exact.trunc ry) - ry))%Q);
      [|rewrite Qabs_opp; exact Ey].
    unfold ry. field. lra.
Qed.

Module ZoomFacts.
Local Open Scope Q_scope.




Lemma zoomFactor_exact (wheelDelta : Z) :
  zoomFactor (F:=Q) wheelDelta == 11 # 10 \/ zoomFactor (F:=Q) wheelDelta == 10 # 11.
Proof.
  unfold zoomFactor. destruct (0 <? wheelDelta)%Z; [left | right]; reflexivity.
Qed.

End ZoomFacts.

Module ZoomMore.
Local Open Scope Q_scope.






End ZoomMore.



(** ** The decade search *)

Module DecadeFacts.

Lemma up_spec (fuel : nat) :
  forall n d k : Z,
    0 < d -> d <= n -> n < d * 10 ^ Z.of_nat fuel ->
    exists j : Z, 0 <= j /\ Decade.up fuel n d k = k + j /\
                  d * 10 ^ j <= n < d * 10 ^ (j + 1).
Proof.
  induction fuel as [|f IH]; intros n d k Hd Hle Hlt.
  - simpl in Hlt. lia.
  - cbn [Decade.up]. destruct (10 * d <=? n) eqn:E.
    + apply Z.leb_le in E.
      destruct (IH n (10 * d) (k + 1)) as (j & Hj & Ej & Hlo & Hhi); try lia.
      { rewrite Nat2Z.inj_succ, Z.pow_succ_r in Hlt by lia. lia. }
      exists (j + 1). rewrite Ej.
      rewrite !Z.pow_add_r in * by lia. change (10 ^ 1) with 10 in *.
      repeat split; lia.
    + apply Z.leb_gt in E. exists 0. change (10 ^ 0) with 1.
      change (10 ^ (0 + 1)) with 10. repeat split; lia.
Qed.

Lemma down_done (fuel : nat) (n d k : Z) : d <= n -> Decade.down fuel n d k = k.
Proof.
  intros H. destruct fuel; [reflexivity|]. cbn [Decade.down].
  destruct (n <? d) eqn:E; [apply Z.ltb_lt in E; lia | reflexivity].
Qed.

Lemma down_spec (fuel : nat) :
  forall n d k : Z,
    0 < n -> n < d -> d <= n * 10 ^ Z.of_nat fuel ->
    exists j : Z, 0 < j /\ Decade.down fuel n d k = k - j /\
                  n * 10 ^ (j - 1) < d <= n * 10 ^ j.
Proof.
  induction fuel as [|f IH]; intros n d k Hn Hlt Hle.
  - simpl in Hle. lia.
  - cbn [Decade.down]. destruct (n <? d) eqn:E; [|apply Z.ltb_ge in E; lia].
    destruct (Z_lt_le_dec (10 * n) d) as [L|L].
    + destruct (IH (10 * n) d (k - 1)) as (j & Hj & Ej & Hlo & Hhi); try lia.
      { rewrite Nat2Z.inj_succ, Z.pow_succ_r in Hle by lia. lia. }
      exists (j + 1). rewrite Ej.
      assert (E1 : 10 ^ j = 10 * 10 ^ (j - 1)).
      { rewrite <- Z.pow_succ_r by lia. f_equal. lia. }
      assert (E2 : 10 ^ (j + 1) = 10 * 10 ^ j).
      { rewrite <- Z.pow_succ_r by lia. f_equal. }
      replace (j + 1 - 1) with j by lia.
      rewrite E2. rewrite E1 in *.
      repeat split; lia.
    + rewrite down_done by lia. exists 1.
      change (10 ^ (1 - 1)) with 1. change (10 ^ 1) with 10.
      repeat split; lia.
Qed.

Lemma pow2_le_pow10 (e : Z) : 0 <= e -> 2 ^ e <= 10 ^ e.
Proof. intros H. apply Z.pow_le_mono_l. lia. Qed.

Lemma lt_pow10_log2 (n : Z) : 0 < n -> n < 10 ^ Z.of_nat (S (Z.to_nat (Z.log2 n))).
Proof.
  intros H. pose proof (Z.log2_nonneg n) as L.
  rewrite Nat2Z.inj_succ, Z2Nat.id by lia.
  pose proof (Z.log2_spec n H) as [_ Hhi].
  pose proof (@pow2_le_pow10 (Z.succ (Z.log2 n))). lia.
Qed.

(** [floor_log10_frac n d] is the decade of [n/d]. *)
Lemma floor_log10_frac_spec (n d : Z) :
  0 < n -> 0 < d ->
  let k := Decade.floor_log10_frac n d in
  (0 <= k /\ d * 10 ^ k <= n < d * 10 ^ (k + 1)) \/
  (k < 0 /\ n * 10 ^ (- k - 1) < d <= n * 10 ^ (- k)).
Proof.
  intros Hn Hd k. subst k. unfold Decade.floor_log10_frac.
  destruct (d <=? n) eqn:E.
  - apply Z.leb_le in E. left.
    destruct (@up_spec (S (Z.to_nat (Z.log2 n))) n d 0) as (j & Hj & Ej & Hb); try lia.
    { pose proof (lt_pow10_log2 Hn). nia. }
    rewrite Ej. simpl (0 + j). split; [lia | exact Hb].
  - apply Z.leb_gt in E. right.
    destruct (@down_spec (S (Z.to_nat (Z.log2 d))) n d 0) as (j & Hj & Ej & Hb); try lia.
    { pose proof (lt_pow10_log2 Hd). nia. }
    rewrite Ej. replace (- (0 - j) - 1) with (j - 1) by lia.
    replace (- (0 - j)) with j by lia. split; [lia | exact Hb].
Qed.

Local Open Scope Q_scope.

Lemma pow10_Q_nonneg (k : Z) : (0 <= k)%Z -> Decade.pow10_Q k = inject_Z (10 ^ k).
Proof. destruct k; intros H; try reflexivity. lia. Qed.

Lemma pow10_Q_neg (j : Z) :
  (0 < j)%Z -> Decade.pow10_Q (- j) == / inject_Z (10 ^ j).
Proof.
  destruct j as [|p|p]; intros H; try lia. cbn [Z.opp Decade.pow10_Q].
  rewrite <- Pos2Z.inj_pow. reflexivity.
Qed.

Lemma pow10_pos (j : Z) : (0 <= j)%Z -> 0 < inject_Z (10 ^ j).
Proof.
  intros H. change 0 with (inject_Z 0). rewrite <- Zlt_Qlt.
  apply Z.pow_pos_nonneg; lia.
Qed.

(** [pow10_Q] is the rational power of ten. *)
Lemma pow10_Q_power (k : Z) : Decade.pow10_Q k == (10 # 1) ^ k.
Proof.
  destruct k as [|p|p].
  - reflexivity.
  - cbn [Decade.pow10_Q]. rewrite Qpower_decomp_pos.
    unfold Qeq, inject_Z. cbn [Qnum Qden].
    rewrite Pos2Z.inj_pow, Z.pow_1_l by lia. reflexivity.
  - cbn [Decade.pow10_Q]. rewrite Qpower_decomp_neg_pos.
    rewrite Z.pow_1_l by lia. reflexivity.
Qed.

(** The model of [floor(log10(t))] on the rationals meets its
    mathematical specification. *)
Lemma floor_log10_Q_spec (t : Q) :
  0 < t ->
  Decade.pow10_Q (Decade.floor_log10_Q t) <= t /\
  t < Decade.pow10_Q (Decade.floor_log10_Q t + 1).
Proof.
  destruct t as [n d]. intros Ht.
  assert (Hn : (0 < n)%Z).
  { unfold Qlt in Ht. simpl in Ht. lia. }
  unfold Decade.floor_log10_Q. cbn [Qnum Qden].
  destruct (@floor_log10_frac_spec n (Zpos d) Hn eq_refl) as [(Hk & Hlo & Hhi)|(Hk & Hlo & Hhi)];
    set (k := Decade.floor_log10_frac n (Zpos d)) in *.
  - rewrite !pow10_Q_nonneg by lia. unfold Qle, Qlt, inject_Z. cbn [Qnum Qden].
    split; lia.
  - replace k with (- (- k))%Z by lia.
    set (j := (- k)%Z) in *. assert (Hj : (0 < j)%Z) by lia.
    split.
    + rewrite pow10_Q_neg by lia.
      apply Qle_shift_inv_r; [apply pow10_pos; lia|].
      unfold Qle, Qmult, inject_Z. cbn [Qnum Qden]. lia.
    + destruct (Z.eq_dec j 1) as [E1|E1].
      * rewrite E1 in *. change (Decade.pow10_Q (- (1) + 1)) with 1.
        change (10 ^ (1 - 1))%Z with 1%Z in Hlo.
        unfold Qlt. cbn [Qnum Qden]. lia.
      * replace (- j + 1)%Z with (- (j - 1))%Z by lia.
        rewrite pow10_Q_neg by lia.
        apply Qlt_shift_inv_l; [apply pow10_pos; lia|].
        unfold Qlt, Qmult, inject_Z. cbn [Qnum Qden]. lia.
Qed.

End DecadeFacts.


(** ** Labels *)

Module LabelFacts.

Lemma letter_code (d : Z) :
  0 <= d < 26 -> Z.of_N (N_of_ascii (letter d)) = 97 + d.
Proof.
  intros H. unfold letter. rewrite N_ascii_embedding; lia.
Qed.

Lemma letter_is_lower (d : Z) : 0 <= d < 26 -> is_lower (letter d) = true.
Proof.
  intros H. unfold is_lower. rewrite letter_code by assumption.
  apply andb_true_iff. split; apply Z.leb_le; lia.
Qed.

Lemma is_lower_not_NUL (c : ascii) : is_lower c = true -> Ascii.eqb c NUL = false.
Proof.
  intros H. apply Ascii.eqb_neq. intros ->. discriminate H.
Qed.

Lemma label_loop_app (fuel : nat) :
  forall (x : Z) (tmp : list ascii),
    label_loop fuel x tmp = tmp ++ label_loop fuel x [].
Proof.
  induction fuel as [|f IH]; intros x tmp; cbn [label_loop].
  - now rewrite app_nil_r.
  - destruct (0 <? x).
    + rewrite (IH _ (tmp ++ _)), (IH _ ([] ++ _)). now rewrite <- app_assoc.
    + now rewrite app_nil_r.
Qed.

Lemma label_loop_step (f : nat) (x : Z) :
  0 < x ->
  label_loop (S f) x [] = letter ((x - 1) mod 26) :: label_loop f ((x - 1) / 26) [].
Proof.
  intros H. cbn [label_loop]. apply Z.ltb_lt in H. rewrite H.
  rewrite label_loop_app. reflexivity.
Qed.

Lemma label_loop_stop (f : nat) (x : Z) : x <= 0 -> label_loop f x [] = [].
Proof.
  intros H. destruct f; [reflexivity|]. cbn [label_loop].
  destruct (0 <? x) eqn:E; [apply Z.ltb_lt in E; lia | reflexivity].
Qed.

Lemma label_loop_lower (fuel : nat) :
  forall x : Z, Forall (fun c => is_lower c = true) (label_loop fuel x []).
Proof.
  induction fuel as [|f IH]; intros x.
  - constructor.
  - destruct (Z_lt_le_dec 0 x) as [H|H].
    + rewrite label_loop_step by assumption. constructor; [|apply IH].
      apply letter_is_lower. apply Z.mod_pos_bound. lia.
    + rewrite label_loop_stop by assumption. constructor.
Qed.

(** The loop writes the bijective base-26 digits of [x]. *)
Lemma label_loop_value (fuel : nat) :
  forall x : Z, 0 <= x < 26 ^ Z.of_nat fuel ->
    bij26_value (label_loop fuel x []) = x.
Proof.
  induction fuel as [|f IH]; intros x Hx.
  - simpl in Hx. assert (x = 0) by lia. subst. reflexivity.
  - destruct (Z.eq_dec x 0) as [->|Hne].
    + rewrite label_loop_stop by lia. reflexivity.
    + rewrite label_loop_step by lia. cbn [bij26_value].
      unfold bij26_digit. rewrite letter_code by (apply Z.mod_pos_bound; lia).
      rewrite IH.
      * pose proof (Z.div_mod (x - 1) 26). lia.
      * rewrite Nat2Z.inj_succ, Z.pow_succ_r in Hx by lia.
        split; [apply Z.div_pos; lia|].
        apply Z.div_lt_upper_bound; lia.
Qed.

Lemma store_split {A : Type} (l : list A) :
  forall (i : nat) (c : A), (i < List.length l)%nat ->
    store l i c = firstn i l ++ c :: skipn (S i) l.
Proof.
  induction l as [|a r IH]; intros i c H; [simpl in H; lia|].
  destruct i as [|j]; [reflexivity|].
  cbn [store firstn skipn app]. f_equal. apply IH. simpl in H. lia.
Qed.

Lemma store_length {A : Type} (l : list A) :
  forall (i : nat) (c : A), List.length (store l i c) = List.length l.
Proof.
  induction l as [|a r IH]; intros i c; [reflexivity|].
  destruct i; cbn [store List.length]; [reflexivity | now rewrite IH].
Qed.

(** The copy loop writes the first [m] characters of [tmp] reversed. *)
Lemma copy_rev_spec (tmp : list ascii) (m : nat) :
  forall (i : nat) (out : list ascii),
    (i + m <= List.length out)%nat -> (i + m <= List.length tmp)%nat ->
    copy_rev tmp (List.length tmp) out i m
    = firstn i out ++ firstn m (skipn i (rev tmp)) ++ skipn (i + m) out.
Proof.
  induction m as [|m IH]; intros i out Ho Ht.
  - cbn [copy_rev firstn app]. rewrite Nat.add_0_r. now rewrite firstn_skipn.
  - cbn [copy_rev]. rewrite IH by (rewrite ?store_length; lia).
    rewrite store_split by lia.
    assert (Hf : List.length (firstn i out) = i) by (apply firstn_length_le; lia).
    assert (E1 : firstn (S i) (firstn i out ++ nth (List.length tmp - 1 - i) tmp NUL
                                :: skipn (S i) out)
                 = firstn i out ++ [nth (List.length tmp - 1 - i) tmp NUL]).
    { rewrite firstn_app, Hf. rewrite firstn_all2 by lia.
      replace (S i - i)%nat with 1%nat by lia. reflexivity. }
    assert (E2 : skipn (S i + m) (firstn i out ++ nth (List.length tmp - 1 - i) tmp NUL
                                    :: skipn (S i) out)
                 = skipn (i + S m) out).
    { rewrite skipn_app, Hf. rewrite (skipn_all2 (n := (S i + m)%nat)) by lia.
      replace (S i + m - i)%nat with (S m) by lia.
      rewrite app_nil_l, skipn_cons, skipn_skipn. f_equal. lia. }
    rewrite E1, E2. rewrite <- app_assoc. f_equal. cbn [app]. f_equal.
    assert (E3 : skipn i (rev tmp)
                 = nth (List.length tmp - 1 - i) tmp NUL :: skipn (S i) (rev tmp)).
    { replace (List.length tmp - 1 - i)%nat with (List.length tmp - S i)%nat by lia.
      rewrite <- rev_nth by lia.
      assert (Hr : (i < List.length (rev tmp))%nat) by (rewrite length_rev; lia).
      clear - Hr. revert i Hr. induction (rev tmp) as [|a r IH]; intros i Hr.
      - simpl in Hr. lia.
      - destruct i; [reflexivity|]. cbn [skipn nth]. apply IH. simpl in Hr. lia. }
    rewrite E3. reflexivity.
Qed.

Lemma c_str_terminated (l r : list ascii) :
  Forall (fun c => is_lower c = true) l ->
  c_str (l ++ NUL :: r) = string_of_list_ascii l.
Proof.
  induction 1 as [|c l Hc Hl IH]; cbn [app c_str string_of_list_ascii].
  - reflexivity.
  - rewrite (is_lower_not_NUL _ Hc). now rewrite IH.
Qed.

Lemma string_length_of_list (l : list ascii) :
  String.length (string_of_list_ascii l) = List.length l.
Proof. induction l; cbn; congruence. Qed.

(** What [make_label] leaves in the buffer. *)
Lemma make_label_buffer (idx : Z) (out : list ascii) (outsz : Z) :
  0 < outsz <= Z.of_nat (List.length out) ->
  let full := rev (label_digits idx) in
  let m := Nat.min (List.length full) (Z.to_nat (outsz - 1)) in
  make_label idx out outsz = firstn m full ++ NUL :: skipn (S m) out.
Proof.
  intros Hsz full m. unfold make_label.
  destruct (outsz =? 0) eqn:E0; [apply Z.eqb_eq in E0; lia|].
  set (tmp := label_digits idx) in *.
  assert (Hm : (if Z.of_nat (List.length tmp) <? outsz - 1
                then List.length tmp else Z.to_nat (outsz - 1)) = m).
  { subst m full. rewrite length_rev.
    destruct (Z.of_nat (List.length tmp) <? outsz - 1) eqn:E.
    - apply Z.ltb_lt in E. lia.
    - apply Z.ltb_ge in E. lia. }
  rewrite Hm.
  assert (Hmt : (m <= List.length tmp)%nat) by (subst m full; rewrite length_rev; lia).
  assert (Hmo : (m < List.length out)%nat) by (subst m; lia).
  rewrite copy_rev_spec by lia. cbn [firstn skipn app Nat.add].
  fold full.
  assert (Hl : List.length (firstn m full) = m).
  { apply firstn_length_le. subst full. rewrite length_rev. lia. }
  assert (Hst : (m < List.length (firstn m full ++ skipn m out))%nat).
  { rewrite length_app, Hl, length_skipn. lia. }
  rewrite (store_split _ NUL Hst).
  rewrite firstn_app, Hl, Nat.sub_diag. cbn [firstn]. rewrite app_nil_r.
  rewrite firstn_all2 by lia. f_equal. f_equal.
  rewrite skipn_app, Hl.
  rewrite (skipn_all2 (n := S m)) by lia. cbn [app].
  replace (S m - m)%nat with 1%nat by lia. rewrite skipn_skipn. reflexivity.
Qed.

Lemma full_label_lower (idx : Z) :
  Forall (fun c => is_lower c = true) (rev (label_digits idx)).
Proof.
  apply Forall_rev. apply label_loop_lower.
Qed.

Lemma firstn_lower (l : list ascii) (n : nat) :
  Forall (fun c => is_lower c = true) l ->
  Forall (fun c => is_lower c = true) (firstn n l).
Proof.
  intros H. revert n. induction H; intros [|n]; cbn [firstn]; constructor; auto.
Qed.

(** The label read back from an 8-byte buffer. *)
Lemma make_label_c_str (idx : Z) (buf : list ascii) :
  List.length buf = 8%nat ->
  c_str (make_label idx buf LABEL_SIZE)
  = string_of_list_ascii (firstn 7 (rev (label_digits idx))).
Proof.
  intros Hb. rewrite make_label_buffer by (rewrite Hb; unfold LABEL_SIZE; lia).
  cbv zeta. rewrite c_str_terminated by (apply firstn_lower, full_label_lower).
  f_equal. change (Z.to_nat (LABEL_SIZE - 1)) with 7%nat.
  destruct (Nat.le_gt_cases (List.length (rev (label_digits idx))) 7) as [H|H].
  - rewrite Nat.min_l by assumption. now rewrite !firstn_all2 by lia.
  - rewrite Nat.min_r by lia. reflexivity.
Qed.

(** The shape of a label in an 8-byte buffer: the buffer keeps its
    size, the string read back is the first 7 letters of the full
    representation, and the byte after it is NUL. *)
Lemma make_label_shape (idx : Z) (buf : list ascii) :
  List.length buf = 8%nat ->
  let out := make_label idx buf LABEL_SIZE in
  let full := rev (label_digits idx) in
  List.length out = 8%nat /\
  c_str out = string_of_list_ascii (firstn 7 full) /\
  (String.length (c_str out) <= 7)%nat /\
  nth (String.length (c_str out)) out "#"%char = NUL.
Proof.
  intros Hb out full.
  pose proof (@make_label_buffer idx buf LABEL_SIZE) as Hout.
  cbv zeta in Hout. fold full in Hout. fold out in Hout.
  rewrite Hout by (rewrite Hb; unfold LABEL_SIZE; lia).
  change (Z.to_nat (LABEL_SIZE - 1)) with 7%nat.
  set (m := Nat.min (List.length full) 7).
  assert (Hm : (m <= 7)%nat) by (subst m; lia).
  assert (Hl : List.length (firstn m full) = m).
  { apply firstn_length_le. subst m. lia. }
  assert (Hf : firstn 7 full = firstn m full).
  { subst m. destruct (Nat.le_gt_cases (List.length full) 7) as [H|H].
    - rewrite Nat.min_l by assumption. now rewrite !firstn_all2 by lia.
    - rewrite Nat.min_r by lia. reflexivity. }
  rewrite c_str_terminated by (apply firstn_lower, full_label_lower).
  rewrite string_length_of_list, Hl.
  repeat split.
  - rewrite length_app, Hl. cbn [List.length]. rewrite length_skipn. lia.
  - now rewrite Hf.
  - exact Hm.
  - rewrite app_nth2 by lia. rewrite Hl, Nat.sub_diag. reflexivity.
Qed.

End LabelFacts.

(** ** The vector list *)

Module VecListFacts.

Lemma store_Forall {A : Type} (P : A -> Prop) (l : list A) :
  forall (i : nat) (c : A), Forall P l -> P c -> Forall P (store l i c).
Proof.
  induction l as [|a r IH]; intros i c Hl Hc; [constructor|].
  inversion Hl; subst. destruct i; cbn [store]; constructor; auto.
Qed.


Lemma blank_label : List.length (label VEntry_blank) = 8%nat.
Proof. reflexivity. Qed.

Lemma init_wf : VecList_wf g_vecs_init.
Proof. repeat split; cbn; try lia. constructor. Qed.



End VecListFacts.


(** ** Presets *)

Module PresetFacts.

Lemma same_preset_refl (w : World) : same_preset w w.
Proof. split; reflexivity. Qed.

Lemma same_preset_trans (w1 w2 w3 : World) :
  same_preset w1 w2 -> same_preset w2 w3 -> same_preset w1 w3.
Proof. unfold same_preset. intros [A B] [C D]. split; congruence. Qed.

Lemma push_same (w : World) (value : vec2 float) (col : COLORREF) :
  same_preset w (push_g_vecs w value col).
Proof.
  unfold push_g_vecs. destruct (veclist_push _ _ _ _). split; reflexivity.
Qed.

Lemma add_vec_col_same (x y : float) (c : COLORREF) (w0 w : World) :
  same_preset w0 w -> same_preset w0 (add_vec_col x y c w).
Proof.
  intros H. eapply same_preset_trans; [exact H | apply push_same].
Qed.

Lemma reset_same (w : World) : same_preset w (reset_list_and_labels w).
Proof. split; reflexivity. Qed.

Lemma for_loop_inv (P : World -> Prop) (body : Z -> World -> World) :
  (forall i w, P w -> P (body i w)) ->
  forall (n : nat) (i : Z) (w : World), P w -> P (for_loop n i body w).
Proof.
  intros Hb. induction n as [|n IH]; intros i w H; cbn [for_loop]; auto.
Qed.

Lemma for_loop_same (body : Z -> World -> World) (w0 : World) :
  (forall i w, same_preset w0 w -> same_preset w0 (body i w)) ->
  forall (n : nat) (i : Z) (w : World),
    same_preset w0 w -> same_preset w0 (for_loop n i body w).
Proof.
  apply for_loop_inv.
Qed.

Lemma generators_same :
  Forall (fun d => forall env w, same_preset w (fn d env w)) g_presets.
Proof.
  unfold g_presets. repeat apply Forall_cons; try apply Forall_nil;
    cbn [fn]; intros env w.
  - apply reset_same.
  - unfold preset_basis. repeat apply add_vec_col_same. apply reset_same.
  - unfold preset_spokes. apply for_loop_same; [|apply reset_same].
    intros i w1 H. apply add_vec_col_same. exact H.
  - unfold preset_random. apply for_loop_same; [|apply reset_same].
    intros i w1 H. unfold rand. apply add_vec_col_same.
    destruct H as [A B]. split; assumption.
  - unfold preset_projection. repeat apply add_vec_col_same. apply reset_same.
  - unfold preset_reflection. repeat apply add_vec_col_same. apply reset_same.
  - unfold preset_rotations. apply for_loop_same; [|apply reset_same].
    intros i w1 H. apply add_vec_col_same. exact H.
Qed.

Lemma preset_at_same (i : Z) (env : Env) (w : World) :
  same_preset w (fn (preset_at i) env w).
Proof.
  unfold preset_at.
  destruct (nth_in_or_default (Z.to_nat i) g_presets
              (mk_PresetDesc EmptyString (fun _ w => w))) as [Hin | ->].
  - pose proof generators_same as G. rewrite Forall_forall in G.
    apply G. exact Hin.
  - apply same_preset_refl.
Qed.

Lemma wrapped_range (idx : Z) : 0 <= wrapped idx <= g_preset_count - 1.
Proof.
  unfold wrapped. change g_preset_count with 7.
  destruct (idx <? 0) eqn:E1; [lia|].
  destruct (7 <=? idx) eqn:E2; [lia|].
  apply Z.ltb_ge in E1. apply Z.leb_gt in E2. lia.
Qed.

Lemma apply_index_name (env : Env) (idx : Z) (w : World) :
  g_preset_index (preset_apply_index env idx w) = wrapped idx /\
  g_preset_name (preset_apply_index env idx w) = name (preset_at (wrapped idx)).
Proof.
  unfold preset_apply_index. change (g_preset_count =? 0) with false. cbv iota.
  set (i1 := if idx <? 0 then g_preset_count - 1 else idx).
  assert (Hi : (if i1 >=? g_preset_count then 0 else i1) = wrapped idx).
  { unfold wrapped, i1. change g_preset_count with 7.
    rewrite !Z.geb_leb.
    destruct (idx <? 0) eqn:E1; [reflexivity|].
    destruct (7 <=? idx); reflexivity. }
  rewrite Hi.
  destruct (preset_at_same (g_preset_index (set_preset w (wrapped idx)
                              (name (preset_at (wrapped idx)))))
              env (set_preset w (wrapped idx) (name (preset_at (wrapped idx)))))
    as [A B].
  rewrite A, B. split; reflexivity.
Qed.

(** A push adds one to the label counter and to the length. *)
Lemma push_counts (w : World) (value : vec2 float) (col : COLORREF) :
  counts (push_g_vecs w value col) = bump (counts w).
Proof.
  unfold counts, bump, push_g_vecs, veclist_push.
  cbn [g_label_counter g_vecs set_label_counter set_vecs len fst snd].
  destruct (cap (g_vecs w) <? size_wrap (len (g_vecs w) + 1)); [|reflexivity].
  unfold veclist_reserve.
  destruct (size_wrap (len (g_vecs w) + 1) <=? cap (g_vecs w)); reflexivity.
Qed.

Lemma reset_counts (w : World) : counts (reset_list_and_labels w) = (0, 0).
Proof. reflexivity. Qed.

Lemma for_loop_counts (body : Z -> World -> World) :
  (forall i w, counts (body i w) = bump (counts w)) ->
  forall (n : nat) (i : Z) (w : World),
    counts (for_loop n i body w) = Nat.iter n bump (counts w).
Proof.
  intros Hb. induction n as [|n IH]; intros i w; cbn [for_loop].
  - reflexivity.
  - rewrite IH, Hb. symmetry. apply Nat.iter_succ_r.
Qed.

(** Every generator starts the labels again: the counter and the length
    it leaves are the number of vectors it adds, whatever the state
    before. *)
Lemma generators_counts (env : Env) (w : World) :
  map (fun d => counts (fn d env w)) g_presets
  = [(0, 0); (6, 6); (16, 16); (40, 40); (3, 3); (3, 3); (12, 12)].
Proof.
  unfold g_presets. cbn [map fn].
  assert (E0 : counts (preset_empty env w) = (0, 0)) by apply reset_counts.
  assert (E1 : counts (preset_basis env w) = (6, 6)).
  { unfold preset_basis, add_vec_col. now rewrite !push_counts, reset_counts. }
  assert (E2 : counts (preset_spokes env w) = (16, 16)).
  { unfold preset_spokes, add_vec_col.
    rewrite for_loop_counts by (intros; apply push_counts).
    now rewrite reset_counts. }
  assert (E3 : counts (preset_random env w) = (40, 40)).
  { unfold preset_random, add_vec_col, rand.
    rewrite for_loop_counts
      by (intros; cbv beta iota zeta; rewrite push_counts; reflexivity).
    now rewrite reset_counts. }
  assert (E4 : counts (preset_projection env w) = (3, 3)).
  { unfold preset_projection, add_vec_col. now rewrite !push_counts, reset_counts. }
  assert (E5 : counts (preset_reflection env w) = (3, 3)).
  { unfold preset_reflection, add_vec_col. now rewrite !push_counts, reset_counts. }
  assert (E6 : counts (preset_rotations env w) = (12, 12)).
  { unfold preset_rotations, add_vec_col.
    rewrite for_loop_counts by (intros; apply push_counts).
    now rewrite reset_counts. }
  now rewrite E0, E1, E2, E3, E4, E5, E6.
Qed.

Lemma apply_ok (env : Env) (idx : Z) (w : World) :
  preset_ok (preset_apply_index env idx w).
Proof.
  destruct (apply_index_name env idx w) as [A B]. unfold preset_ok.
  rewrite A, B. split; [apply wrapped_range | reflexivity].
Qed.

Lemma next_ok (env : Env) (w : World) :
  preset_ok w -> exists w', preset_next env w = Some w' /\ preset_ok w'.
Proof.
  intros [Hr _]. change g_preset_count with 7 in Hr.
  unfold preset_next, int_add.
  rewrite int_checked_in by (unfold INT_MIN, INT_MAX; lia). cbn [obind].
  eexists. split; [reflexivity | apply apply_ok].
Qed.

Lemma prev_ok (env : Env) (w : World) :
  preset_ok w -> exists w', preset_prev env w = Some w' /\ preset_ok w'.
Proof.
  intros [Hr _]. change g_preset_count with 7 in Hr.
  unfold preset_prev, int_sub.
  rewrite int_checked_in by (unfold INT_MIN, INT_MAX; lia). cbn [obind].
  eexists. split; [reflexivity | apply apply_ok].
Qed.

(** No message handler breaks the preset invariant. *)
Lemma WndProc_ok (env : Env) (msg : Msg) (w w' : World) :
  preset_ok w -> WndProc env msg w = Some w' -> preset_ok w'.
Proof.
  intros Hok. destruct msg; cbn [WndProc].
  - intros E. injection E as <-. apply apply_ok.
  - intros E. injection E as <-. exact Hok.
  - intros E. injection E as <-.
    destruct (push_same w (screen_to_world (g_cam w) (g_clientW w) (g_clientH w)
                             (GET_X_LPARAM lParam) (GET_Y_LPARAM lParam))
                        (RGB 80 220 160)) as [A B].
    unfold preset_ok. rewrite A, B. exact Hok.
  - intros E. injection E as <-. exact Hok.
  - destruct (g_rightDragging w).
    + destruct (int_sub _ _); [|discriminate]. cbn [obind].
      destruct (int_sub _ _); [|discriminate]. cbn [obind].
      intros E. injection E as <-. exact Hok.
    + intros E. injection E as <-. exact Hok.
  - intros E. injection E as <-. exact Hok.
  - destruct (int_sub _ _); [|discriminate]. cbn [obind].
    destruct (int_sub _ _); [|discriminate]. cbn [obind].
    destruct (handle_zoom_at_cursor _ _ _ _ _ _); [|discriminate]. cbn [obind].
    intros E. injection E as <-. exact Hok.
  - destruct (wParam =? VK_DELETE); [intros E; injection E as <-; exact Hok|].
    destruct (wParam =? KEY_R); [intros E; injection E as <-; exact Hok|].
    destruct (wParam =? KEY_1).
    { destruct (prev_ok env Hok) as (w1 & E1 & H1). rewrite E1.
      intros E. injection E as <-. exact H1. }
    destruct (wParam =? KEY_2).
    { destruct (next_ok env Hok) as (w1 & E1 & H1). rewrite E1.
      intros E. injection E as <-. exact H1. }
    intros E. injection E as <-. exact Hok.
  - intros E. injection E as <-. exact Hok.
  - intros E. injection E as <-. exact Hok.
  - intros E. injection E as <-. exact Hok.
Qed.

Lemma run_msgs_ok (env : Env) (msgs : list Msg) :
  forall w w' : World, preset_ok w -> run_msgs env msgs w = Some w' -> preset_ok w'.
Proof.
  induction msgs as [|m rest IH]; intros w w' Hok; cbn [run_msgs].
  - intros E. injection E as <-. exact Hok.
  - destruct (WndProc env m w) as [w1|] eqn:E1; [|discriminate]. cbn [obind].
    apply IH. apply (WndProc_ok env m Hok E1).
Qed.

End PresetFacts.

(** ** The vector list and the label counter *)

(** C8. [veclist_clear] sets the length to 0 and leaves the storage and the
    capacity as they are; on the globals it changes nothing but [g_vecs],
    so the label counter keeps its value.  The counter is set to 0 by
    [reset_list_and_labels] and by the handler of the delete key; and
    every preset generator starts with that reset: whatever the state
    before, it leaves the counter at the number of vectors it adds. *)
Theorem veclist_clear_keeps_storage_and_counter :
  (forall l : VecList,
     len (veclist_clear l) = 0 /\
     data (veclist_clear l) = data l /\
     cap (veclist_clear l) = cap l) /\
  (forall w : World,
     g_vecs (clear_g_vecs w) = veclist_clear (g_vecs w) /\
     g_label_counter (clear_g_vecs w) = g_label_counter w /\
     g_cam (clear_g_vecs w) = g_cam w /\
     g_preset_index (clear_g_vecs w) = g_preset_index w /\
     g_preset_name (clear_g_vecs w) = g_preset_name w) /\
  (forall w : World,
     g_label_counter (reset_list_and_labels w) = 0 /\
     g_vecs (reset_list_and_labels w) = veclist_clear (g_vecs w)) /\
  (forall (env : Env) (w : World),
     exists w' : World,
       WndProc env (WM_KEYDOWN VK_DELETE) w = Some w' /\
       g_label_counter w' = 0 /\
       g_vecs w' = veclist_clear (g_vecs w)) /\
  (forall (env : Env) (w : World),
     map (fun d => (g_label_counter (fn d env w), len (g_vecs (fn d env w)))) g_presets
     = [(0, 0); (6, 6); (16, 16); (40, 40); (3, 3); (3, 3); (12, 12)]).
Proof.
  split; [|split; [|split; [|split]]].
  - intros l. repeat split.
  - intros w. repeat split.
  - intros w. repeat split.
  - intros env w. eexists. split; [reflexivity|]. split; reflexivity.
  - intros env w. apply PresetFacts.generators_counts.
Qed.

(** C5, as the code has it.  [preset_apply_index] wraps once: every
    negative index becomes the last one, every index from the count
    upward becomes 0, and the indices in between are kept.  For an index
    [j] from -1 to the count, the only ones that [preset_prev] and
    [preset_next] pass, this is [j] modulo the count; so from index 0
    [preset_prev] lands on the last index, and from the last index
    [preset_next] lands on 0. *)
Theorem preset_apply_wraps_once :
  forall (env : Env) (idx j : Z) (w w_first w_last : World),
    -1 <= j <= g_preset_count ->
    g_preset_index w_first = 0 ->
    g_preset_index w_last = g_preset_count - 1 ->
    g_preset_index (preset_apply_index env idx w)
      = (if idx <? 0 then g_preset_count - 1
         else if g_preset_count <=? idx then 0 else idx) /\
    g_preset_index (preset_apply_index env j w) = j mod g_preset_count /\
    (exists w', preset_prev env w_first = Some w' /\
                g_preset_index w' = g_preset_count - 1) /\
    (exists w', preset_next env w_last = Some w' /\ g_preset_index w' = 0).
Proof.
  intros env idx j w w_first w_last Hj Hfirst Hlast.
  assert (A : forall i w0, g_preset_index (preset_apply_index env i w0) = wrapped i)
    by (intros; apply PresetFacts.apply_index_name).
  rewrite !A. change g_preset_count with 7 in *.
  split; [reflexivity|]. split; [|split].
  - unfold wrapped. change g_preset_count with 7.
    destruct (j <? 0) eqn:E1.
    + apply Z.ltb_lt in E1. assert (j = -1) by lia. subst. reflexivity.
    + destruct (7 <=? j) eqn:E2.
      * apply Z.leb_le in E2. assert (j = 7) by lia. subst. reflexivity.
      * apply Z.ltb_ge in E1. apply Z.leb_gt in E2. now rewrite Z.mod_small by lia.
  - unfold preset_prev. rewrite Hfirst. cbn [int_sub obind].
    eexists. split; [reflexivity|]. rewrite A. reflexivity.
  - unfold preset_next. rewrite Hlast. cbn [int_add obind].
    eexists. split; [reflexivity|]. rewrite A. reflexivity.
Qed.

(** C5 as stated fails: index 9 of the 7-entry registry is taken to 0,
    not to [9 mod 7 = 2]. *)
Lemma preset_apply_index_not_modulo :
  g_preset_index (preset_apply_index sample_env 9 world_init) <> 9 mod g_preset_count.
Proof.
  vm_compute. discriminate.
Qed.

(** C10. From the initial state, every sequence of apply, next and prev
    operations runs to a state, and in that state the current index lies
    in [0, count-1] and the current name is the name of the registry entry
    at that index. *)
Theorem preset_index_and_name_invariant :
  forall (env : Env) (ops : list PresetOp),
    exists w : World,
      run_ops env ops world_init = Some w /\
      0 <= g_preset_index w <= g_preset_count - 1 /\
      g_preset_name w = name (preset_at (g_preset_index w)).
Proof.
  intros env ops.
  assert (Hinit : preset_ok world_init) by (vm_compute; intuition discriminate).
  revert Hinit. generalize world_init.
  induction ops as [|op rest IH]; intros w Hok.
  - exists w. split; [reflexivity | exact Hok].
  - assert (Hstep : exists w1, run_op env op w = Some w1 /\ preset_ok w1).
    { destruct op as [idx| |]; cbn [run_op].
      - eexists. split; [reflexivity | apply PresetFacts.apply_ok].
      - apply PresetFacts.next_ok. exact Hok.
      - apply PresetFacts.prev_ok. exact Hok. }
    destruct Hstep as (w1 & E1 & H1).
    destruct (IH w1 H1) as (w2 & E2 & H2).
    exists w2. cbn [run_ops]. rewrite E1. cbn [obind]. split; assumption.
Qed.

(** ** binary32 facts *)

Module FloatFacts.

Lemma shr_1_nonneg (mrs : shr_record) : 0 <= shr_m mrs -> 0 <= shr_m (shr_1 mrs).
Proof.
  destruct mrs as [m r s]. cbn [shr_m]. intros H.
  destruct m as [|p|p]; [| |lia]; cbn [shr_1].
  - cbn. lia.
  - destruct p; cbn; lia.
Qed.

Lemma iter_shr_1_nonneg (p : positive) :
  forall mrs : shr_record, 0 <= shr_m mrs -> 0 <= shr_m (iter_pos shr_1 p mrs).
Proof.
  induction p as [p IH|p IH|]; intros mrs H; cbn [iter_pos].
  - apply IH, IH, shr_1_nonneg, H.
  - apply IH, IH, H.
  - apply shr_1_nonneg, H.
Qed.

Lemma shr_fexp_nonneg (prec emax m e : Z) (l : location) :
  0 <= m -> 0 <= shr_m (fst (shr_fexp prec emax m e l)).
Proof.
  intros H. unfold shr_fexp, shr.
  assert (H0 : 0 <= shr_m (shr_record_of_loc m l)).
  { destruct l as [|[]]; exact H. }
  destruct (fexp prec emax (Zdigits2 m + e) - e); cbn [fst]; auto.
  apply iter_shr_1_nonneg, H0.
Qed.

Lemma round_nearest_even_nonneg (m : Z) (l : location) :
  0 <= m -> 0 <= round_nearest_even m l.
Proof.
  intros H. destruct l as [|[]]; cbn [round_nearest_even]; try lia.
  destruct (Z.even m); lia.
Qed.

(** Rounding a non-negative significand with a positive sign never gives
    a negative number or a NaN. *)
Lemma binary_round_aux_nonneg (prec emax mx ex : Z) (lx : location) :
  0 <= mx ->
  SFleb (S754_zero false) (binary_round_aux prec emax false mx ex lx) = true.
Proof.
  intros H. unfold binary_round_aux.
  pose proof (shr_fexp_nonneg prec emax ex lx H) as H1.
  destruct (shr_fexp prec emax mx ex lx) as [mrs' e']. cbn [fst] in H1.
  pose proof (@shr_fexp_nonneg prec emax
                (round_nearest_even (shr_m mrs') (loc_of_shr_record mrs')) e' loc_Exact
                (round_nearest_even_nonneg _ H1)) as H2.
  destruct (shr_fexp prec emax _ e' loc_Exact) as [mrs'' e'']. cbn [fst] in H2.
  destruct (shr_m mrs'') as [|p|p]; [reflexivity | | lia].
  destruct (e'' <=? emax - prec); reflexivity.
Qed.

Lemma sub_self (x : float) : IEEE.is_finite x = true -> F32.sub x x = S754_zero false.
Proof.
  destruct x as [s|s| |s m e]; intros H; try discriminate H.
  - destruct s; reflexivity.
  - unfold F32.sub, SFsub. rewrite Z.sub_diag. reflexivity.
Qed.

Lemma fmaxf_same (x : float) : fmaxf x x = x.
Proof.
  unfold fmaxf. destruct (IEEE.is_nan x); [reflexivity|].
  destruct (F32.ltb x x); reflexivity.
Qed.

(** [0 <= eps * |x|] for finite [x] and finite [eps >= 0]. *)
Lemma zero_le_scaled_abs (eps x : float) :
  IEEE.is_finite eps = true -> IEEE.is_finite x = true ->
  F32.leb f32_zero eps = true ->
  F32.leb f32_zero (F32.mul eps (fabsf x)) = true.
Proof.
  intros He Hx Hpos.
  destruct eps as [se|se| |se me ee]; try discriminate He;
    destruct x as [sx|sx| |sx mx ex]; try discriminate Hx;
    cbn [fabsf SFabs F32.mul SFmul]; try reflexivity.
  destruct se; [discriminate Hpos|]. cbn [xorb].
  apply binary_round_aux_nonneg. lia.
Qed.

Lemma component_reflexive (eps x : float) :
  IEEE.is_finite eps = true -> IEEE.is_finite x = true ->
  F32.leb f32_zero eps = true ->
  F32.leb (fabsf (F32.sub x x)) (F32.mul eps (fmaxf (fabsf x) (fabsf x))) = true.
Proof.
  intros He Hx Hpos. rewrite sub_self by assumption. rewrite fmaxf_same.
  apply zero_le_scaled_abs; assumption.
Qed.

End FloatFacts.

(** C7 fails on the code: [vec2_abs] calls the integer [abs], so the
    components are truncated to [int] on the way.  At [(0.5, -1.5)] the
    result is [(0.0, 1.0)], not the componentwise absolute value
    [(0.5, 1.5)]. *)
Theorem vec2_abs_truncates :
  let a := mk_vec2 (F32.lit 1 2) (F32.lit (-3) 2) in
  vec2_abs a = Some (mk_vec2 (F32.of_Z 0) (F32.of_Z 1)) /\
  mk_vec2 (fabsf (vx a)) (fabsf (vy a)) = mk_vec2 (F32.lit 1 2) (F32.lit 3 2) /\
  vec2_abs a <> Some (mk_vec2 (fabsf (vx a)) (fabsf (vy a))).
Proof.
  cbv zeta. repeat split; vm_compute; try reflexivity. discriminate.
Qed.

(** * The statements at concrete inputs *)

(** C1 at the camera (88, 28, -15), the exact point (123, 456) and the
    binary32 point (8, 8). *)
Lemma world_to_screen_screen_to_world_round_trip_witness :
  ~ (scale zoomed_camera_exact == 0)%Q /\
  in_int 123 = true /\ in_int 456 = true /\
  0 <= 8 < 800 /\ 0 <= 8 < 600 /\
  (let w := screen_to_world zoomed_camera_exact 800 600 123 456 in
   world_to_screen zoomed_camera_exact 800 600 (vx w) (vy w)
   = Some (mk_POINT 123 456)) /\
  (let w := screen_to_world (F:=float) g_cam_init 800 600 8 8 in
   world_to_screen g_cam_init 800 600 (vx w) (vy w) = Some (mk_POINT 8 8)) /\
  (let w := screen_to_world zoomed_camera 800 600 8 8 in
   exists q : POINT,
     world_to_screen zoomed_camera 800 600 (vx w) (vy w) = Some q /\
     Z.abs (px q - 8) <= 1 /\ Z.abs (py q - 8) <= 1).
Proof.
  assert (H : ~ (scale zoomed_camera_exact == 0)%Q) by (intros E; discriminate E).
  assert (H1 : 0 <= 8 < 800) by lia.
  assert (H2 : 0 <= 8 < 600) by lia.
  split; [exact H|]. split; [reflexivity|]. split; [reflexivity|].
  split; [exact H1|]. split; [exact H2|].
  apply (@world_to_screen_screen_to_world_round_trip
           zoomed_camera_exact 800 600 123 456 8 8 H eq_refl eq_refl H1 H2).
Defined.



(** C5 at the indices 9 and -1, from the initial state and from the state
    after applying the last preset. *)
Lemma preset_apply_wraps_once_witness :
  -1 <= -1 <= g_preset_count /\
  g_preset_index world_init = 0 /\
  g_preset_index (preset_apply_index sample_env 6 world_init) = g_preset_count - 1 /\
  g_preset_index (preset_apply_index sample_env 9 world_init)
    = (if 9 <? 0 then g_preset_count - 1
       else if g_preset_count <=? 9 then 0 else 9) /\
  g_preset_index (preset_apply_index sample_env (-1) world_init)
    = (-1) mod g_preset_count /\
  (exists w', preset_prev sample_env world_init = Some w' /\
              g_preset_index w' = g_preset_count - 1) /\
  (exists w', preset_next sample_env (preset_apply_index sample_env 6 world_init)
              = Some w' /\ g_preset_index w' = 0).
Proof.
  assert (H1 : -1 <= -1 <= g_preset_count) by (vm_compute; split; discriminate).
  assert (H3 : g_preset_index (preset_apply_index sample_env 6 world_init)
               = g_preset_count - 1) by (vm_compute; reflexivity).
  split; [exact H1|]. split; [reflexivity|]. split; [exact H3|].
  apply (@preset_apply_wraps_once sample_env 9 (-1) world_init world_init
           (preset_apply_index sample_env 6 world_init) H1 eq_refl H3).
Defined.



(** * The binary32 program at concrete cameras *)

Module Binary32Examples.

(** The truncation does cost a pixel at some points. *)
Lemma round_trip_zoomed_camera_truncation :
  let w := screen_to_world zoomed_camera 800 600 8 8 in
  world_to_screen zoomed_camera 800 600 (vx w) (vy w) = Some (mk_POINT 7 8).
Proof. vm_compute. reflexivity. Qed.

(** One wheel step up at the client point (123, 456): the scale becomes
    88, the pans 28 and -15, and the world point under the anchor moves by
    less than one pixel. *)
Lemma zoom_initial_camera :
  handle_zoom_at_cursor (F:=float) g_cam_init 800 600 120 123 456 = Some zoomed_camera /\
  let w0 := screen_to_world (F:=float) g_cam_init 800 600 123 456 in
  let w1 := screen_to_world zoomed_camera 800 600 123 456 in
  F32.ltb (F32.mul (fabsf (F32.sub (vx w1) (vx w0))) (scale zoomed_camera)) (F32.of_Z 1) = true /\
  F32.ltb (F32.mul (fabsf (F32.sub (vy w1) (vy w0))) (scale zoomed_camera)) (F32.of_Z 1) = true.
Proof. vm_compute. repeat split. Qed.

(** Outside the domain of C6: a negative tolerance or a NaN component
    makes a vector differ from itself, and two vectors of length [2 eps]
    in opposite directions are told apart. *)
Lemma vec2_equal_outside_domain :
  vec2_equal (mk_vec2 (F32.of_Z 1) (F32.of_Z 0)) (mk_vec2 (F32.of_Z 1) (F32.of_Z 0))
             (F32.of_Z (-1)) = false /\
  vec2_equal (mk_vec2 S754_nan (F32.of_Z 0)) (mk_vec2 S754_nan (F32.of_Z 0)) EPSILON = false /\
  vec2_equal (mk_vec2 (F32.lit 2 1000000) (F32.of_Z 0))
             (mk_vec2 (F32.lit (-2) 1000000) (F32.of_Z 0)) EPSILON = false.
Proof. vm_compute. repeat split. Qed.

(** After three pushes, clearing the list alone leaves the counter at 3,
    so the next label is "d"; resetting list and labels gives "a". *)
Lemma labels_after_clear :
  let o := mk_vec2 f32_zero f32_zero in
  let w := push_g_vecs (push_g_vecs (push_g_vecs world_init o 0) o 0) o 0 in
  map (fun e => c_str (label e)) (entries (g_vecs w)) = ["a"; "b"; "c"]%string /\
  map (fun e => c_str (label e)) (entries (g_vecs (push_g_vecs (clear_g_vecs w) o 0)))
    = ["d"]%string /\
  map (fun e => c_str (label e)) (entries (g_vecs (push_g_vecs (reset_list_and_labels w) o 0)))
    = ["a"]%string.
Proof. vm_compute. repeat split. Qed.

(** The preset "Basis & Diagonals" leaves six entries labelled a..f,
    whatever the state before. *)
Lemma basis_from_initial_state :
  map (fun e => c_str (label e))
      (entries (g_vecs (preset_apply_index sample_env 1 world_init)))
  = ["a"; "b"; "c"; "d"; "e"; "f"]%string.
Proof. vm_compute. reflexivity. Qed.

(** A short session: create, previous, next, next, a click and a wheel
    step. *)
Lemma session :
  option_map (fun w => (g_preset_index w, g_preset_name w, len (g_vecs w),
                        g_label_counter w, scale (g_cam w)))
    (run_msgs sample_env
       [WM_CREATE; WM_KEYDOWN KEY_1; WM_KEYDOWN KEY_2; WM_KEYDOWN KEY_2;
        WM_LBUTTONDOWN (MAKE_LPARAM 10 20);
        WM_MOUSEWHEEL (Z.shiftl 120 16) (MAKE_LPARAM 200 300) (mk_POINT 50 60)]
       world_init)
  = Some (1, "Basis & Diagonals"%string, 7, 7, F32.of_Z 88).
Proof. vm_compute. reflexivity. Qed.

End Binary32Examples.

(** * Further properties of the code *)

(** ** Order and signs in binary32 *)

Module FloatOrder.

Lemma compare_antisym (x y : float) :
  SFcompare y x = option_map CompOpp (SFcompare x y).
Proof.
  destruct x as [sx|sx| |sx mx ex], y as [sy|sy| |sy my ey]; cbn;
    try reflexivity; try (destruct sx; reflexivity); try (destruct sy; reflexivity);
    try (destruct sx, sy; reflexivity).
  assert (A : Pos.compare_cont Eq my mx = CompOpp (Pos.compare_cont Eq mx my)).
  { rewrite Pos.compare_cont_antisym. reflexivity. }
  destruct sx, sy; cbn; try reflexivity;
    rewrite (Z.compare_antisym ex ey); destruct (ex ?= ey); cbn; try reflexivity;
    rewrite A; destruct (Pos.compare_cont Eq mx my); reflexivity.
Qed.

Lemma compare_refl (x : float) : IEEE.is_nan x = false -> SFcompare x x = Some Eq.
Proof.
  destruct x as [s|s| |s m e]; intros H; try discriminate H; cbn.
  - reflexivity.
  - destruct s; reflexivity.
  - rewrite Z.compare_refl, Pos.compare_cont_refl. destruct s; reflexivity.
Qed.

Lemma compare_nan (x y : float) :
  SFcompare x y = None <-> IEEE.is_nan x = true \/ IEEE.is_nan y = true.
Proof.
  destruct x as [sx|sx| |sx mx ex], y as [sy|sy| |sy my ey]; cbn;
    intuition discriminate.
Qed.

Lemma leb_refl (x : float) : IEEE.is_nan x = false -> F32.leb x x = true.
Proof.
  intros H. unfold F32.leb, SFleb. now rewrite compare_refl.
Qed.

(** Without NaN, [x < y] fails exactly when [y <= x]. *)
Lemma ltb_false_leb (x y : float) :
  IEEE.is_nan x = false -> IEEE.is_nan y = false ->
  F32.ltb x y = false -> F32.leb y x = true.
Proof.
  intros Hx Hy. unfold F32.ltb, F32.leb, SFltb, SFleb.
  rewrite (compare_antisym x y).
  destruct (SFcompare x y) as [[| |]|] eqn:E; cbn; try reflexivity; try discriminate.
  apply compare_nan in E. destruct E; congruence.
Qed.

Lemma ltb_leb (x y : float) : F32.ltb x y = true -> F32.leb x y = true.
Proof.
  unfold F32.ltb, F32.leb, SFltb, SFleb.
  destruct (SFcompare x y) as [[| |]|]; intros H; try discriminate H; reflexivity.
Qed.

Lemma leb_not_nan (x y : float) :
  F32.leb x y = true -> IEEE.is_nan x = false /\ IEEE.is_nan y = false.
Proof.
  destruct x as [sx|sx| |sx mx ex], y as [sy|sy| |sy my ey]; cbn;
    intuition discriminate.
Qed.

End FloatOrder.

(** ** The clamp and the camera invariant *)

Module CameraFacts.

Lemma leb_ltb_false (x y : float) : F32.leb x y = true -> F32.ltb y x = false.
Proof.
  unfold F32.ltb, F32.leb, SFltb, SFleb. rewrite (FloatOrder.compare_antisym x y).
  destruct (SFcompare x y) as [[| |]|]; cbn; intros H; try discriminate H; reflexivity.
Qed.

Lemma clampf_in_range (x a b : float) :
  IEEE.is_nan x = false -> F32.leb a b = true ->
  F32.leb a (clampf x a b) = true /\ F32.leb (clampf x a b) b = true.
Proof.
  intros Hx Hab. destruct (@FloatOrder.leb_not_nan _ _ Hab) as [Ha Hb].
  unfold clampf. cbn [fltb binary32_ops].
  destruct (F32.ltb x a) eqn:E1.
  - split; [apply FloatOrder.leb_refl; exact Ha | exact Hab].
  - destruct (F32.ltb b x) eqn:E2.
    + split; [exact Hab | apply FloatOrder.leb_refl; exact Hb].
    + split; apply FloatOrder.ltb_false_leb; assumption.
Qed.

Lemma clampf_inside (x a b : float) :
  F32.leb a x = true -> F32.leb x b = true -> clampf x a b = x.
Proof.
  intros H1 H2. unfold clampf. cbn [fltb binary32_ops].
  now rewrite (@leb_ltb_false _ _ H1), (@leb_ltb_false _ _ H2).
Qed.

(** A scale in [10, 2000] is a positive finite number. *)
Lemma scale_in_range_finite (s : float) :
  F32.leb (F32.of_Z 10) s = true -> F32.leb s (F32.of_Z 2000) = true ->
  exists m e, s = S754_finite false m e.
Proof.
  destruct s as [sg|sg| |sg m e]; intros H1 H2; try discriminate H1.
  - destruct sg; [discriminate H1 | discriminate H2].
  - destruct sg; [discriminate H1|]. eauto.
Qed.

Lemma zoomFactor_finite (wheelDelta : Z) :
  exists m e, zoomFactor (F:=float) wheelDelta = S754_finite false m e.
Proof.
  unfold zoomFactor. destruct (0 <? wheelDelta); vm_compute; eauto.
Qed.

Lemma zoomed_scale_not_nan (s : float) (wheelDelta : Z) :
  F32.leb (F32.of_Z 10) s = true -> F32.leb s (F32.of_Z 2000) = true ->
  IEEE.is_nan (F32.mul s (zoomFactor wheelDelta)) = false.
Proof.
  intros H1 H2. destruct (@scale_in_range_finite s H1 H2) as (m & e & ->).
  destruct (zoomFactor_finite wheelDelta) as (m' & e' & ->).
  cbn [F32.mul SFmul xorb].
  apply (FloatOrder.leb_not_nan (S754_zero false)).
  apply FloatFacts.binary_round_aux_nonneg. apply Pos2Z.is_nonneg.
Qed.

Lemma zoom_scale (cam cam' : Camera float) (W Hc wheelDelta mx my : Z) :
  handle_zoom_at_cursor cam W Hc wheelDelta mx my = Some cam' ->
  scale cam' = clampf (F32.mul (scale cam) (zoomFactor wheelDelta))
                      (F32.of_Z 10) (F32.of_Z 2000).
Proof.
  unfold handle_zoom_at_cursor.
  destruct (world_to_screen _ _ _ _ _) as [s1|]; [|discriminate]. cbn [obind].
  destruct (int_sub mx (px s1)); [|discriminate]. cbn [obind].
  destruct (int_sub my (py s1)); [|discriminate]. cbn [obind].
  intros E. injection E as <-. reflexivity.
Qed.

Lemma word_range (l : Z) : 0 <= Z.land l 65535 <= 65535.
Proof.
  change (Z.land l 65535) with (Z.land l (Z.ones 16)). rewrite Z.land_ones by lia.
  pose proof (Z.mod_pos_bound l (2 ^ 16) eq_refl). change (2 ^ 16) with 65536 in *. lia.
Qed.

(** The generators write the list, the label counter and the tape
    position only. *)
Lemma scene_only_refl (w : World) : scene_only w w.
Proof. repeat split. Qed.

Lemma scene_only_trans (w1 w2 w3 : World) :
  scene_only w1 w2 -> scene_only w2 w3 -> scene_only w1 w3.
Proof.
  unfold scene_only. intros (A1 & A2 & A3 & A4 & A5 & A6 & A7)
    (B1 & B2 & B3 & B4 & B5 & B6 & B7).
  repeat split; congruence.
Qed.

Lemma push_scene_only (w0 w : World) (value : vec2 float) (col : COLORREF) :
  scene_only w0 w -> scene_only w0 (push_g_vecs w value col).
Proof.
  intros H. eapply scene_only_trans; [exact H|].
  unfold push_g_vecs. destruct (veclist_push _ _ _ _). repeat split.
Qed.

Lemma reset_scene_only (w : World) : scene_only w (reset_list_and_labels w).
Proof. repeat split. Qed.

Lemma generators_scene_only :
  Forall (fun d => forall env w, scene_only w (fn d env w)) g_presets.
Proof.
  unfold g_presets. repeat apply Forall_cons; try apply Forall_nil;
    cbn [fn]; intros env w.
  - apply reset_scene_only.
  - unfold preset_basis, add_vec_col. repeat apply push_scene_only.
    apply reset_scene_only.
  - unfold preset_spokes, add_vec_col.
    apply (PresetFacts.for_loop_inv (scene_only w)); [|apply reset_scene_only].
    intros i w1 H. apply push_scene_only. exact H.
  - unfold preset_random, add_vec_col, rand.
    apply (PresetFacts.for_loop_inv (scene_only w)); [|apply reset_scene_only].
    intros i w1 H. cbv beta iota zeta. apply push_scene_only.
    destruct H as (A1 & A2 & A3 & A4 & A5 & A6 & A7). repeat split; assumption.
  - unfold preset_projection, add_vec_col. repeat apply push_scene_only.
    apply reset_scene_only.
  - unfold preset_reflection, add_vec_col. repeat apply push_scene_only.
    apply reset_scene_only.
  - unfold preset_rotations, add_vec_col.
    apply (PresetFacts.for_loop_inv (scene_only w)); [|apply reset_scene_only].
    intros i w1 H. apply push_scene_only. exact H.
Qed.

Lemma apply_scene_only (env : Env) (idx : Z) (w : World) :
  g_cam (preset_apply_index env idx w) = g_cam w /\
  g_clientW (preset_apply_index env idx w) = g_clientW w /\
  g_clientH (preset_apply_index env idx w) = g_clientH w /\
  g_rightDragging (preset_apply_index env idx w) = g_rightDragging w /\
  g_lastMouse (preset_apply_index env idx w) = g_lastMouse w.
Proof.
  unfold preset_apply_index. change (g_preset_count =? 0) with false. cbv iota.
  set (i := if _ >=? g_preset_count then 0 else _).
  set (w1 := set_preset w i (name (preset_at i))).
  assert (H : scene_only w1 (fn (preset_at (g_preset_index w1)) env w1)).
  { unfold preset_at.
    destruct (nth_in_or_default (Z.to_nat (g_preset_index w1)) g_presets
                (mk_PresetDesc EmptyString (fun _ w => w))) as [Hin | ->].
    - pose proof generators_scene_only as G. rewrite Forall_forall in G.
      apply G. exact Hin.
    - apply scene_only_refl. }
  destruct H as (A1 & A2 & A3 & A4 & A5 & A6 & A7).
  rewrite A1, A2, A3, A6, A7. repeat split.
Qed.

Lemma next_prev_cases (env : Env) (w w' : World) :
  preset_next env w = Some w' \/ preset_prev env w = Some w' ->
  exists idx, w' = preset_apply_index env idx w.
Proof.
  unfold preset_next, preset_prev, int_add, int_sub, int_checked.
  intros [H|H].
  - destruct (in_int _); [|discriminate]. cbn [obind] in H.
    injection H as <-. eauto.
  - destruct (in_int _); [|discriminate]. cbn [obind] in H.
    injection H as <-. eauto.
Qed.

Lemma WndProc_camera_ok (env : Env) (msg : Msg) (w w' : World) :
  camera_ok w -> WndProc env msg w = Some w' -> camera_ok w'.
Proof.
  unfold camera_ok. intros (H1 & H2 & HW & HH).
  assert (Happly : forall idx, camera_ok (preset_apply_index env idx w)).
  { intros idx. unfold camera_ok.
    destruct (apply_scene_only env idx w) as (A1 & A2 & A3 & _).
    rewrite A1, A2, A3. auto. }
  unfold camera_ok in Happly.
  destruct msg; cbn [WndProc].
  - intros E. injection E as <-. apply Happly.
  - intros E. injection E as <-. cbn [g_cam g_clientW g_clientH set_client].
    unfold LOWORD, HIWORD. pose proof (word_range lParam).
    pose proof (word_range (Z.shiftr lParam 16)). auto.
  - intros E. injection E as <-.
    destruct (@push_scene_only w w
                (screen_to_world (g_cam w) (g_clientW w) (g_clientH w)
                   (GET_X_LPARAM lParam) (GET_Y_LPARAM lParam))
                (RGB 80 220 160) (scene_only_refl w)) as (A1 & A2 & A3 & _).
    rewrite A1, A2, A3. auto.
  - intros E. injection E as <-. auto.
  - destruct (g_rightDragging w).
    + destruct (int_sub _ _); [|discriminate]. cbn [obind].
      destruct (int_sub _ _); [|discriminate]. cbn [obind].
      intros E. injection E as <-. auto.
    + intros E. injection E as <-. auto.
  - intros E. injection E as <-. auto.
  - destruct (int_sub _ _) as [sx|]; [|discriminate]. cbn [obind].
    destruct (int_sub _ _) as [sy|]; [|discriminate]. cbn [obind].
    destruct (handle_zoom_at_cursor _ _ _ _ _ _) as [c|] eqn:Ez; [|discriminate].
    cbn [obind]. intros E. injection E as <-.
    cbn [g_cam g_clientW g_clientH set_cam].
    rewrite (@zoom_scale _ _ _ _ _ _ _ Ez).
    destruct (@clampf_in_range (F32.mul (scale (g_cam w))
                                  (zoomFactor (GET_WHEEL_DELTA_WPARAM wParam)))
                (F32.of_Z 10) (F32.of_Z 2000)) as [B1 B2];
      [apply zoomed_scale_not_nan; assumption | reflexivity |].
    auto.
  - destruct (wParam =? VK_DELETE); [intros E; injection E as <-; auto|].
    destruct (wParam =? KEY_R).
    { intros E. injection E as <-. cbn [g_cam g_clientW g_clientH set_cam].
      repeat split; try apply HW; try apply HH. }
    destruct (wParam =? KEY_1).
    { intros E. destruct (@next_prev_cases env w w' (or_intror E)) as (idx & ->).
      apply Happly. }
    destruct (wParam =? KEY_2).
    { intros E. destruct (@next_prev_cases env w w' (or_introl E)) as (idx & ->).
      apply Happly. }
    intros E. injection E as <-. auto.
  - intros E. injection E as <-. auto.
  - intros E. injection E as <-. auto.
  - intros E. injection E as <-. auto.
Qed.

End CameraFacts.

(** X1. In binary32 the clamp returns a number between its bounds whenever
    its argument is not a NaN and the bounds are ordered, it returns the
    argument itself when that lies between the bounds, and it lets a NaN
    through unchanged. *)
Theorem clampf_between_bounds :
  forall x a b y : float,
    IEEE.is_nan x = false -> F32.leb a b = true ->
    F32.leb a y = true -> F32.leb y b = true ->
    F32.leb a (clampf x a b) = true /\
    F32.leb (clampf x a b) b = true /\
    clampf y a b = y /\
    clampf (clampf x a b) a b = clampf x a b /\
    clampf S754_nan a b = S754_nan.
Proof.
  intros x a b y Hx Hab Hy1 Hy2.
  destruct (@CameraFacts.clampf_in_range x a b Hx Hab) as [H1 H2].
  split; [exact H1|]. split; [exact H2|].
  split; [apply CameraFacts.clampf_inside; assumption|].
  split; [apply CameraFacts.clampf_inside; assumption|].
  unfold clampf. cbn [fltb binary32_ops]. destruct a, b; reflexivity.
Qed.

(** X2. Along every run of the window procedure from the initial state,
    the camera scale stays within [10, 2000] (so it is never a NaN, zero
    or infinite) and the client size stays within 16 bits. *)
Theorem camera_stays_in_range :
  forall (env : Env) (msgs : list Msg) (w : World),
    run_msgs env msgs world_init = Some w ->
    F32.leb (F32.of_Z 10) (scale (g_cam w)) = true /\
    F32.leb (scale (g_cam w)) (F32.of_Z 2000) = true /\
    0 <= g_clientW w <= 65535 /\ 0 <= g_clientH w <= 65535.
Proof.
  intros env msgs.
  assert (Hinit : camera_ok world_init).
  { unfold camera_ok. cbn. repeat split; try reflexivity; lia. }
  revert Hinit. generalize world_init.
  induction msgs as [|m rest IH]; intros w0 Hok w; cbn [run_msgs].
  - intros E. injection E as <-. exact Hok.
  - destruct (WndProc env m w0) as [w1|] eqn:E1; [|discriminate]. cbn [obind].
    apply IH. apply (@CameraFacts.WndProc_camera_ok env m _ _ Hok E1).
Qed.

(** ** Message parameters *)

Module WordFacts.

Lemma LOWORD_mod (l : Z) : LOWORD l = l mod 65536.
Proof.
  unfold LOWORD. change 65535 with (Z.ones 16). now rewrite Z.land_ones by lia.
Qed.

Lemma HIWORD_mod (l : Z) : HIWORD l = (l / 65536) mod 65536.
Proof.
  unfold HIWORD. change 65535 with (Z.ones 16). rewrite Z.land_ones by lia.
  now rewrite Z.shiftr_div_pow2 by lia.
Qed.

Lemma short_of_word_range (w : Z) :
  0 <= w < 65536 -> -32768 <= short_of_word w <= 32767.
Proof.
  intros H. unfold short_of_word. destruct (w <? 32768) eqn:E.
  - apply Z.ltb_lt in E. lia.
  - apply Z.ltb_ge in E. lia.
Qed.

Lemma short_of_word_mod (x : Z) :
  -32768 <= x <= 32767 -> short_of_word (x mod 65536) = x.
Proof.
  intros H. unfold short_of_word.
  destruct (x mod 65536 <? 32768) eqn:E;
    [apply Z.ltb_lt in E | apply Z.ltb_ge in E];
    Z.to_euclidean_division_equations; lia.
Qed.

End WordFacts.

(** X3. [GET_X_LPARAM], [GET_Y_LPARAM] and [GET_WHEEL_DELTA_WPARAM] read
    signed 16-bit numbers: their results lie in [-32768, 32767] for every
    parameter, and for a parameter that packs the two's complement of [x]
    in bits 0-15 and of [y] in bits 16-31 (whatever lies above) they
    return [x] and [y], negative values included. *)
Theorem lparam_signed_coordinates :
  forall x y rest lp : Z,
    -32768 <= x <= 32767 -> -32768 <= y <= 32767 ->
    let packed := x mod 65536 + 65536 * (y mod 65536) + 4294967296 * rest in
    GET_X_LPARAM packed = x /\
    GET_Y_LPARAM packed = y /\
    GET_WHEEL_DELTA_WPARAM packed = y /\
    -32768 <= GET_X_LPARAM lp <= 32767 /\
    -32768 <= GET_Y_LPARAM lp <= 32767 /\
    -32768 <= GET_WHEEL_DELTA_WPARAM lp <= 32767.
Proof.
  intros x y rest lp Hx Hy packed.
  assert (Hlo : LOWORD packed = x mod 65536).
  { rewrite WordFacts.LOWORD_mod. subst packed.
    Z.to_euclidean_division_equations. lia. }
  assert (Hhi : HIWORD packed = y mod 65536).
  { rewrite WordFacts.HIWORD_mod. subst packed.
    Z.to_euclidean_division_equations. lia. }
  unfold GET_X_LPARAM, GET_Y_LPARAM, GET_WHEEL_DELTA_WPARAM.
  rewrite Hlo, Hhi, !WordFacts.short_of_word_mod by assumption.
  repeat split; try apply WordFacts.short_of_word_range;
    rewrite ?WordFacts.LOWORD_mod, ?WordFacts.HIWORD_mod;
    try apply Z.mod_pos_bound; try lia.
Qed.

(** ** The grid step and its target *)

Module StepFacts.
Local Open Scope Q_scope.

Lemma pow10_Q_pos (k : Z) : 0 < Decade.pow10_Q k.
Proof.
  rewrite DecadeFacts.pow10_Q_power. apply Qpower_0_lt. reflexivity.
Qed.

Lemma pow10_Q_succ (k : Z) : Decade.pow10_Q (k + 1) == 10 * Decade.pow10_Q k.
Proof.
  rewrite !DecadeFacts.pow10_Q_power.
  rewrite Qpower_plus by (intros E; discriminate E).
  change ((10 # 1) ^ 1) with (10 # 1). ring.
Qed.

(** The fraction that the ladder looks at lies in [1, 10). *)
Lemma frac_range (t : Q) :
  0 < t ->
  let base := Decade.pow10_Q (Decade.floor_log10_Q t) in
  0 < base /\ 1 <= t / base /\ t / base < 10.
Proof.
  intros Ht base.
  pose proof (DecadeFacts.floor_log10_Q_spec Ht) as [Hlo Hhi].
  rewrite pow10_Q_succ in Hhi. fold base in Hlo, Hhi.
  assert (Hb : 0 < base) by apply pow10_Q_pos.
  split; [exact Hb|]. split.
  - apply Qle_shift_div_l; [exact Hb | lra].
  - apply Qlt_shift_div_r; [exact Hb | lra].
Qed.

(** The step stays close to a positive target. *)
Lemma step_close (t : Q) :
  0 < t ->
  0 < nice_step_for_scale t /\
  (2 # 3) * t < nice_step_for_scale t /\
  nice_step_for_scale t <= (5 # 3) * t.
Proof.
  intros Ht.
  destruct (frac_range Ht) as (Hb & H1 & H10).
  assert (Hpos : Qle_bool t (0 # 1) = false).
  { destruct (Qle_bool t (0 # 1)) eqn:E; [|reflexivity].
    apply Qle_bool_iff in E. lra. }
  unfold nice_step_for_scale.
  cbn [fleb fltb fmul fdiv flit floor_log10 pow10 Exact.ops Decade.exact].
  rewrite Hpos.
  set (base := Decade.pow10_Q (Decade.floor_log10_Q t)) in *.
  set (frac := (t / base)%Q) in *.
  assert (Et : (t == frac * base)%Q) by (unfold frac; field; lra).
  destruct (Exact.ltb frac (3 # 2)) eqn:E1.
  { apply ExactFacts.ltb_lt in E1. rewrite Et. repeat split; nra. }
  apply ExactFacts.ltb_ge in E1.
  destruct (Exact.ltb frac (3 # 1)) eqn:E2.
  { apply ExactFacts.ltb_lt in E2. rewrite Et. repeat split; nra. }
  apply ExactFacts.ltb_ge in E2.
  destruct (Exact.ltb frac (7 # 1)) eqn:E3.
  { apply ExactFacts.ltb_lt in E3. rewrite Et. repeat split; nra. }
  apply ExactFacts.ltb_ge in E3. rewrite Et. repeat split; nra.
Qed.

End StepFacts.

(** X4. On the rationals, the step chosen for a positive target [t] is
    positive and stays close to the target: [2/3 * t < step <= 5/3 * t]. *)
Theorem nice_step_close_to_target :
  forall t : Q,
    (0 < t)%Q ->
    (0 < nice_step_for_scale t)%Q /\
    ((2 # 3) * t < nice_step_for_scale t)%Q /\
    (nice_step_for_scale t <= (5 # 3) * t)%Q.
Proof.
  intros t Ht. apply StepFacts.step_close. exact Ht.
Qed.

(** X24. The spacing of the grid.  [draw_grid_and_axes] takes the step of
    the grid from the target of 80 pixels; on the rationals, for every
    positive scale, the lines are then more than 53 and at most 134
    pixels apart ([160/3 < step * scale <= 400/3]).  In binary64, at the
    initial scale of 80 pixels per unit, the step is exactly 1. *)
Theorem grid_spacing_in_pixels :
  forall s : Q,
    (0 < s)%Q ->
    (0 < grid_step s)%Q /\
    ((160 # 3) < grid_step s * s)%Q /\
    (grid_step s * s <= (400 # 3))%Q /\
    grid_step_64 (scale g_cam_init) = F64.of_Z 1.
Proof.
  intros s Hs. unfold grid_step. cbn [fdiv flit Exact.ops].
  assert (Ht : (0 < (80 # 1) / s)%Q).
  { apply Qlt_shift_div_l; [exact Hs | lra]. }
  destruct (StepFacts.step_close Ht) as (A & B & C).
  set (step := nice_step_for_scale ((80 # 1) / s)%Q) in *.
  assert (E : ((80 # 1) / s * s == 80 # 1)%Q) by (field; lra).
  split; [exact A|]. split; [|split].
  - apply Qmult_lt_r with (z := s) in B; [|exact Hs]. lra.
  - apply Qmult_le_r with (z := s) in C; [|exact Hs]. lra.
  - vm_compute. reflexivity.
Qed.

(** ** Labels: the buffer and uniqueness *)

Module LabelMore.

(** [k] letters suffice exactly for the numbers up to [bij26_max k]. *)
Lemma label_loop_length (k : nat) :
  forall (fuel : nat) (x : Z),
    x <= bij26_max k -> (List.length (label_loop fuel x []) <= k)%nat.
Proof.
  induction k as [|k IH]; intros fuel x Hx.
  - cbn [bij26_max] in Hx. rewrite LabelFacts.label_loop_stop by lia. cbn. lia.
  - destruct fuel as [|f]; [cbn; lia|].
    destruct (Z_lt_le_dec 0 x) as [Hp|Hp].
    + rewrite LabelFacts.label_loop_step by assumption. cbn [List.length].
      apply le_n_S. apply IH. cbn [bij26_max] in Hx.
      apply Z.lt_succ_r. apply Z.div_lt_upper_bound; lia.
    + rewrite LabelFacts.label_loop_stop by assumption. cbn. lia.
Qed.

Lemma string_of_list_inj (l1 l2 : list ascii) :
  string_of_list_ascii l1 = string_of_list_ascii l2 -> l1 = l2.
Proof.
  intros H. rewrite <- (list_ascii_of_string_of_list_ascii l1).
  rewrite H. apply list_ascii_of_string_of_list_ascii.
Qed.

Lemma short_label (idx : Z) :
  0 <= idx < bij26_max 7 ->
  label_string idx = string_of_list_ascii (rev (label_digits idx)).
Proof.
  intros H. unfold label_string. f_equal. apply firstn_all2.
  rewrite length_rev. unfold label_digits, size_wrap.
  assert (bij26_max 7 < SIZE_MOD) by (vm_compute; reflexivity).
  rewrite Z.mod_small by lia. apply label_loop_length. lia.
Qed.

Lemma label_string_inj (i j : Z) :
  0 <= i < bij26_max 7 -> 0 <= j < bij26_max 7 ->
  label_string i = label_string j -> i = j.
Proof.
  intros Hi Hj E. rewrite !short_label in E by assumption.
  apply string_of_list_inj in E.
  assert (Ed : label_digits i = label_digits j).
  { rewrite <- (rev_involutive (label_digits i)), E. apply rev_involutive. }
  assert (Hm : bij26_max 7 < SIZE_MOD) by (vm_compute; reflexivity).
  assert (Hf : SIZE_MOD < 26 ^ Z.of_nat 32) by (vm_compute; reflexivity).
  assert (Vi : bij26_value (label_digits i) = i + 1).
  { unfold label_digits, size_wrap. rewrite Z.mod_small by lia.
    apply LabelFacts.label_loop_value. lia. }
  assert (Vj : bij26_value (label_digits j) = j + 1).
  { unfold label_digits, size_wrap. rewrite Z.mod_small by lia.
    apply LabelFacts.label_loop_value. lia. }
  rewrite Ed in Vi. lia.
Qed.

End LabelMore.

(** X5. [make_label] stays inside its buffer: for every size [outsz]
    from 1 to the length of the buffer, the buffer keeps its length, the
    bytes from position [outsz] on are untouched, and the string read back
    is shorter than [outsz], so its terminator lies within the first
    [outsz] bytes.  With [outsz = 0] nothing is written. *)
Theorem make_label_stays_in_buffer :
  forall (idx outsz : Z) (out : list ascii) (i : nat) (d : ascii),
    0 < outsz <= Z.of_nat (List.length out) ->
    (Z.to_nat outsz <= i)%nat ->
    List.length (make_label idx out outsz) = List.length out /\
    nth i (make_label idx out outsz) d = nth i out d /\
    Z.of_nat (String.length (c_str (make_label idx out outsz))) < outsz /\
    make_label idx out 0 = out.
Proof.
  intros idx outsz out i d Hsz Hi.
  rewrite LabelFacts.make_label_buffer by lia. cbv zeta.
  set (full := rev (label_digits idx)). set (m := Nat.min _ _).
  assert (Hm : (m < Z.to_nat outsz)%nat) by (subst m; lia).
  assert (Hl : List.length (firstn m full) = m).
  { apply firstn_length_le. subst m. lia. }
  split; [|split; [|split; [|reflexivity]]].
  - rewrite length_app, Hl. cbn [List.length]. rewrite length_skipn. lia.
  - rewrite app_nth2 by lia. rewrite Hl.
    replace (i - m)%nat with (S (i - S m)) by lia. cbn [nth].
    rewrite nth_skipn. f_equal. lia.
  - rewrite LabelFacts.c_str_terminated
      by (apply LabelFacts.firstn_lower, LabelFacts.full_label_lower).
    rewrite LabelFacts.string_length_of_list, Hl. lia.
Qed.

(** X6. Labels are unique as long as they fit: the indices below
    8353082582 (all the labels of at most 7 letters) get pairwise
    different labels, none of them truncated.  The bound is tight: index
    8353082582, the first one with 8 letters, is shown with the label of
    index 321272406. *)
Theorem labels_unique_up_to_seven_letters :
  forall (i j : Z) (buf1 buf2 : list ascii),
    List.length buf1 = 8%nat -> List.length buf2 = 8%nat ->
    0 <= i < 8353082582 -> 0 <= j < 8353082582 ->
    (c_str (make_label i buf1 LABEL_SIZE) = c_str (make_label j buf2 LABEL_SIZE) -> i = j) /\
    c_str (make_label i buf1 LABEL_SIZE) = string_of_list_ascii (rev (label_digits i)) /\
    c_str (make_label 8353082582 buf1 LABEL_SIZE)
    = c_str (make_label 321272406 buf2 LABEL_SIZE).
Proof.
  intros i j buf1 buf2 H1 H2 Hi Hj.
  rewrite !LabelFacts.make_label_c_str by assumption.
  change 8353082582 with (bij26_max 7) in Hi, Hj.
  split; [|split].
  - apply LabelMore.label_string_inj; assumption.
  - apply LabelMore.short_label. assumption.
  - vm_compute. reflexivity.
Qed.

(** C3. The label generator is bijective base 26 over 0-based indices,
    most significant letter first.  Read back from an 8-byte buffer, the
    labels of 0, 25, 26, 701 and 702 are "a", "z", "aa", "zz" and "aaa",
    and those of 27, 51, 52 and 703 are "ab", "az", "ba" and "aab".  For
    every index below [SIZE_MAX] the letters written by the loop are
    lower-case and denote [idx + 1] in bijective base 26, and the label is
    made of the first 7 of them, the most significant first.  For every
    index below 8353082582 (a label of at most 7 letters) the label is
    the whole representation, and read as a number in bijective base 26
    it is [idx + 1]. *)
Theorem label_sequence :
  forall (buf : list ascii) (idx short : Z),
    List.length buf = 8%nat ->
    0 <= idx < SIZE_MOD - 1 ->
    0 <= short < 8353082582 ->
    (c_str (make_label 0 buf LABEL_SIZE) = "a"%string /\
     c_str (make_label 25 buf LABEL_SIZE) = "z"%string /\
     c_str (make_label 26 buf LABEL_SIZE) = "aa"%string /\
     c_str (make_label 701 buf LABEL_SIZE) = "zz"%string /\
     c_str (make_label 702 buf LABEL_SIZE) = "aaa"%string) /\
    (c_str (make_label 27 buf LABEL_SIZE) = "ab"%string /\
     c_str (make_label 51 buf LABEL_SIZE) = "az"%string /\
     c_str (make_label 52 buf LABEL_SIZE) = "ba"%string /\
     c_str (make_label 703 buf LABEL_SIZE) = "aab"%string) /\
    bij26_value (label_digits idx) = idx + 1 /\
    Forall (fun c => is_lower c = true) (label_digits idx) /\
    c_str (make_label idx buf LABEL_SIZE)
    = string_of_list_ascii (firstn 7 (rev (label_digits idx))) /\
    c_str (make_label short buf LABEL_SIZE)
    = string_of_list_ascii (rev (label_digits short)) /\
    bij26_value (rev (list_ascii_of_string (c_str (make_label short buf LABEL_SIZE))))
    = short + 1.
Proof.
  intros buf idx short Hb Hidx Hshort.
  assert (Hf : SIZE_MOD < 26 ^ Z.of_nat 32) by (vm_compute; reflexivity).
  assert (Hm : bij26_max 7 < SIZE_MOD) by (vm_compute; reflexivity).
  assert (V : forall i, 0 <= i < SIZE_MOD - 1 -> bij26_value (label_digits i) = i + 1).
  { intros i Hi. unfold label_digits, size_wrap. rewrite Z.mod_small by lia.
    apply LabelFacts.label_loop_value. lia. }
  change 8353082582 with (bij26_max 7) in Hshort.
  assert (S : c_str (make_label short buf LABEL_SIZE)
              = string_of_list_ascii (rev (label_digits short))).
  { rewrite LabelFacts.make_label_c_str by exact Hb.
    apply (@LabelMore.short_label short Hshort). }
  split; [|split; [|split; [|split; [|split; [|split]]]]].
  - rewrite !LabelFacts.make_label_c_str by assumption.
    repeat split; vm_compute; reflexivity.
  - rewrite !LabelFacts.make_label_c_str by assumption.
    repeat split; vm_compute; reflexivity.
  - apply V. exact Hidx.
  - apply LabelFacts.label_loop_lower.
  - apply LabelFacts.make_label_c_str. exact Hb.
  - exact S.
  - rewrite S, list_ascii_of_string_of_list_ascii, rev_involutive. apply V. lia.
Qed.

(** ** The vector list: growth and appending *)

Module SceneFacts.

Lemma firstn_store_end {A : Type} (l : list A) :
  forall (n : nat) (e : A), (n < List.length l)%nat ->
    firstn (S n) (store l n e) = firstn n l ++ [e].
Proof.
  induction l as [|a r IH]; intros n e H; [cbn in H; lia|].
  destruct n as [|n]; [reflexivity|].
  cbn [store]. rewrite !firstn_cons. cbn [app]. f_equal.
  apply IH. cbn in H. lia.
Qed.

(** What [veclist_reserve] does when it has to grow. *)
Lemma reserve_grows (l : VecList) (want : Z) :
  VecList_wf l -> cap l < want ->
  let c0 := if cap l =? 0 then 16 else size_wrap (cap l * 2) in
  let c1 := if c0 <? want then want else c0 in
  veclist_reserve l want
  = mk_VecList (data l ++ repeat VEntry_blank (Z.to_nat (c1 - cap l))) (len l) c1
  /\ want <= c1.
Proof.
  intros (Hlen & Hcap & Hlab) Hwant c0 c1. unfold veclist_reserve.
  destruct (want <=? cap l) eqn:E; [apply Z.leb_le in E; lia|].
  fold c0. fold c1.
  assert (H1 : want <= c1).
  { unfold c1. destruct (c0 <? want) eqn:E1;
      [apply Z.ltb_lt in E1 | apply Z.ltb_ge in E1]; lia. }
  split; [|exact H1].
  rewrite firstn_all2 by lia. do 3 f_equal. lia.
Qed.

Lemma reserve_any (l : VecList) (want : Z) :
  VecList_wf l ->
  VecList_wf (veclist_reserve l want) /\
  len (veclist_reserve l want) = len l /\
  entries (veclist_reserve l want) = entries l /\
  cap l <= cap (veclist_reserve l want) /\
  want <= cap (veclist_reserve l want).
Proof.
  intros Hwf. destruct (Z_le_gt_dec want (cap l)) as [Hle|Hgt].
  - unfold veclist_reserve. apply Z.leb_le in Hle. rewrite Hle.
    apply Z.leb_le in Hle. repeat split; try apply Hwf; try lia.
  - destruct (@reserve_grows l want Hwf ltac:(lia)) as [E Hc].
    cbv zeta in E, Hc. rewrite E. destruct Hwf as (Hlen & Hcap & Hlab).
    set (c1 := if _ <? want then want else _) in *.
    unfold VecList_wf, entries. cbn [len cap data].
    split; [split; [lia|split]|split; [reflexivity|split; [|split; lia]]].
    + rewrite length_app, repeat_length. lia.
    + apply Forall_app. split; [exact Hlab|].
      apply Forall_forall. intros e He. apply repeat_spec in He. subst.
      reflexivity.
    + rewrite firstn_app.
      replace (Z.to_nat (len l) - List.length (data l))%nat with 0%nat by lia.
      cbn [firstn]. apply app_nil_r.
Qed.

(** [veclist_push] on a well-formed list whose length is not the largest
    [size_t]: the new entry goes after the entries in use. *)
Lemma push_entries (l : VecList) (counter : Z) (value : vec2 float) (col : COLORREF) :
  VecList_wf l -> len l < SIZE_MOD - 1 ->
  let r := veclist_push l counter value col in
  VecList_wf (fst r) /\
  len (fst r) = len l + 1 /\
  snd r = size_wrap (counter + 1) /\
  cap l <= cap (fst r) /\
  (len l < cap l -> cap (fst r) = cap l) /\
  exists lab : list ascii,
    List.length lab = 8%nat /\
    c_str lab = label_string counter /\
    entries (fst r) = entries l ++ [mk_VEntry value col lab].
Proof.
  intros Hwf Hsmall r. subst r. unfold veclist_push.
  assert (Hw : size_wrap (len l + 1) = len l + 1).
  { destruct Hwf as (Hlen & _). unfold size_wrap. rewrite Z.mod_small; [reflexivity|].
    unfold SIZE_MOD in *. lia. }
  rewrite Hw.
  set (l1 := if cap l <? len l + 1 then veclist_reserve l (len l + 1) else l).
  assert (H1 : VecList_wf l1 /\ len l1 = len l /\ entries l1 = entries l /\
               cap l <= cap l1 /\ len l + 1 <= cap l1 /\ (len l < cap l -> l1 = l)).
  { unfold l1. destruct (cap l <? len l + 1) eqn:E.
    - apply Z.ltb_lt in E.
      destruct (@reserve_any l (len l + 1) Hwf) as (A & B & C & D & F).
      split; [exact A|]. split; [exact B|]. split; [exact C|].
      split; [exact D|]. split; [exact F|]. intros; lia.
    - apply Z.ltb_ge in E.
      split; [exact Hwf|]. split; [reflexivity|]. split; [reflexivity|].
      split; [lia|]. split; [lia|]. reflexivity. }
  destruct H1 as ((Hlen1 & Hcap1 & Hlab1) & Hl1 & He1 & Hc1 & Hroom & Hsame).
  cbn [fst snd len cap data]. rewrite Hl1, Hw.
  assert (Hi : (Z.to_nat (len l) < List.length (data l1))%nat) by lia.
  assert (Hold : List.length (label (nth (Z.to_nat (len l)) (data l1) VEntry_blank)) = 8%nat).
  { rewrite Forall_forall in Hlab1. apply Hlab1. apply nth_In. exact Hi. }
  pose proof (@LabelFacts.make_label_shape counter _ Hold) as (S1 & S2 & _).
  split; [|split; [reflexivity|split; [reflexivity|split; [exact Hc1|split]]]].
  - unfold VecList_wf. cbn [len cap data]. split; [lia|]. split.
    + rewrite LabelFacts.store_length. exact Hcap1.
    + apply VecListFacts.store_Forall; [exact Hlab1|]. cbn [label]. exact S1.
  - intros Hlt. rewrite (Hsame Hlt). reflexivity.
  - eexists. split; [exact S1|]. split; [exact S2|].
    unfold entries in *. cbn [len data]. rewrite Hl1 in He1.
    replace (Z.to_nat (len l + 1)) with (S (Z.to_nat (len l))) by lia.
    rewrite firstn_store_end by exact Hi. rewrite He1. reflexivity.
Qed.

End SceneFacts.

(** X7. [veclist_reserve] on a well-formed list: the result is well
    formed, the length and the entries in use are kept, and the capacity
    does not shrink and reaches [want], also when doubling the capacity
    wraps around.  With enough room the capacity is kept; otherwise it
    becomes the larger of [want] and the doubled capacity (16 for an
    empty allocation); the new slots come after the old ones. *)
Theorem veclist_reserve_keeps_entries :
  forall (l : VecList) (want : Z),
    VecList_wf l ->
    let r := veclist_reserve l want in
    VecList_wf r /\
    len r = len l /\
    entries r = entries l /\
    Z.max (cap l) want <= cap r /\
    cap r = (if want <=? cap l then cap l
             else Z.max want (if cap l =? 0 then 16 else size_wrap (cap l * 2))) /\
    data r = data l ++ repeat VEntry_blank (Z.to_nat (cap r - cap l)).
Proof.
  intros l want Hwf r. subst r.
  destruct (@SceneFacts.reserve_any l want Hwf) as (A & B & C & D & E).
  split; [exact A|]. split; [exact B|]. split; [exact C|]. split; [lia|].
  destruct (want <=? cap l) eqn:Hle.
  - unfold veclist_reserve. rewrite Hle. split; [reflexivity|].
    rewrite Z.sub_diag. cbn [Z.to_nat repeat]. symmetry. apply app_nil_r.
  - apply Z.leb_gt in Hle.
    destruct (@SceneFacts.reserve_grows l want Hwf Hle) as [E1 _].
    cbv zeta in E1. rewrite E1. cbn [cap data]. split; [|reflexivity].
    set (c0 := if cap l =? 0 then 16 else size_wrap (cap l * 2)).
    destruct (c0 <? want) eqn:E2;
      [apply Z.ltb_lt in E2 | apply Z.ltb_ge in E2]; lia.
Qed.

(** X8. [veclist_push] appends: on a well-formed list whose length is not
    the largest [size_t], the entries in use after the push are the
    entries before it followed by the new one, whose 8 label bytes read
    as the label of the counter; the list stays well formed, the length
    and the counter go up by one, and the capacity does not shrink. *)
Theorem veclist_push_appends :
  forall (l : VecList) (counter : Z) (value : vec2 float) (col : COLORREF),
    VecList_wf l -> len l < SIZE_MOD - 1 ->
    let r := veclist_push l counter value col in
    VecList_wf (fst r) /\
    len (fst r) = len l + 1 /\
    snd r = size_wrap (counter + 1) /\
    cap l <= cap (fst r) /\
    exists lab : list ascii,
      List.length lab = 8%nat /\
      c_str lab = string_of_list_ascii (firstn 7 (rev (label_digits counter))) /\
      entries (fst r) = entries l ++ [mk_VEntry value col lab].
Proof.
  intros l counter value col Hwf Hsmall.
  destruct (@SceneFacts.push_entries l counter value col Hwf Hsmall)
    as (A & B & C & D & _ & E).
  cbv zeta. split; [exact A|]. split; [exact B|]. split; [exact C|].
  split; [exact D|exact E].
Qed.

(** ** The scene along a run *)

Module RunFacts.

Lemma reset_scene (w : World) :
  VecList_wf (g_vecs w) ->
  scene_ok (reset_list_and_labels w) /\ len (g_vecs (reset_list_and_labels w)) = 0.
Proof.
  intros (Hlen & Hcap & Hlab). split; [|reflexivity].
  unfold scene_ok, VecList_wf, labelled_in_order, entries.
  cbn [reset_list_and_labels clear_g_vecs set_label_counter set_vecs g_vecs
       g_label_counter veclist_clear len cap data].
  split; [split; [lia|split; assumption]|split; reflexivity].
Qed.

Lemma push_scene (w : World) (value : vec2 float) (col : COLORREF) (k : Z) :
  scene_ok w /\ len (g_vecs w) = k -> k < SIZE_MOD - 1 ->
  scene_ok (push_g_vecs w value col) /\ len (g_vecs (push_g_vecs w value col)) = k + 1.
Proof.
  intros ((Hwf & Hc & Hlab) & Hk) Hsmall. subst k.
  destruct (@SceneFacts.push_entries (g_vecs w) (g_label_counter w) value col Hwf Hsmall)
    as (A & B & C & _ & _ & lab & L1 & L2 & L3).
  unfold push_g_vecs.
  destruct (veclist_push (g_vecs w) (g_label_counter w) value col) as [l c].
  cbn [fst snd] in *.
  unfold scene_ok.
  cbn [set_label_counter set_vecs g_vecs g_label_counter].
  assert (Hlen : 0 <= len (g_vecs w)) by apply Hwf.
  split; [|exact B]. split; [exact A|]. split.
  - rewrite C, B, Hc. unfold size_wrap. apply Z.mod_small.
    unfold SIZE_MOD in *. lia.
  - unfold labelled_in_order in *. rewrite L3, B, map_app, Hlab.
    replace (Z.to_nat (len (g_vecs w) + 1)) with (S (Z.to_nat (len (g_vecs w)))) by lia.
    rewrite seq_S, map_app. cbn [map label Nat.add]. rewrite L2, Hc.
    rewrite Z2Nat.id by exact Hlen. reflexivity.
Qed.

Lemma add_scene (x y : float) (c : COLORREF) (w : World) (k : Z) :
  scene_ok w /\ len (g_vecs w) = k -> k < SIZE_MOD - 1 ->
  scene_ok (add_vec_col x y c w) /\ len (g_vecs (add_vec_col x y c w)) = k + 1.
Proof. apply push_scene. Qed.

Lemma for_loop_scene (body : Z -> World -> World) :
  (forall i w k, scene_ok w /\ len (g_vecs w) = k -> k < SIZE_MOD - 1 ->
                 scene_ok (body i w) /\ len (g_vecs (body i w)) = k + 1) ->
  forall (n : nat) (i : Z) (w : World) (k : Z),
    scene_ok w /\ len (g_vecs w) = k -> k + Z.of_nat n < SIZE_MOD ->
    scene_ok (for_loop n i body w)
    /\ len (g_vecs (for_loop n i body w)) = k + Z.of_nat n.
Proof.
  intros Hb. induction n as [|n IH]; intros i w k H Hs; cbn [for_loop].
  - rewrite Z.add_0_r. exact H.
  - replace (k + Z.of_nat (S n)) with ((k + 1) + Z.of_nat n) by lia.
    apply IH; [|lia]. apply Hb; [exact H | lia].
Qed.

Lemma generators_scene :
  Forall (fun d => forall env w,
            VecList_wf (g_vecs w) ->
            scene_ok (fn d env w) /\ len (g_vecs (fn d env w)) <= 40) g_presets.
Proof.
  assert (S0 : 0 < SIZE_MOD - 1) by (unfold SIZE_MOD; lia).
  unfold g_presets. repeat apply Forall_cons; try apply Forall_nil;
    cbn [fn]; intros env w Hwf.
  - destruct (reset_scene w Hwf) as [A B]. split; [exact A|].
    unfold preset_empty. lia.
  - assert (H : scene_ok (preset_basis env w)
                /\ len (g_vecs (preset_basis env w)) = 0 + 1 + 1 + 1 + 1 + 1 + 1).
    { unfold preset_basis.
      repeat (apply add_scene; [|unfold SIZE_MOD; lia]).
      apply reset_scene, Hwf. }
    destruct H as [A B]. split; [exact A | lia].
  - assert (H : scene_ok (preset_spokes env w)
                /\ len (g_vecs (preset_spokes env w)) = 0 + Z.of_nat 16).
    { unfold preset_spokes. apply for_loop_scene.
      - intros i w1 k H Hk. apply add_scene; assumption.
      - apply reset_scene, Hwf.
      - unfold SIZE_MOD; lia. }
    destruct H as [A B]. split; [exact A | lia].
  - assert (H : scene_ok (preset_random env w)
                /\ len (g_vecs (preset_random env w)) = 0 + Z.of_nat 40).
    { unfold preset_random. apply for_loop_scene.
      - intros i w1 k H Hk. unfold rand. cbv beta iota zeta.
        apply add_scene; [|exact Hk]. exact H.
      - apply reset_scene, Hwf.
      - unfold SIZE_MOD; lia. }
    destruct H as [A B]. split; [exact A | lia].
  - assert (H : scene_ok (preset_projection env w)
                /\ len (g_vecs (preset_projection env w)) = 0 + 1 + 1 + 1).
    { unfold preset_projection. cbv zeta.
      repeat (apply add_scene; [|unfold SIZE_MOD; lia]).
      apply reset_scene, Hwf. }
    destruct H as [A B]. split; [exact A | lia].
  - assert (H : scene_ok (preset_reflection env w)
                /\ len (g_vecs (preset_reflection env w)) = 0 + 1 + 1 + 1).
    { unfold preset_reflection. cbv zeta.
      repeat (apply add_scene; [|unfold SIZE_MOD; lia]).
      apply reset_scene, Hwf. }
    destruct H as [A B]. split; [exact A | lia].
  - assert (H : scene_ok (preset_rotations env w)
                /\ len (g_vecs (preset_rotations env w)) = 0 + Z.of_nat 12).
    { unfold preset_rotations. apply for_loop_scene.
      - intros i w1 k H Hk. apply add_scene; assumption.
      - apply reset_scene, Hwf.
      - unfold SIZE_MOD; lia. }
    destruct H as [A B]. split; [exact A | lia].
Qed.

Lemma apply_index_unfold (env : Env) (idx : Z) (w : World) :
  preset_apply_index env idx w
  = fn (preset_at (wrapped idx)) env
       (set_preset w (wrapped idx) (name (preset_at (wrapped idx)))).
Proof.
  unfold preset_apply_index. change (g_preset_count =? 0) with false. cbv iota.
  set (i1 := if idx <? 0 then g_preset_count - 1 else idx).
  assert (Hi : (if i1 >=? g_preset_count then 0 else i1) = wrapped idx).
  { unfold wrapped, i1. change g_preset_count with 7.
    rewrite !Z.geb_leb.
    destruct (idx <? 0) eqn:E1; [reflexivity|].
    destruct (7 <=? idx); reflexivity. }
  rewrite Hi. reflexivity.
Qed.

Lemma preset_at_In (idx : Z) : In (preset_at (wrapped idx)) g_presets.
Proof.
  unfold preset_at. apply nth_In.
  pose proof (PresetFacts.wrapped_range idx) as H.
  change g_preset_count with 7 in H. change (List.length g_presets) with 7%nat. lia.
Qed.

Lemma apply_scene (env : Env) (idx : Z) (w : World) :
  VecList_wf (g_vecs w) ->
  scene_ok (preset_apply_index env idx w)
  /\ len (g_vecs (preset_apply_index env idx w)) <= 40.
Proof.
  intros Hwf. rewrite apply_index_unfold.
  pose proof generators_scene as G. rewrite Forall_forall in G.
  apply (G _ (preset_at_In idx)). exact Hwf.
Qed.

Lemma WndProc_scene (env : Env) (msg : Msg) (w w' : World) (B : Z) :
  scene_ok w -> len (g_vecs w) <= B -> 40 <= B -> B < SIZE_MOD - 1 ->
  is_destroy msg = false ->
  WndProc env msg w = Some w' ->
  scene_ok w' /\ len (g_vecs w') <= B + 1.
Proof.
  intros Hok HB H40 Hs Hd.
  assert (Hwf : VecList_wf (g_vecs w)) by apply Hok.
  assert (Hsame : scene_ok w /\ len (g_vecs w) <= B + 1) by (split; [exact Hok|lia]).
  assert (Happ : forall idx, scene_ok (preset_apply_index env idx w)
                             /\ len (g_vecs (preset_apply_index env idx w)) <= B + 1).
  { intros idx. destruct (@apply_scene env idx w Hwf) as [A C]. split; [exact A|lia]. }
  destruct msg; cbn [WndProc]; try discriminate Hd.
  - intros E. injection E as <-. apply Happ.
  - intros E. injection E as <-. exact Hsame.
  - intros E. injection E as <-.
    destruct (@push_scene w (screen_to_world (g_cam w) (g_clientW w) (g_clientH w)
                               (GET_X_LPARAM lParam) (GET_Y_LPARAM lParam))
                (RGB 80 220 160) (len (g_vecs w)) (conj Hok eq_refl) ltac:(lia))
      as [A C].
    split; [exact A|]. cbv zeta. lia.
  - intros E. injection E as <-. exact Hsame.
  - destruct (g_rightDragging w).
    + destruct (int_sub _ _); [|discriminate]. cbn [obind].
      destruct (int_sub _ _); [|discriminate]. cbn [obind].
      intros E. injection E as <-. exact Hsame.
    + intros E. injection E as <-. exact Hsame.
  - intros E. injection E as <-. exact Hsame.
  - destruct (int_sub _ _); [|discriminate]. cbn [obind].
    destruct (int_sub _ _); [|discriminate]. cbn [obind].
    destruct (handle_zoom_at_cursor _ _ _ _ _ _); [|discriminate]. cbn [obind].
    intros E. injection E as <-. exact Hsame.
  - destruct (wParam =? VK_DELETE).
    { intros E. injection E as <-.
      destruct (reset_scene w Hwf) as [A C]. split; [exact A|].
      unfold reset_list_and_labels in C. lia. }
    destruct (wParam =? KEY_R); [intros E; injection E as <-; exact Hsame|].
    destruct (wParam =? KEY_1).
    { unfold preset_prev. destruct (int_sub _ _); [|discriminate]. cbn [obind].
      intros E. injection E as <-. apply Happ. }
    destruct (wParam =? KEY_2).
    { unfold preset_next. destruct (int_add _ _); [|discriminate]. cbn [obind].
      intros E. injection E as <-. apply Happ. }
    intros E. injection E as <-. exact Hsame.
  - intros E. injection E as <-. exact Hsame.
  - intros E. injection E as <-. exact Hsame.
Qed.

Lemma run_scene (env : Env) (msgs : list Msg) :
  forall (w w' : World) (B : Z),
    scene_ok w -> len (g_vecs w) <= B -> 40 <= B ->
    B + Z.of_nat (List.length msgs) < SIZE_MOD - 1 ->
    forallb (fun m => negb (is_destroy m)) msgs = true ->
    run_msgs env msgs w = Some w' ->
    scene_ok w' /\ len (g_vecs w') <= B + Z.of_nat (List.length msgs).
Proof.
  induction msgs as [|m rest IH]; intros w w' B Hok HB H40 Hs Hd; cbn [run_msgs].
  - intros E. injection E as <-. split; [exact Hok|]. cbn [List.length]. lia.
  - cbn [forallb] in Hd. apply andb_true_iff in Hd. destruct Hd as [Hm Hr].
    apply negb_true_iff in Hm. cbn [List.length] in *.
    destruct (WndProc env m w) as [w1|] eqn:E1; [|discriminate]. cbn [obind].
    intros E2.
    destruct (@WndProc_scene env m w w1 B Hok HB H40 ltac:(lia) Hm E1) as [A C].
    destruct (IH w1 w' (B + 1) A C ltac:(lia) ltac:(lia) Hr E2) as [A2 C2].
    split; [exact A2 | lia].
Qed.

Lemma init_scene : scene_ok world_init.
Proof.
  split; [apply VecListFacts.init_wf|]. split; reflexivity.
Qed.

Lemma run_ops_app (env : Env) (a b : list PresetOp) :
  forall w : World,
    run_ops env (a ++ b) w = (w1 <- run_ops env a w ;; run_ops env b w1).
Proof.
  induction a as [|op a IH]; intros w; cbn [app run_ops]; [reflexivity|].
  destruct (run_op env op w) as [w1|]; cbn [obind]; [apply IH | reflexivity].
Qed.

Lemma next_index (env : Env) (w : World) :
  0 <= g_preset_index w <= 6 ->
  exists w', preset_next env w = Some w' /\
             g_preset_index w' = (g_preset_index w + 1) mod 7 /\ preset_ok w'.
Proof.
  intros Hr. unfold preset_next, int_add.
  rewrite int_checked_in by (unfold INT_MIN, INT_MAX; lia). cbn [obind].
  eexists. split; [reflexivity|]. split; [|apply PresetFacts.apply_ok].
  destruct (PresetFacts.apply_index_name env (g_preset_index w + 1) w) as [A _].
  rewrite A. unfold wrapped. change g_preset_count with 7.
  destruct (g_preset_index w + 1 <? 0) eqn:E1; [apply Z.ltb_lt in E1; lia|].
  destruct (7 <=? g_preset_index w + 1) eqn:E2.
  - apply Z.leb_le in E2. replace (g_preset_index w + 1) with 7 by lia. reflexivity.
  - apply Z.leb_gt in E2. symmetry. apply Z.mod_small. lia.
Qed.

Lemma prev_index (env : Env) (w : World) :
  0 <= g_preset_index w <= 6 ->
  exists w', preset_prev env w = Some w' /\
             g_preset_index w' = (g_preset_index w - 1) mod 7 /\ preset_ok w'.
Proof.
  intros Hr. unfold preset_prev, int_sub.
  rewrite int_checked_in by (unfold INT_MIN, INT_MAX; lia). cbn [obind].
  eexists. split; [reflexivity|]. split; [|apply PresetFacts.apply_ok].
  destruct (PresetFacts.apply_index_name env (g_preset_index w - 1) w) as [A _].
  rewrite A. unfold wrapped. change g_preset_count with 7.
  destruct (g_preset_index w - 1 <? 0) eqn:E1.
  - apply Z.ltb_lt in E1. replace (g_preset_index w - 1) with (-1) by lia. reflexivity.
  - apply Z.ltb_ge in E1.
    destruct (7 <=? g_preset_index w - 1) eqn:E2; [apply Z.leb_le in E2; lia|].
    symmetry. apply Z.mod_small. lia.
Qed.

Lemma nexts (env : Env) (n : nat) :
  forall w : World,
    preset_ok w ->
    exists w', run_ops env (repeat op_next n) w = Some w' /\
               g_preset_index w' = (g_preset_index w + Z.of_nat n) mod 7 /\
               preset_ok w'.
Proof.
  induction n as [|n IH]; intros w Hok.
  - exists w. split; [reflexivity|]. split; [|exact Hok].
    destruct Hok as [Hr _]. change g_preset_count with 7 in Hr.
    rewrite Z.add_0_r. symmetry. apply Z.mod_small. lia.
  - assert (Hr : 0 <= g_preset_index w <= 6) by apply Hok.
    destruct (next_index env w Hr) as (w1 & E1 & I1 & O1).
    destruct (IH w1 O1) as (w2 & E2 & I2 & O2).
    exists w2. cbn [repeat run_ops run_op]. rewrite E1. cbn [obind].
    split; [exact E2|]. split; [|exact O2].
    rewrite I2, I1, Z.add_mod_idemp_l by lia. f_equal. lia.
Qed.

Lemma prevs (env : Env) (n : nat) :
  forall w : World,
    preset_ok w ->
    exists w', run_ops env (repeat op_prev n) w = Some w' /\
               g_preset_index w' = (g_preset_index w - Z.of_nat n) mod 7 /\
               preset_ok w'.
Proof.
  induction n as [|n IH]; intros w Hok.
  - exists w. split; [reflexivity|]. split; [|exact Hok].
    destruct Hok as [Hr _]. change g_preset_count with 7 in Hr.
    rewrite Z.sub_0_r. symmetry. apply Z.mod_small. lia.
  - assert (Hr : 0 <= g_preset_index w <= 6) by apply Hok.
    destruct (prev_index env w Hr) as (w1 & E1 & I1 & O1).
    destruct (IH w1 O1) as (w2 & E2 & I2 & O2).
    exists w2. cbn [repeat run_ops run_op]. rewrite E1. cbn [obind].
    split; [exact E2|]. split; [|exact O2].
    rewrite I2, I1, Zminus_mod_idemp_l. f_equal. lia.
Qed.

End RunFacts.

(** X9. The scene invariant.  In every run of the window procedure from
    the initial state that does not contain [WM_DESTROY], the list stays
    well formed, the label counter equals the number of vectors, and the
    vectors carry the labels of 0, 1, 2, ... in this order, as the labels
    are read back from the entries.  (The bound on the length of the run
    keeps the counter below the largest [size_t].) *)
Theorem scene_labelled_in_order :
  forall (env : Env) (msgs : list Msg) (w : World),
    forallb (fun m => negb (is_destroy m)) msgs = true ->
    Z.of_nat (List.length msgs) < 2 ^ 63 ->
    run_msgs env msgs world_init = Some w ->
    VecList_wf (g_vecs w) /\
    g_label_counter w = len (g_vecs w) /\
    len (g_vecs w) <= 40 + Z.of_nat (List.length msgs) /\
    map (fun e => c_str (label e)) (entries (g_vecs w))
    = map (fun i => label_string (Z.of_nat i)) (seq 0 (Z.to_nat (len (g_vecs w)))).
Proof.
  intros env msgs w Hd Hn E.
  destruct (@RunFacts.run_scene env msgs world_init w 40 RunFacts.init_scene)
    as [(A & B & C) D]; try assumption.
  - cbn. lia.
  - lia.
  - unfold SIZE_MOD. lia.
  - split; [exact A|]. split; [exact B|]. split; [exact D | exact C].
Qed.

(** X10. Cycling through the presets.  From a state whose current preset
    is an entry of the registry, [n] times [preset_next] lead to the index
    [(i + n) mod count], then [m] times [preset_prev] to
    [(i + n - m) mod count]; going forward [n] times and back [n] times
    restores the index and the name. *)
Theorem preset_cycling :
  forall (env : Env) (n m : nat) (w : World),
    0 <= g_preset_index w <= g_preset_count - 1 ->
    g_preset_name w = name (preset_at (g_preset_index w)) ->
    exists w1 w2 w3 : World,
      run_ops env (repeat op_next n) w = Some w1 /\
      g_preset_index w1 = (g_preset_index w + Z.of_nat n) mod g_preset_count /\
      run_ops env (repeat op_prev m) w1 = Some w2 /\
      g_preset_index w2
      = (g_preset_index w + Z.of_nat n - Z.of_nat m) mod g_preset_count /\
      run_ops env (repeat op_next n ++ repeat op_prev n) w = Some w3 /\
      g_preset_index w3 = g_preset_index w /\
      g_preset_name w3 = g_preset_name w.
Proof.
  intros env n m w Hr Hn.
  assert (Hok : preset_ok w) by (split; assumption).
  change g_preset_count with 7 in *.
  destruct (@RunFacts.nexts env n w Hok) as (w1 & E1 & I1 & O1).
  destruct (@RunFacts.prevs env m w1 O1) as (w2 & E2 & I2 & O2).
  destruct (@RunFacts.prevs env n w1 O1) as (w3 & E3 & I3 & O3).
  exists w1, w2, w3.
  split; [exact E1|]. split; [exact I1|]. split; [exact E2|]. split.
  { rewrite I2, I1, Zminus_mod_idemp_l. reflexivity. }
  split. { rewrite RunFacts.run_ops_app, E1. exact E3. }
  assert (I : g_preset_index w3 = g_preset_index w).
  { rewrite I3, I1, Zminus_mod_idemp_l.
    replace (g_preset_index w + Z.of_nat n - Z.of_nat n) with (g_preset_index w) by lia.
    apply Z.mod_small. lia. }
  split; [exact I|]. destruct O3 as [_ N3]. rewrite N3, I, Hn. reflexivity.
Qed.

(** ** What each handler writes *)

Module FrameFacts.

Lemma apply_camera (env : Env) (idx : Z) (w : World) :
  g_cam (preset_apply_index env idx w) = g_cam w /\
  g_clientW (preset_apply_index env idx w) = g_clientW w /\
  g_clientH (preset_apply_index env idx w) = g_clientH w.
Proof.
  destruct (CameraFacts.apply_scene_only env idx w) as (A1 & A2 & A3 & _).
  split; [exact A1|]. split; [exact A2 | exact A3].
Qed.

Lemma push_camera (w : World) (value : vec2 float) (col : COLORREF) :
  g_cam (push_g_vecs w value col) = g_cam w /\
  g_clientW (push_g_vecs w value col) = g_clientW w /\
  g_clientH (push_g_vecs w value col) = g_clientH w.
Proof.
  unfold push_g_vecs. destruct (veclist_push _ _ _ _).
  split; [reflexivity|]. split; reflexivity.
Qed.

End FrameFacts.

(** X11. What the handlers leave alone.  Only the mouse wheel, a move of
    the mouse and the key R write the camera; only [WM_CREATE], the left
    button, the keys Delete, 1 and 2 and [WM_DESTROY] write the list, the
    label counter or the current preset; only [WM_SIZE] writes the client
    size.  In particular no preset generator touches the camera. *)
Theorem handlers_write_their_part :
  forall (env : Env) (msg : Msg) (w w' : World),
    WndProc env msg w = Some w' ->
    (writes_camera msg = true \/ g_cam w' = g_cam w) /\
    (writes_scene msg = true \/
     (g_vecs w' = g_vecs w /\ g_label_counter w' = g_label_counter w /\
      g_preset_index w' = g_preset_index w /\ g_preset_name w' = g_preset_name w)) /\
    ((exists lParam, msg = WM_SIZE lParam) \/
     (g_clientW w' = g_clientW w /\ g_clientH w' = g_clientH w)).
Proof.
  intros env msg w w'.
  destruct msg; cbn [WndProc writes_camera writes_scene].
  - intros E. injection E as <-.
    destruct (FrameFacts.apply_camera env 0 w) as (A & B & C).
    split; [right; exact A|]. split; [left; reflexivity|]. right. split; assumption.
  - intros E. injection E as <-.
    split; [right; reflexivity|]. split; [right; repeat split|]. left. eauto.
  - intros E. injection E as <-.
    destruct (FrameFacts.push_camera w
                (screen_to_world (g_cam w) (g_clientW w) (g_clientH w)
                   (GET_X_LPARAM lParam) (GET_Y_LPARAM lParam))
                (RGB 80 220 160)) as (A & B & C).
    split; [right; exact A|]. split; [left; reflexivity|]. right. split; assumption.
  - intros E. injection E as <-.
    split; [right; reflexivity|]. split; [right; repeat split|]. right. split; reflexivity.
  - intros E. split; [left; reflexivity|].
    destruct (g_rightDragging w).
    + destruct (int_sub _ _); [|discriminate]. cbn [obind] in E.
      destruct (int_sub _ _); [|discriminate]. cbn [obind] in E.
      injection E as <-. split; [right; repeat split|]. right. split; reflexivity.
    + injection E as <-. split; [right; repeat split|]. right. split; reflexivity.
  - intros E. injection E as <-.
    split; [right; reflexivity|]. split; [right; repeat split|]. right. split; reflexivity.
  - intros E. split; [left; reflexivity|].
    destruct (int_sub _ _); [|discriminate]. cbn [obind] in E.
    destruct (int_sub _ _); [|discriminate]. cbn [obind] in E.
    destruct (handle_zoom_at_cursor _ _ _ _ _ _); [|discriminate]. cbn [obind] in E.
    injection E as <-. split; [right; repeat split|]. right. split; reflexivity.
  - destruct (wParam =? VK_DELETE) eqn:E1.
    { intros E. injection E as <-. cbn [orb].
      split; [right; reflexivity|]. split; [left; reflexivity|].
      right. split; reflexivity. }
    destruct (wParam =? KEY_R) eqn:E2.
    { intros E. injection E as <-.
      split; [left; reflexivity|]. split; [|right; split; reflexivity].
      apply Z.eqb_eq in E2. subst wParam. right. repeat split. }
    destruct (wParam =? KEY_1) eqn:E3.
    { intros E. destruct (@CameraFacts.next_prev_cases env w w' (or_intror E)) as (idx & ->).
      destruct (FrameFacts.apply_camera env idx w) as (A & B & C).
      split; [right; exact A|]. split; [left; reflexivity|]. right. split; assumption. }
    destruct (wParam =? KEY_2) eqn:E4.
    { intros E. destruct (@CameraFacts.next_prev_cases env w w' (or_introl E)) as (idx & ->).
      destruct (FrameFacts.apply_camera env idx w) as (A & B & C).
      split; [right; exact A|]. split; [left; apply orb_true_r|]. right. split; assumption. }
    intros E. injection E as <-.
    split; [right; reflexivity|]. split; [right; repeat split|]. right. split; reflexivity.
  - intros E. injection E as <-.
    split; [right; reflexivity|]. split; [right; repeat split|]. right. split; reflexivity.
  - intros E. injection E as <-.
    split; [right; reflexivity|]. split; [left; reflexivity|]. right. split; reflexivity.
  - intros E. injection E as <-.
    split; [right; reflexivity|]. split; [right; repeat split|]. right. split; reflexivity.
Qed.

(** ** binary32: symmetry and signs *)

Module FloatSym.

Lemma add_comm (x y : float) : F32.add x y = F32.add y x.
Proof.
  unfold F32.add.
  destruct x as [sx|sx| |sx mx ex], y as [sy|sy| |sy my ey]; cbn [SFadd];
    try reflexivity; try (destruct sx, sy; reflexivity).
  rewrite (Z.min_comm ey ex), (Z.add_comm (cond_Zopp sy _)). reflexivity.
Qed.

Lemma mul_comm (x y : float) : F32.mul x y = F32.mul y x.
Proof.
  unfold F32.mul.
  destruct x as [sx|sx| |sx mx ex], y as [sy|sy| |sy my ey]; cbn [SFmul];
    try reflexivity; try (rewrite (xorb_comm sy sx); reflexivity).
  rewrite (xorb_comm sy sx), (Pos.mul_comm my mx), (Z.add_comm ey ex). reflexivity.
Qed.

Lemma round_aux_opp (prec emax : Z) (s : bool) (m e : Z) (l : location) :
  binary_round_aux prec emax (negb s) m e l = SFopp (binary_round_aux prec emax s m e l).
Proof.
  unfold binary_round_aux.
  destruct (shr_fexp prec emax m e l) as [mrs' e'].
  destruct (shr_fexp prec emax _ e' loc_Exact) as [mrs'' e''].
  destruct (shr_m mrs''); [reflexivity | | reflexivity].
  destruct (e'' <=? emax - prec); reflexivity.
Qed.

Lemma round_opp (prec emax : Z) (s : bool) (m : positive) (e : Z) :
  binary_round prec emax (negb s) m e = SFopp (binary_round prec emax s m e).
Proof.
  unfold binary_round. destruct (shl_align m e _) as [mz ez]. apply round_aux_opp.
Qed.

Lemma abs_opp (x : float) : SFabs (SFopp x) = SFabs x.
Proof. destruct x; reflexivity. Qed.

Lemma normalize_opp_abs (prec emax m e : Z) (sz : bool) :
  SFabs (binary_normalize prec emax (- m) e sz) = SFabs (binary_normalize prec emax m e sz).
Proof.
  destruct m as [|p|p]; cbn [Z.opp binary_normalize]; [reflexivity| |].
  - pose proof (round_opp prec emax false p e) as R. cbn [negb] in R.
    rewrite R. apply abs_opp.
  - pose proof (round_opp prec emax false p e) as R. cbn [negb] in R.
    rewrite R. symmetry. apply abs_opp.
Qed.

Lemma sub_swap_abs (x y : float) : fabsf (F32.sub x y) = fabsf (F32.sub y x).
Proof.
  unfold fabsf, F32.sub.
  destruct x as [sx|sx| |sx mx ex], y as [sy|sy| |sy my ey]; cbn [SFsub];
    try reflexivity; try (destruct sx, sy; reflexivity).
  rewrite (Z.min_comm ey ex).
  set (a := cond_Zopp sx _). set (b := cond_Zopp sy _).
  replace (b - a) with (- (a - b)) by lia. symmetry. apply normalize_opp_abs.
Qed.

Lemma compare_abs_eq (x y : float) :
  SFcompare (SFabs x) (SFabs y) = Some Eq -> SFabs x = SFabs y.
Proof.
  destruct x as [sx|sx| |sx mx ex], y as [sy|sy| |sy my ey]; cbn;
    intros H; try discriminate H; try reflexivity.
  destruct (ex ?= ey) eqn:E; try discriminate H.
  apply Z.compare_eq in E. injection H as H.
  apply Pos.compare_eq in H. subst. reflexivity.
Qed.

Lemma fmaxf_abs_comm (x y : float) :
  fmaxf (fabsf x) (fabsf y) = fmaxf (fabsf y) (fabsf x).
Proof.
  unfold fmaxf, fabsf.
  destruct (IEEE.is_nan (SFabs x)) eqn:Nx, (IEEE.is_nan (SFabs y)) eqn:Ny;
    try reflexivity.
  - destruct x; try discriminate Nx. destruct y; try discriminate Ny. reflexivity.
  - unfold F32.ltb, SFltb. rewrite (FloatOrder.compare_antisym (SFabs x) (SFabs y)).
    destruct (SFcompare (SFabs x) (SFabs y)) as [[| |]|] eqn:E; cbn; try reflexivity.
    + apply compare_abs_eq in E. exact E.
    + apply FloatOrder.compare_nan in E. destruct E; congruence.
Qed.

Lemma mul_self_abs (d : float) : F32.mul d d = F32.mul (fabsf d) (fabsf d).
Proof. destruct d as [s|s| |s m e]; try reflexivity; destruct s; reflexivity. Qed.

Lemma opp_involutive (x : float) : fneg (fneg x) = x.
Proof. destruct x as [s|s| |s m e]; cbn; rewrite ?negb_involutive; reflexivity. Qed.

Lemma mul_opp_r (x y : float) : F32.mul x (fneg y) = fneg (F32.mul x y).
Proof.
  unfold F32.mul, fneg.
  destruct x as [sx|sx| |sx mx ex], y as [sy|sy| |sy my ey]; cbn [SFmul SFopp];
    try reflexivity; try (destruct sx, sy; reflexivity).
  destruct sx, sy; cbn [xorb negb].
  - apply (round_aux_opp F32.prec F32.emax false).
  - apply (round_aux_opp F32.prec F32.emax true).
  - apply (round_aux_opp F32.prec F32.emax true).
  - apply (round_aux_opp F32.prec F32.emax false).
Qed.

Lemma mul_opp_l (x y : float) : F32.mul (fneg x) y = fneg (F32.mul x y).
Proof. rewrite (mul_comm (fneg x) y), mul_opp_r, (mul_comm y x). reflexivity. Qed.

Lemma add_opp_self (z : float) :
  IEEE.is_finite z = true -> F32.add (fneg z) z = f32_zero.
Proof.
  destruct z as [s|s| |s m e]; intros H; try discriminate H.
  - destruct s; reflexivity.
  - unfold F32.add, fneg. cbn [SFopp SFadd]. rewrite Z.min_id.
    set (p := Z.pos _).
    replace (cond_Zopp (negb s) p + cond_Zopp s p) with 0
      by (destruct s; cbn [negb cond_Zopp]; lia).
    reflexivity.
Qed.

Lemma eqb_refl (x : float) : IEEE.is_nan x = false -> F32.eqb x x = true.
Proof.
  intros H. unfold F32.eqb, SFeqb. now rewrite FloatOrder.compare_refl.
Qed.

(** Non-negative results. *)
Lemma nonneg_inv (r : float) :
  F32.leb f32_zero r = true ->
  (exists s, r = S754_zero s) \/ r = S754_infinity false \/
  (exists m e, r = S754_finite false m e).
Proof.
  destruct r as [s|s| |s m e]; intros H; try discriminate H.
  - left. eauto.
  - destruct s; [discriminate H|]. right. left. reflexivity.
  - destruct s; [discriminate H|]. right. right. eauto.
Qed.

Lemma round_nonneg (prec emax : Z) (m : positive) (e : Z) :
  SFleb (S754_zero false) (binary_round prec emax false m e) = true.
Proof.
  unfold binary_round. destruct (shl_align m e _) as [mz ez].
  apply FloatFacts.binary_round_aux_nonneg. apply Pos2Z.is_nonneg.
Qed.

Lemma round_not_nan (prec emax : Z) (s : bool) (m : positive) (e : Z) :
  IEEE.is_nan (binary_round prec emax s m e) = false.
Proof.
  pose proof (round_nonneg prec emax m e) as H.
  destruct s.
  - pose proof (round_opp prec emax false m e) as R. cbn [negb] in R. rewrite R.
    destruct (binary_round prec emax false m e); try discriminate H; reflexivity.
  - destruct (binary_round prec emax false m e); try discriminate H; reflexivity.
Qed.

Lemma normalize_not_nan (prec emax m e : Z) (sz : bool) :
  IEEE.is_nan (binary_normalize prec emax m e sz) = false.
Proof.
  destruct m; cbn [binary_normalize]; [reflexivity | apply round_not_nan..].
Qed.

Lemma add_nonneg (p q : float) :
  F32.leb f32_zero p = true -> F32.leb f32_zero q = true ->
  F32.leb f32_zero (F32.add p q) = true.
Proof.
  intros Hp Hq.
  destruct (@nonneg_inv _ Hp) as [[sp ->]|[->|(mp & ep & ->)]];
    destruct (@nonneg_inv _ Hq) as [[sq ->]|[->|(mq & eq & ->)]];
    try reflexivity; try (destruct sp, sq; reflexivity).
  unfold F32.add. cbn [SFadd cond_Zopp].
  set (a := fst _). set (b := fst _).
  change (Z.pos a + Z.pos b) with (Z.pos (a + b)). cbn [binary_normalize].
  apply round_nonneg.
Qed.

Lemma mul_self_nonneg (x : float) :
  IEEE.is_nan x = false -> F32.leb f32_zero (F32.mul x x) = true.
Proof.
  destruct x as [s|s| |s m e]; intros H; try discriminate H;
    try (destruct s; reflexivity).
  unfold F32.mul. cbn [SFmul]. rewrite xorb_nilpotent.
  apply FloatFacts.binary_round_aux_nonneg. apply Pos2Z.is_nonneg.
Qed.

Lemma convert_nonneg (prec emax : Z) (x : float) :
  F32.leb f32_zero x = true -> F32.leb f32_zero (IEEE.convert prec emax x) = true.
Proof.
  intros H. destruct (@nonneg_inv _ H) as [[s ->]|[->|(m & e & ->)]];
    try reflexivity; try (destruct s; reflexivity).
  cbn [IEEE.convert cond_Zopp binary_normalize]. apply round_nonneg.
Qed.

Lemma sqrt_nonneg (x : float) :
  F32.leb f32_zero x = true -> F32.leb f32_zero (F64.sqrt x) = true.
Proof.
  intros H. destruct (@nonneg_inv _ H) as [[s ->]|[->|(m & e & ->)]];
    try reflexivity; try (destruct s; reflexivity).
  unfold F64.sqrt. cbn [SFsqrt]. unfold SFsqrt_core_binary.
  set (e' := Z.min _ _). set (m' := match e - 2 * e' with 0 => _ | _ => _ end).
  assert (Hm : 0 <= m').
  { unfold m'. destruct (e - 2 * e'); try lia.
    rewrite Z.shiftl_mul_pow2 by lia.
    apply Z.mul_nonneg_nonneg; [lia|]. apply Z.pow_nonneg. lia. }
  pose proof (Z.sqrtrem_spec m' Hm) as Hs.
  destruct (Z.sqrtrem m') as [q r].
  apply FloatFacts.binary_round_aux_nonneg. lia.
Qed.

Lemma sqrt_via_double_nonneg (x : float) :
  F32.leb f32_zero x = true -> F32.leb f32_zero (sqrt_via_double x) = true.
Proof.
  intros H. unfold sqrt_via_double, F32.of_double, F64.of_float.
  apply convert_nonneg, sqrt_nonneg, convert_nonneg, H.
Qed.

Lemma sub_finite_not_nan (x y : float) :
  IEEE.is_finite x = true -> IEEE.is_finite y = true ->
  IEEE.is_nan (F32.sub x y) = false.
Proof.
  destruct x as [sx|sx| |sx mx ex]; intros Hx; try discriminate Hx;
    destruct y as [sy|sy| |sy my ey]; intros Hy; try discriminate Hy;
    try reflexivity; try (destruct sx, sy; reflexivity).
  unfold F32.sub. cbn [SFsub]. apply normalize_not_nan.
Qed.

Lemma ltb_nan_r (x y : float) : IEEE.is_nan y = true -> F32.ltb x y = false.
Proof.
  destruct y; intros H; try discriminate H. destruct x; reflexivity.
Qed.

Lemma ltb_nan_l (x y : float) : IEEE.is_nan x = true -> F32.ltb x y = false.
Proof.
  destruct x; intros H; try discriminate H. reflexivity.
Qed.

End FloatSym.

(** X12. Bit for bit, [vec2_add] is commutative, [vec2_dot] and
    [vec2_dist2] are symmetric and [vec2_dist] is symmetric, for all
    binary32 arguments, NaN and the infinities included. *)
Theorem vec2_add_dot_dist_symmetric :
  forall a b : vec2 float,
    vec2_add a b = vec2_add b a /\
    vec2_dot a b = vec2_dot b a /\
    vec2_dist2 a b = vec2_dist2 b a /\
    vec2_dist a b = vec2_dist b a.
Proof.
  intros a b.
  assert (D : vec2_dist2 a b = vec2_dist2 b a).
  { unfold vec2_dist2. cbn [fadd fsub fmul binary32_ops].
    rewrite (FloatSym.mul_self_abs (F32.sub (vx a) (vx b))),
            (FloatSym.mul_self_abs (F32.sub (vy a) (vy b))),
            (FloatSym.sub_swap_abs (vx a) (vx b)),
            (FloatSym.sub_swap_abs (vy a) (vy b)),
            <- !FloatSym.mul_self_abs.
    reflexivity. }
  split; [|split; [|split]].
  - unfold vec2_add. cbn [fadd binary32_ops].
    now rewrite (FloatSym.add_comm (vx a)), (FloatSym.add_comm (vy a)).
  - unfold vec2_dot. cbn [fadd fmul binary32_ops].
    now rewrite (FloatSym.mul_comm (vx a)), (FloatSym.mul_comm (vy a)).
  - exact D.
  - unfold vec2_dist. now rewrite D.
Qed.

(** X13. [vec2_equal] is symmetric in its two vectors, bit for bit and
    for every tolerance. *)
Theorem vec2_equal_symmetric :
  forall (a b : vec2 float) (eps : float),
    vec2_equal a b eps = vec2_equal b a eps.
Proof.
  intros a b eps. unfold vec2_equal.
  rewrite (andb_comm (F32.ltb (vec2_length a) eps)).
  rewrite (FloatSym.sub_swap_abs (vx a) (vx b)), (FloatSym.sub_swap_abs (vy a) (vy b)).
  rewrite (FloatSym.fmaxf_abs_comm (vx a) (vx b)), (FloatSym.fmaxf_abs_comm (vy a) (vy b)).
  reflexivity.
Qed.

Module EqualFacts.

(** A number [>= 0] is not below a number [<= 0]. *)
Lemma nonneg_not_below (x eps : float) :
  F32.leb f32_zero x = true -> F32.leb eps f32_zero = true -> F32.ltb x eps = false.
Proof.
  intros Hx He.
  destruct (@FloatSym.nonneg_inv _ Hx) as [[s ->]|[->|(m & e & ->)]];
    destruct eps as [se|se| |se me ee]; try discriminate He;
    try reflexivity; destruct se; try discriminate He; reflexivity.
Qed.

Lemma length_nonneg (c : vec2 float) :
  IEEE.is_finite (vx c) = true -> IEEE.is_finite (vy c) = true ->
  F32.leb f32_zero (vec2_length c) = true.
Proof.
  intros Hx Hy. unfold vec2_length. apply FloatSym.sqrt_via_double_nonneg.
  unfold vec2_length2. cbn [fadd fmul binary32_ops].
  apply FloatSym.add_nonneg; apply FloatSym.mul_self_nonneg.
  - destruct (vx c); try discriminate Hx; reflexivity.
  - destruct (vy c); try discriminate Hy; reflexivity.
Qed.

End EqualFacts.

(** C6, as the code has it.  [vec2_equal] is the two-tier test on
    binary32: it holds exactly when both lengths, as [vec2_length]
    computes them, are below [eps], or each component passes the relative
    test [|a_i - b_i| <= eps * fmaxf(|a_i|, |b_i|)].  A vector [c] with
    finite components equals itself for every finite tolerance
    [tol >= 0], and the zero vector equals itself for every tolerance
    [tol0 > 0].  The computed length of such a [c] is never negative, so
    with a tolerance [neg <= 0] the first tier never applies and the
    relative test decides alone.  The computed length is the rounded one:
    it is 5 for (3, 4), which keeps (1, 0) and (5, 5) apart, and it is 0
    for (2^-100, 0), whose square underflows. *)
Theorem vec2_equal_two_tier :
  forall (a b c : vec2 float) (eps tol tol0 neg : float),
    IEEE.is_finite (vx c) = true -> IEEE.is_finite (vy c) = true ->
    IEEE.is_finite tol = true -> F32.leb f32_zero tol = true ->
    F32.ltb f32_zero tol0 = true ->
    F32.leb neg f32_zero = true ->
    (vec2_equal a b eps = true <->
     (F32.ltb (vec2_length a) eps = true /\ F32.ltb (vec2_length b) eps = true) \/
     (F32.leb (fabsf (F32.sub (vx a) (vx b)))
              (F32.mul eps (fmaxf (fabsf (vx a)) (fabsf (vx b)))) = true /\
      F32.leb (fabsf (F32.sub (vy a) (vy b)))
              (F32.mul eps (fmaxf (fabsf (vy a)) (fabsf (vy b)))) = true)) /\
    vec2_equal c c tol = true /\
    vec2_equal (mk_vec2 f32_zero f32_zero) (mk_vec2 f32_zero f32_zero) tol0 = true /\
    F32.leb f32_zero (vec2_length c) = true /\
    F32.ltb (vec2_length c) neg = false /\
    vec2_equal c b neg
    = F32.leb (fabsf (F32.sub (vx c) (vx b)))
              (F32.mul neg (fmaxf (fabsf (vx c)) (fabsf (vx b))))
      && F32.leb (fabsf (F32.sub (vy c) (vy b)))
                 (F32.mul neg (fmaxf (fabsf (vy c)) (fabsf (vy b)))) /\
    vec2_length (mk_vec2 (F32.of_Z 3) (F32.of_Z 4)) = F32.of_Z 5 /\
    vec2_equal (mk_vec2 (F32.of_Z 1) (F32.of_Z 0)) (mk_vec2 (F32.of_Z 5) (F32.of_Z 5))
               EPSILON = false /\
    vec2_length (mk_vec2 tiny f32_zero) = f32_zero.
Proof.
  intros a b c eps tol tol0 neg Hx Hy Ht Hpos Hpos0 Hneg.
  assert (L : F32.leb f32_zero (vec2_length c) = true)
    by (apply EqualFacts.length_nonneg; assumption).
  assert (N : F32.ltb (vec2_length c) neg = false)
    by (apply EqualFacts.nonneg_not_below; assumption).
  split; [|split; [|split; [|split; [|split; [|split; [|split; [|split]]]]]]].
  - unfold vec2_equal.
    destruct (F32.ltb (vec2_length a) eps && F32.ltb (vec2_length b) eps) eqn:E.
    + apply andb_true_iff in E. tauto.
    + rewrite andb_true_iff. split; [tauto|].
      intros [[H1 H2]|H]; [|exact H].
      rewrite H1, H2 in E. discriminate E.
  - unfold vec2_equal.
    rewrite !FloatFacts.component_reflexive by assumption.
    destruct (_ && _); reflexivity.
  - unfold vec2_equal.
    change (vec2_length (mk_vec2 f32_zero f32_zero)) with f32_zero.
    rewrite Hpos0. reflexivity.
  - exact L.
  - exact N.
  - unfold vec2_equal. rewrite N. reflexivity.
  - vm_compute. reflexivity.
  - vm_compute. reflexivity.
  - vm_compute. reflexivity.
Qed.

(** C6 as stated fails.  [vec2_equal] is not reflexive for every vector
    and every tolerance: (1, 2) differs from itself at the tolerances -1
    and NaN, and a vector with a NaN or an infinite component differs
    from itself at [EPSILON].  And the lengths of the first tier are the
    computed ones: [a = (2^-100, 0)] and [b = -a] have the length 2^-100,
    which is not below [eps = 2^-110], and fail the relative test, yet
    [vec2_equal a b eps] holds, since their squares underflow to 0. *)
Lemma vec2_equal_not_reflexive :
  let c := mk_vec2 (F32.of_Z 1) (F32.of_Z 2) in
  let a := mk_vec2 tiny f32_zero in
  let b := mk_vec2 (SFopp tiny) f32_zero in
  vec2_equal c c (F32.of_Z (-1)) = false /\
  vec2_equal c c S754_nan = false /\
  vec2_equal (mk_vec2 S754_nan (F32.of_Z 2)) (mk_vec2 S754_nan (F32.of_Z 2)) EPSILON
  = false /\
  vec2_equal (mk_vec2 (S754_infinity false) (F32.of_Z 2))
             (mk_vec2 (S754_infinity false) (F32.of_Z 2)) EPSILON = false /\
  (vec2_equal a b tiny_eps = true /\
   (IEEE.to_Q tiny_eps < Qabs (IEEE.to_Q (vx a)))%Q /\
   (IEEE.to_Q tiny_eps < Qabs (IEEE.to_Q (vx b)))%Q /\
   F32.leb (fabsf (F32.sub (vx a) (vx b)))
           (F32.mul tiny_eps (fmaxf (fabsf (vx a)) (fabsf (vx b)))) = false).
Proof.
  cbv zeta. repeat split; vm_compute; reflexivity.
Qed.

(** X14. Lengths are never negative: for a vector without NaN
    components, [vec2_length2] and [vec2_length] return a number that is
    [>= 0] (possibly infinite, never a NaN); for vectors with finite
    components the same holds of [vec2_dist2] and [vec2_dist]. *)
Theorem vec2_length_nonnegative :
  forall a p q : vec2 float,
    IEEE.is_nan (vx a) = false -> IEEE.is_nan (vy a) = false ->
    vec2_finite p = true -> vec2_finite q = true ->
    F32.leb f32_zero (vec2_length2 a) = true /\
    F32.leb f32_zero (vec2_length a) = true /\
    F32.leb f32_zero (vec2_dist2 p q) = true /\
    F32.leb f32_zero (vec2_dist p q) = true.
Proof.
  intros a p q Hx Hy Hp Hq.
  assert (L : F32.leb f32_zero (vec2_length2 a) = true).
  { unfold vec2_length2. cbn [fadd fmul binary32_ops].
    apply FloatSym.add_nonneg; apply FloatSym.mul_self_nonneg; assumption. }
  assert (D : F32.leb f32_zero (vec2_dist2 p q) = true).
  { unfold vec2_finite in Hp, Hq.
    apply andb_true_iff in Hp. apply andb_true_iff in Hq.
    destruct Hp as [P1 P2], Hq as [Q1 Q2].
    unfold vec2_dist2. cbn [fadd fsub fmul binary32_ops].
    apply FloatSym.add_nonneg; apply FloatSym.mul_self_nonneg;
      apply FloatSym.sub_finite_not_nan; assumption. }
  split; [exact L|]. split; [|split; [exact D|]].
  - unfold vec2_length. apply FloatSym.sqrt_via_double_nonneg, L.
  - unfold vec2_dist. apply FloatSym.sqrt_via_double_nonneg, D.
Qed.

(** X15. Quarter turns.  [vec2_perp] is [vec2_rot90_ccw]; the two quarter
    turns undo each other, two of the same kind negate the vector and
    four give it back, all bit for bit and for every vector [a]; a
    quarter turn keeps [vec2_length2] and [vec2_length]; and for a vector
    [c] whose components have a finite product, the turned vector is
    exactly orthogonal to the original: the dot product is [+0]. *)
Theorem quarter_turns :
  forall a c : vec2 float,
    IEEE.is_finite (F32.mul (vx c) (vy c)) = true ->
    vec2_perp a = vec2_rot90_ccw a /\
    vec2_rot90_cw (vec2_rot90_ccw a) = a /\
    vec2_rot90_ccw (vec2_rot90_cw a) = a /\
    vec2_rot90_ccw (vec2_rot90_ccw a) = mk_vec2 (fneg (vx a)) (fneg (vy a)) /\
    vec2_rot90_ccw (vec2_rot90_ccw (vec2_rot90_ccw (vec2_rot90_ccw a))) = a /\
    vec2_length2 (vec2_rot90_ccw a) = vec2_length2 a /\
    vec2_length (vec2_rot90_cw a) = vec2_length a /\
    vec2_dot (vec2_perp c) c = f32_zero /\
    vec2_dot c (vec2_rot90_cw c) = f32_zero.
Proof.
  intros [x y] [cx cy] Hf. cbn [vx vy] in Hf.
  unfold vec2_perp, vec2_rot90_ccw, vec2_rot90_cw, vec2_length, vec2_length2, vec2_dot.
  cbn [vx vy fadd fmul binary32_ops].
  rewrite !FloatSym.opp_involutive.
  rewrite !FloatSym.mul_opp_l, !FloatSym.mul_opp_r, !FloatSym.opp_involutive.
  split; [reflexivity|]. split; [reflexivity|]. split; [reflexivity|].
  split; [reflexivity|]. split; [reflexivity|].
  split; [apply FloatSym.add_comm|].
  split; [f_equal; apply FloatSym.add_comm|].
  split.
  - rewrite (FloatSym.mul_comm cy cx). apply FloatSym.add_opp_self. exact Hf.
  - rewrite FloatSym.add_comm, (FloatSym.mul_comm cy cx).
    apply FloatSym.add_opp_self. exact Hf.
Qed.

(** ** vector2.h at the edges *)

Module VectorEdge.

Lemma normalize_zero (sx sy : bool) :
  vec2_normalize (mk_vec2 (S754_zero sx) (S754_zero sy)) = mk_vec2 f32_zero f32_zero.
Proof. destruct sx, sy; vm_compute; reflexivity. Qed.

Lemma project_zero (c : vec2 float) (sx sy : bool) :
  vec2_project c (mk_vec2 (S754_zero sx) (S754_zero sy)) = mk_vec2 S754_nan S754_nan.
Proof.
  destruct c as [x y]. unfold vec2_project, vec2_dot, vec2_length2.
  cbn [vx vy fadd fmul fdiv binary32_ops].
  destruct x as [[]|[]| |[] mx ex], y as [[]|[]| |[] my ey], sx, sy; reflexivity.
Qed.

Lemma sub_nan (x : float) : F32.sub x S754_nan = S754_nan.
Proof. destruct x; reflexivity. Qed.

Lemma sub_zero_same (x : float) (s : bool) :
  IEEE.is_finite x = true -> F32.eqb (F32.sub x (S754_zero s)) x = true.
Proof.
  destruct x as [sx|sx| |sx m e]; intros H; try discriminate H.
  - destruct sx, s; reflexivity.
  - apply FloatSym.eqb_refl. reflexivity.
Qed.

Lemma add_zero_same (x : float) (s : bool) :
  IEEE.is_finite x = true -> F32.eqb (F32.add (S754_zero s) x) x = true.
Proof.
  destruct x as [sx|sx| |sx m e]; intros H; try discriminate H.
  - destruct sx, s; reflexivity.
  - apply FloatSym.eqb_refl. reflexivity.
Qed.

(** The term that [vec2_reflect] subtracts when the normal is zero. *)
Lemma reflect_zero_offset (x y : float) :
  IEEE.is_finite x = true -> IEEE.is_finite y = true ->
  exists s, F32.mul (F32.mul (F32.of_Z 2)
                       (vec2_dot (mk_vec2 x y) (mk_vec2 f32_zero f32_zero)))
                    f32_zero = S754_zero s.
Proof.
  unfold vec2_dot. cbn [vx vy fadd fmul binary32_ops].
  destruct x as [[]|[]| |[] mx ex]; intros Hx; try discriminate Hx;
    destruct y as [[]|[]| |[] my ey]; intros Hy; try discriminate Hy;
    eexists; reflexivity.
Qed.

(** The rotation of the zero vector, for finite values of [cosf] and
    [sinf]. *)
Lemma rotate_zero (c s : float) :
  IEEE.is_finite c = true -> IEEE.is_finite s = true ->
  (exists s1, F32.sub (F32.mul f32_zero c) (F32.mul f32_zero s) = S754_zero s1) /\
  (exists s2, F32.add (F32.mul f32_zero s) (F32.mul f32_zero c) = S754_zero s2).
Proof.
  destruct c as [[]|[]| |[] mc ec]; intros Hc; try discriminate Hc;
    destruct s as [[]|[]| |[] ms es]; intros Hs; try discriminate Hs;
    split; eexists; reflexivity.
Qed.

Lemma min_component (x y : float) :
  IEEE.is_nan x = false -> IEEE.is_nan y = false ->
  F32.leb (if F32.ltb x y then x else y) x = true /\
  F32.leb (if F32.ltb x y then x else y) y = true.
Proof.
  intros Hx Hy. destruct (F32.ltb x y) eqn:E.
  - split; [apply FloatOrder.leb_refl, Hx | apply FloatOrder.ltb_leb, E].
  - split; [apply FloatOrder.ltb_false_leb; assumption | apply FloatOrder.leb_refl, Hy].
Qed.

Lemma max_component (x y : float) :
  IEEE.is_nan x = false -> IEEE.is_nan y = false ->
  F32.leb x (if F32.ltb y x then x else y) = true /\
  F32.leb y (if F32.ltb y x then x else y) = true.
Proof.
  intros Hx Hy. destruct (F32.ltb y x) eqn:E.
  - split; [apply FloatOrder.leb_refl, Hx | apply FloatOrder.ltb_leb, E].
  - split; [apply FloatOrder.ltb_false_leb; assumption | apply FloatOrder.leb_refl, Hy].
Qed.

End VectorEdge.

(** X16. Zero directions.  [vec2_normalize] of a zero vector is the zero
    vector (the guard against the division); [vec2_reflect] about a zero
    normal returns a vector numerically equal to its argument, for every
    argument with finite components; [vec2_project] and [vec2_reject]
    have no such guard: onto a zero vector they return NaN in both
    components, whatever the first argument. *)
Theorem zero_directions :
  forall (a c : vec2 float) (sx sy : bool),
    vec2_finite a = true ->
    vec2_normalize (mk_vec2 (S754_zero sx) (S754_zero sy)) = mk_vec2 f32_zero f32_zero /\
    vec2_same (vec2_reflect a (mk_vec2 (S754_zero sx) (S754_zero sy))) a = true /\
    vec2_project c (mk_vec2 (S754_zero sx) (S754_zero sy)) = mk_vec2 S754_nan S754_nan /\
    vec2_reject c (mk_vec2 (S754_zero sx) (S754_zero sy)) = mk_vec2 S754_nan S754_nan.
Proof.
  intros [x y] c sx sy Ha. unfold vec2_finite in Ha. cbn [vx vy] in Ha.
  apply andb_true_iff in Ha. destruct Ha as [Hx Hy].
  split; [apply VectorEdge.normalize_zero|]. split; [|split].
  - unfold vec2_reflect. rewrite VectorEdge.normalize_zero. cbv zeta. cbn [vx vy].
    destruct (VectorEdge.reflect_zero_offset x y Hx Hy) as [s E]. rewrite E.
    unfold vec2_same. cbn [vx vy].
    rewrite !VectorEdge.sub_zero_same by assumption. reflexivity.
  - apply VectorEdge.project_zero.
  - unfold vec2_reject. rewrite VectorEdge.project_zero.
    cbn [vx vy fsub binary32_ops]. rewrite !VectorEdge.sub_nan. reflexivity.
Qed.

(** X17. [vec2_min] and [vec2_max] on binary32.  For vectors without NaN
    components, each component of the minimum is [<=] and each component
    of the maximum is [>=] the components of both arguments.  A NaN is
    not treated symmetrically: a NaN component of the second argument is
    returned, a NaN component of the first argument is dropped. *)
Theorem vec2_min_max_bounds :
  forall a b c : vec2 float,
    IEEE.is_nan (vx a) = false -> IEEE.is_nan (vy a) = false ->
    IEEE.is_nan (vx b) = false -> IEEE.is_nan (vy b) = false ->
    (F32.leb (vx (vec2_min a b)) (vx a) = true /\
     F32.leb (vx (vec2_min a b)) (vx b) = true /\
     F32.leb (vy (vec2_min a b)) (vy a) = true /\
     F32.leb (vy (vec2_min a b)) (vy b) = true) /\
    (F32.leb (vx a) (vx (vec2_max a b)) = true /\
     F32.leb (vx b) (vx (vec2_max a b)) = true /\
     F32.leb (vy a) (vy (vec2_max a b)) = true /\
     F32.leb (vy b) (vy (vec2_max a b)) = true) /\
    vec2_min c (mk_vec2 S754_nan S754_nan) = mk_vec2 S754_nan S754_nan /\
    vec2_max c (mk_vec2 S754_nan S754_nan) = mk_vec2 S754_nan S754_nan /\
    vec2_min (mk_vec2 S754_nan S754_nan) c = c /\
    vec2_max (mk_vec2 S754_nan S754_nan) c = c.
Proof.
  intros [ax ay] [bx by_] [cx cy] Hax Hay Hbx Hby.
  unfold vec2_min, vec2_max. cbn [vx vy fltb binary32_ops] in *.
  destruct (@VectorEdge.min_component _ _ Hax Hbx) as [M1 M2].
  destruct (@VectorEdge.min_component _ _ Hay Hby) as [M3 M4].
  destruct (@VectorEdge.max_component _ _ Hax Hbx) as [M5 M6].
  destruct (@VectorEdge.max_component _ _ Hay Hby) as [M7 M8].
  split; [split; [exact M1|split; [exact M2|split; [exact M3|exact M4]]]|].
  split; [split; [exact M5|split; [exact M6|split; [exact M7|exact M8]]]|].
  rewrite !(FloatSym.ltb_nan_r _ S754_nan eq_refl).
  rewrite !(FloatSym.ltb_nan_l S754_nan _ eq_refl).
  split; [reflexivity|]. split; [reflexivity|]. split; reflexivity.
Qed.

(** X18. Projection and rejection without rounding.  Run on exact
    rationals, with [b] not the zero vector, the code of [vec2_project]
    and [vec2_reject] splits [a] into two orthogonal parts: the parts add
    up to [a], the rejection is orthogonal to [b], the projection has the
    dot product of [a] with [b], projecting twice is projecting once, and
    the squared lengths add up (so the projection is no longer than
    [a]). *)
Theorem project_reject_exact :
  forall a b : vec2 Q,
    ~ (vec2_length2 b == 0)%Q ->
    (vx (vec2_project a b) + vx (vec2_reject a b) == vx a)%Q /\
    (vy (vec2_project a b) + vy (vec2_reject a b) == vy a)%Q /\
    (vec2_dot (vec2_reject a b) b == 0)%Q /\
    (vec2_dot (vec2_project a b) b == vec2_dot a b)%Q /\
    (vx (vec2_project (vec2_project a b) b) == vx (vec2_project a b))%Q /\
    (vy (vec2_project (vec2_project a b) b) == vy (vec2_project a b))%Q /\
    (vec2_length2 (vec2_project a b) + vec2_length2 (vec2_reject a b)
     == vec2_length2 a)%Q /\
    (vec2_length2 (vec2_project a b) <= vec2_length2 a)%Q.
Proof.
  intros [ax ay] [bx by_] Hb.
  unfold vec2_reject, vec2_project, vec2_dot, vec2_length2 in *.
  cbn [vx vy fadd fsub fmul fdiv Exact.ops] in *.
  assert (P : (let s := (ax * bx + ay * by_) / (bx * bx + by_ * by_) in
               bx * s * (bx * s) + by_ * s * (by_ * s)
               + ((ax - bx * s) * (ax - bx * s) + (ay - by_ * s) * (ay - by_ * s))
               == ax * ax + ay * ay)%Q).
  { cbv zeta. field. exact Hb. }
  cbv zeta in P.
  split; [ring|]. split; [ring|]. split; [field; exact Hb|].
  split; [field; exact Hb|]. split; [field; exact Hb|]. split; [field; exact Hb|].
  split; [exact P|].
  rewrite <- P.
  set (s := ((ax * bx + ay * by_) / (bx * bx + by_ * by_))%Q).
  set (rx := (ax - bx * s)%Q). set (ry := (ay - by_ * s)%Q).
  assert (0 <= rx * rx)%Q by nra. assert (0 <= ry * ry)%Q by nra. lra.
Qed.

(** X19. The pivot is a fixed point: for a pivot with finite components
    and finite values of [cosf] and [sinf], [vec2_rotate_around] maps the
    pivot to a vector numerically equal to it, and [vec2_rotate] maps the
    zero vector to a zero vector. *)
Theorem rotate_around_fixes_pivot :
  forall (env : Env) (a : vec2 float) (radians : float),
    vec2_finite a = true ->
    IEEE.is_finite (cosf env radians) = true ->
    IEEE.is_finite (sinf env radians) = true ->
    vec2_same (vec2_rotate_around env a a radians) a = true /\
    vec2_same (vec2_rotate env (mk_vec2 f32_zero f32_zero) radians)
              (mk_vec2 f32_zero f32_zero) = true.
Proof.
  intros env [x y] radians Ha Hc Hs. unfold vec2_finite in Ha. cbn [vx vy] in Ha.
  apply andb_true_iff in Ha. destruct Ha as [Hx Hy].
  destruct (VectorEdge.rotate_zero _ _ Hc Hs) as [[s1 E1] [s2 E2]].
  unfold vec2_rotate_around, vec2_rotate, vec2_same. cbn [vx vy].
  rewrite !FloatFacts.sub_self by assumption.
  change (S754_zero false) with f32_zero. rewrite E1, E2.
  split.
  - rewrite !VectorEdge.add_zero_same by assumption. reflexivity.
  - destruct s1, s2; reflexivity.
Qed.

(** ** The random preset *)

Module RandomFacts.

Lemma for_loop_steps (I : nat -> World -> Prop) (body : Z -> World -> World)
    (bound : nat) :
  (forall i k w, (k < bound)%nat -> I k w -> I (S k) (body i w)) ->
  forall (n : nat) (i : Z) (k : nat) (w : World),
    (k + n <= bound)%nat -> I k w -> I (k + n)%nat (for_loop n i body w).
Proof.
  intros Hb. induction n as [|n IH]; intros i k w Hk H; cbn [for_loop].
  - rewrite Nat.add_0_r. exact H.
  - replace (k + S n)%nat with (S k + n)%nat by lia.
    apply IH; [lia|]. apply Hb; [lia | exact H].
Qed.

Lemma all_from_spec (f : Z -> bool) (n : nat) :
  forall lo : Z,
    all_from f lo n = true -> forall z : Z, lo <= z < lo + Z.of_nat n -> f z = true.
Proof.
  induction n as [|n IH]; intros lo H z Hz; [lia|].
  cbn [all_from] in H. apply andb_true_iff in H. destruct H as [H0 H1].
  destruct (Z.eq_dec z lo) as [->|Hne]; [exact H0|].
  apply (IH (lo + 1) H1). lia.
Qed.

Lemma sweep :
  all_from (fun r => in_box 5 3 (random_point r r)) 0 (Z.to_nat 32768) = true.
Proof. vm_compute. reflexivity. Qed.

Lemma random_point_in_box (r1 r2 : Z) :
  0 <= r1 <= RAND_MAX -> 0 <= r2 <= RAND_MAX ->
  in_box 5 3 (random_point r1 r2) = true.
Proof.
  intros H1 H2. unfold RAND_MAX in *.
  pose proof (@all_from_spec _ (Z.to_nat 32768) 0 sweep r1) as A.
  pose proof (@all_from_spec _ (Z.to_nat 32768) 0 sweep r2) as B.
  rewrite Z2Nat.id in A, B by lia.
  specialize (A ltac:(lia)). specialize (B ltac:(lia)).
  cbv beta in A, B. unfold in_box in *. cbn [vx vy random_point] in *.
  apply andb_true_iff in A. apply andb_true_iff in B.
  destruct A as [A _], B as [_ B]. rewrite A, B. reflexivity.
Qed.

(** The pairs of tape values behind the first [k] random vectors. *)
Lemma random_steps (env : Env) (c0 : nat) (i : Z) (k : nat) (w : World) :
  (k < 40)%nat ->
  (VecList_wf (g_vecs w) /\ len (g_vecs w) = Z.of_nat k /\
   g_rand_calls w = (c0 + 2 * k)%nat /\
   vectors (g_vecs w)
   = map (fun j => random_point (rand_tape env (c0 + 2 * j))
                                (rand_tape env (c0 + 2 * j + 1))) (seq 0 k)) ->
  let w' :=
    (let '(r1, w1) := rand env w in
     let x := F32.sub (F32.mul (F32.div (F32.of_Z r1) (F32.of_Z RAND_MAX)) (F32.of_Z 10))
                      (F32.of_Z 5) in
     let '(r2, w2) := rand env w1 in
     let y := F32.sub (F32.mul (F32.div (F32.of_Z r2) (F32.of_Z RAND_MAX)) (F32.of_Z 6))
                      (F32.of_Z 3) in
     add_vec_col x y (RGB 80 220 160) w2) in
  VecList_wf (g_vecs w') /\ len (g_vecs w') = Z.of_nat (S k) /\
  g_rand_calls w' = (c0 + 2 * S k)%nat /\
  vectors (g_vecs w')
  = map (fun j => random_point (rand_tape env (c0 + 2 * j))
                               (rand_tape env (c0 + 2 * j + 1))) (seq 0 (S k)).
Proof.
  intros Hk (Hwf & Hlen & Hc & Hv). unfold rand. cbv beta iota zeta.
  unfold add_vec_col, push_g_vecs.
  cbn [g_vecs g_label_counter g_rand_calls set_rand_calls].
  set (value := mk_vec2 _ _).
  assert (Hsmall : len (g_vecs w) < SIZE_MOD - 1) by (unfold SIZE_MOD; lia).
  destruct (@SceneFacts.push_entries (g_vecs w) (g_label_counter w) value
              (RGB 80 220 160) Hwf Hsmall) as (A & B & _ & _ & _ & lab & _ & _ & L3).
  destruct (veclist_push (g_vecs w) (g_label_counter w) value (RGB 80 220 160))
    as [l c].
  cbn [fst snd] in *.
  cbn [g_vecs g_rand_calls set_label_counter set_vecs set_rand_calls].
  split; [exact A|]. split; [lia|]. split; [lia|].
  unfold vectors in *. rewrite L3, map_app, Hv, seq_S, map_app.
  cbn [map v Nat.add]. f_equal. f_equal. unfold value, random_point.
  rewrite Hc. replace (S (c0 + 2 * k)) with (c0 + 2 * k + 1)%nat by lia.
  reflexivity.
Qed.

End RandomFacts.

(** X20. The random preset.  With a tape of [rand] values in
    [0, RAND_MAX], [preset_random] on a well-formed list leaves exactly
    40 vectors, made in order from 40 successive pairs of values (the
    first of a pair for [x], the second for [y]); it takes 80 values from
    the tape; and every vector lies in the box [-5, 5] x [-3, 3]. *)
Theorem random_preset_in_box :
  forall (env : Env) (w : World),
    (forall n : nat, 0 <= rand_tape env n <= RAND_MAX) ->
    VecList_wf (g_vecs w) ->
    len (g_vecs (preset_random env w)) = 40 /\
    g_rand_calls (preset_random env w) = (g_rand_calls w + 80)%nat /\
    vectors (g_vecs (preset_random env w))
    = map (fun j => random_point (rand_tape env (g_rand_calls w + 2 * j))
                                 (rand_tape env (g_rand_calls w + 2 * j + 1)))
          (seq 0 40) /\
    Forall (fun p => in_box 5 3 p = true) (vectors (g_vecs (preset_random env w))).
Proof.
  intros env w Htape Hwf.
  pose (I := fun (k : nat) (w1 : World) =>
               VecList_wf (g_vecs w1) /\ len (g_vecs w1) = Z.of_nat k /\
               g_rand_calls w1 = (g_rand_calls w + 2 * k)%nat /\
               vectors (g_vecs w1)
               = map (fun j => random_point (rand_tape env (g_rand_calls w + 2 * j))
                                 (rand_tape env (g_rand_calls w + 2 * j + 1)))
                     (seq 0 k)).
  assert (H : I (0 + 40)%nat (preset_random env w)).
  { unfold preset_random.
    apply (@RandomFacts.for_loop_steps I _ 40%nat).
    - intros i k w1 Hk H1. apply (@RandomFacts.random_steps env (g_rand_calls w) i k w1 Hk H1).
    - lia.
    - destruct Hwf as (Hlen & Hcap & Hlab). unfold I.
      split; [|split; [reflexivity|split; [cbn; lia|reflexivity]]].
      unfold VecList_wf.
      cbn [reset_list_and_labels clear_g_vecs set_label_counter set_vecs g_vecs
           veclist_clear len cap data].
      split; [lia|]. split; assumption. }
  destruct H as (_ & Hl & Hc & Hv).
  split; [exact Hl|]. split; [rewrite Hc; lia|]. split; [exact Hv|].
  rewrite Hv. apply Forall_forall. intros p Hp. apply in_map_iff in Hp.
  destruct Hp as (j & <- & _). apply RandomFacts.random_point_in_box; apply Htape.
Qed.

(** ** vector2.h without rounding, and differences in binary32 *)

(** X21. The formulas of vector2.h are the intended ones: run on exact
    rationals, the code satisfies Lagrange's identity
    [dot(a,b)^2 + cross(a,b)^2 = |a|^2 |b|^2], the cross product is
    antisymmetric and vanishes on equal arguments, the dot product is
    additive in its first argument, scaling by [t] multiplies the squared
    length by [t^2], and the squared distance is the squared length of
    the difference, which expands to [|a|^2 - 2 dot(a,b) + |b|^2]. *)
Theorem vector_algebra_exact :
  forall (a b c : vec2 Q) (t : Q),
    (vec2_dot a b * vec2_dot a b + vec2_cross a b * vec2_cross a b
     == vec2_length2 a * vec2_length2 b)%Q /\
    (vec2_cross a b == - vec2_cross b a)%Q /\
    (vec2_cross a a == 0)%Q /\
    (vec2_dot (vec2_add a b) c == vec2_dot a c + vec2_dot b c)%Q /\
    (vec2_length2 (vec2_mul a t) == t * t * vec2_length2 a)%Q /\
    (vec2_dist2 a b == vec2_length2 (vec2_sub a b))%Q /\
    (vec2_dist2 a b == vec2_length2 a - 2 * vec2_dot a b + vec2_length2 b)%Q.
Proof.
  intros [ax ay] [bx by_] [cx cy] t.
  unfold vec2_dot, vec2_cross, vec2_length2, vec2_dist2, vec2_add, vec2_sub, vec2_mul.
  cbn [vx vy fadd fsub fmul Exact.ops].
  split; [ring|]. split; [ring|]. split; [ring|]. split; [ring|].
  split; [ring|]. split; [ring|]. ring.
Qed.

Module DifferenceFacts.

Lemma round_neg (prec emax : Z) (p : positive) (e : Z) :
  binary_round prec emax true p e = SFopp (binary_round prec emax false p e).
Proof. exact (FloatSym.round_opp prec emax false p e). Qed.

Lemma opp_opp (x : float) : SFopp (SFopp x) = x.
Proof. apply FloatSym.opp_involutive. Qed.

Lemma normalize_swap (prec emax m e : Z) :
  SFeqb (binary_normalize prec emax m e false)
        (SFopp (binary_normalize prec emax (- m) e false)) = true.
Proof.
  destruct m as [|p|p]; cbn [Z.opp binary_normalize]; [reflexivity| |].
  - rewrite round_neg, opp_opp. apply FloatSym.eqb_refl, FloatSym.round_not_nan.
  - rewrite round_neg. apply FloatSym.eqb_refl.
    rewrite <- round_neg. apply FloatSym.round_not_nan.
Qed.

(** [x - y] and [-(y - x)] are the same number. *)
Lemma sub_swap (x y : float) :
  IEEE.is_finite x = true -> IEEE.is_finite y = true ->
  F32.eqb (F32.sub x y) (fneg (F32.sub y x)) = true.
Proof.
  destruct x as [sx|sx| |sx mx ex]; intros Hx; try discriminate Hx;
    destruct y as [sy|sy| |sy my ey]; intros Hy; try discriminate Hy.
  - destruct sx, sy; reflexivity.
  - unfold F32.sub, fneg. cbn [SFsub SFopp]. rewrite ?negb_involutive.
    apply FloatSym.eqb_refl. reflexivity.
  - unfold F32.sub, fneg. cbn [SFsub SFopp]. rewrite ?negb_involutive.
    apply FloatSym.eqb_refl. reflexivity.
  - unfold F32.sub, fneg, F32.eqb. cbn [SFsub]. rewrite (Z.min_comm ey ex).
    set (a := cond_Zopp sx _). set (b := cond_Zopp sy _).
    replace (b - a) with (- (a - b)) by lia. apply normalize_swap.
Qed.

End DifferenceFacts.

(** X22. Differences in binary32.  For vectors [a] and [b] with finite
    components, [vec2_sub a b] is numerically the negative of
    [vec2_sub b a], and [vec2_sub a a] is the zero vector; for a vector
    [c] whose components have a finite product, [vec2_cross c c] is
    [+0]. *)
Theorem vec2_sub_antisymmetric :
  forall a b c : vec2 float,
    vec2_finite a = true -> vec2_finite b = true ->
    IEEE.is_finite (F32.mul (vx c) (vy c)) = true ->
    vec2_same (vec2_sub a b)
              (mk_vec2 (fneg (vx (vec2_sub b a))) (fneg (vy (vec2_sub b a)))) = true /\
    vec2_sub a a = mk_vec2 f32_zero f32_zero /\
    vec2_cross c c = f32_zero.
Proof.
  intros [ax ay] [bx by_] [cx cy] Ha Hb Hm. unfold vec2_finite in *. cbn [vx vy] in *.
  apply andb_true_iff in Ha. apply andb_true_iff in Hb.
  destruct Ha as [Hax Hay], Hb as [Hbx Hby].
  unfold vec2_same, vec2_sub, vec2_cross. cbn [vx vy fsub fmul binary32_ops].
  split; [|split].
  - rewrite !DifferenceFacts.sub_swap by assumption. reflexivity.
  - rewrite !FloatFacts.sub_self by assumption. reflexivity.
  - rewrite (FloatSym.mul_comm cy cx). apply FloatFacts.sub_self. exact Hm.
Qed.

(** ** No signed overflow in the handlers *)

Module ProgressFacts.

Lemma get_xy_range (lp : Z) :
  -32768 <= GET_X_LPARAM lp <= 32767 /\ -32768 <= GET_Y_LPARAM lp <= 32767.
Proof.
  unfold GET_X_LPARAM, GET_Y_LPARAM.
  split; apply WordFacts.short_of_word_range.
  - rewrite WordFacts.LOWORD_mod. apply Z.mod_pos_bound. lia.
  - rewrite WordFacts.HIWORD_mod. apply Z.mod_pos_bound. lia.
Qed.

Lemma apply_mouse (env : Env) (idx : Z) (w : World) :
  g_lastMouse (preset_apply_index env idx w) = g_lastMouse w.
Proof.
  destruct (CameraFacts.apply_scene_only env idx w) as (_ & _ & _ & _ & A).
  exact A.
Qed.

Lemma push_mouse (w : World) (value : vec2 float) (col : COLORREF) :
  g_lastMouse (push_g_vecs w value col) = g_lastMouse w.
Proof. unfold push_g_vecs. destruct (veclist_push _ _ _ _). reflexivity. Qed.

Lemma WndProc_mouse_ok (env : Env) (msg : Msg) (w w' : World) :
  mouse_ok w -> WndProc env msg w = Some w' -> mouse_ok w'.
Proof.
  unfold mouse_ok. intros Hok.
  destruct msg; cbn [WndProc].
  - intros E. injection E as <-. rewrite apply_mouse. exact Hok.
  - intros E. injection E as <-. exact Hok.
  - intros E. injection E as <-. rewrite push_mouse. exact Hok.
  - intros E. injection E as <-. cbn [g_lastMouse set_drag px py].
    apply get_xy_range.
  - destruct (g_rightDragging w).
    + destruct (int_sub _ _); [|discriminate]. cbn [obind].
      destruct (int_sub _ _); [|discriminate]. cbn [obind].
      intros E. injection E as <-. cbn [g_lastMouse set_drag px py].
      apply get_xy_range.
    + intros E. injection E as <-. exact Hok.
  - intros E. injection E as <-. exact Hok.
  - destruct (int_sub _ _); [|discriminate]. cbn [obind].
    destruct (int_sub _ _); [|discriminate]. cbn [obind].
    destruct (handle_zoom_at_cursor _ _ _ _ _ _); [|discriminate]. cbn [obind].
    intros E. injection E as <-. exact Hok.
  - destruct (wParam =? VK_DELETE); [intros E; injection E as <-; exact Hok|].
    destruct (wParam =? KEY_R); [intros E; injection E as <-; exact Hok|].
    destruct (wParam =? KEY_1).
    { intros E. destruct (@CameraFacts.next_prev_cases env w w' (or_intror E)) as (idx & ->).
      rewrite apply_mouse. exact Hok. }
    destruct (wParam =? KEY_2).
    { intros E. destruct (@CameraFacts.next_prev_cases env w w' (or_introl E)) as (idx & ->).
      rewrite apply_mouse. exact Hok. }
    intros E. injection E as <-. exact Hok.
  - intros E. injection E as <-. exact Hok.
  - intros E. injection E as <-. exact Hok.
  - intros E. injection E as <-. exact Hok.
Qed.

Lemma run_msgs_mouse_ok (env : Env) (msgs : list Msg) :
  forall w w' : World,
    preset_ok w /\ mouse_ok w -> run_msgs env msgs w = Some w' ->
    preset_ok w' /\ mouse_ok w'.
Proof.
  induction msgs as [|m rest IH]; intros w w' Hok; cbn [run_msgs].
  - intros E. injection E as <-. exact Hok.
  - destruct (WndProc env m w) as [w1|] eqn:E1; [|discriminate]. cbn [obind].
    apply IH. destruct Hok as [A B]. split.
    + apply (@PresetFacts.WndProc_ok env m w w1 A E1).
    + apply (@WndProc_mouse_ok env m w w1 B E1).
Qed.

Lemma WndProc_defined (env : Env) (msg : Msg) (w : World) :
  preset_ok w -> mouse_ok w -> projects msg = false ->
  exists w', WndProc env msg w = Some w'.
Proof.
  intros Hp [Hx Hy] Hm.
  destruct msg; cbn [WndProc]; try discriminate Hm; try (eexists; reflexivity).
  - destruct (g_rightDragging w); [|eexists; reflexivity].
    destruct (get_xy_range lParam) as [Gx Gy].
    unfold int_sub.
    rewrite !int_checked_in by (unfold INT_MIN, INT_MAX; lia).
    cbn [obind]. eexists. reflexivity.
  - destruct (wParam =? VK_DELETE); [eexists; reflexivity|].
    destruct (wParam =? KEY_R); [eexists; reflexivity|].
    destruct (wParam =? KEY_1).
    { destruct (PresetFacts.prev_ok env Hp) as (w1 & E1 & _). eauto. }
    destruct (wParam =? KEY_2).
    { destruct (PresetFacts.next_ok env Hp) as (w1 & E1 & _). eauto. }
    eexists. reflexivity.
Qed.

End ProgressFacts.

(** X23. No signed overflow in the handlers that do not project.  In
    every state reached from the initial state, every message other than
    [WM_MOUSEWHEEL] and [WM_PAINT] is handled: the subtractions of mouse
    coordinates in the drag handler and the index arithmetic of the keys
    1 and 2 stay within [int].  (The last mouse position always holds two
    signed 16-bit numbers, and the preset index an entry of the
    registry.) *)
Theorem handlers_defined :
  forall (env : Env) (msgs : list Msg) (w : World) (msg : Msg),
    run_msgs env msgs world_init = Some w ->
    projects msg = false ->
    (exists w', WndProc env msg w = Some w') /\
    -32768 <= px (g_lastMouse w) <= 32767 /\
    -32768 <= py (g_lastMouse w) <= 32767 /\
    0 <= g_preset_index w <= g_preset_count - 1.
Proof.
  intros env msgs w msg Hrun Hm.
  assert (Hinit : preset_ok world_init /\ mouse_ok world_init).
  { split; [vm_compute; intuition discriminate|].
    unfold mouse_ok. cbn. lia. }
  destruct (@ProgressFacts.run_msgs_mouse_ok env msgs world_init w Hinit Hrun)
    as [Hp Hmo].
  split; [apply ProgressFacts.WndProc_defined; assumption|].
  destruct Hmo as [A B]. destruct Hp as [C _].
  split; [exact A|]. split; [exact B | exact C].
Qed.

(** ** The angle *)

(** X25. [vec2_angle].  The result is symmetric in the two vectors, bit
    for bit, whatever [acos] returns; it is [+0] as soon as one of the
    vectors is a zero vector, whatever the other one is.  The quotient
    handed to [acos] is not clamped: there is a vector [d] with finite
    components, [(1, 1)], for which [vec2_angle d d] calls [acos] on a
    number greater than 1, outside the domain of the function. *)
Theorem vec2_angle_symmetric_unclamped :
  forall (acos : float -> float) (a b : vec2 float) (sx sy : bool),
    vec2_angle acos a b = vec2_angle acos b a /\
    vec2_angle acos (mk_vec2 (S754_zero sx) (S754_zero sy)) b = f32_zero /\
    vec2_angle acos a (mk_vec2 (S754_zero sx) (S754_zero sy)) = f32_zero /\
    exists (d : vec2 float) (x : float),
      vec2_finite d = true /\
      F64.ltb (F64.of_Z 1) x = true /\
      vec2_angle acos d d = F32.of_double (acos x).
Proof.
  intros acos a b sx sy.
  assert (Z0 : vec2_length (mk_vec2 (S754_zero sx) (S754_zero sy)) = f32_zero)
    by (destruct sx, sy; vm_compute; reflexivity).
  split; [|split; [|split]].
  - unfold vec2_angle. cbv zeta.
    rewrite (orb_comm (F32.eqb (vec2_length a) f32_zero)).
    replace (vec2_dot a b) with (vec2_dot b a).
    + now rewrite (FloatSym.mul_comm (vec2_length a)).
    + unfold vec2_dot. cbn [fadd fmul binary32_ops].
      now rewrite (FloatSym.mul_comm (vx a)), (FloatSym.mul_comm (vy a)).
  - unfold vec2_angle. cbv zeta. rewrite Z0. reflexivity.
  - unfold vec2_angle. cbv zeta. rewrite Z0.
    change (F32.eqb f32_zero f32_zero) with true. rewrite orb_true_r. reflexivity.
  - exists (mk_vec2 (F32.of_Z 1) (F32.of_Z 1)). eexists.
    split; [reflexivity|]. split; [|unfold vec2_angle; cbv zeta].
    2:{ change (F32.eqb (vec2_length (mk_vec2 (F32.of_Z 1) (F32.of_Z 1))) f32_zero)
          with false.
        cbn [orb]. reflexivity. }
    vm_compute. reflexivity.
Qed.

(** * The further properties at concrete inputs *)

(** X1 at the bounds of the camera scale. *)
Lemma clampf_between_bounds_witness :
  IEEE.is_nan (F32.of_Z 5000) = false /\
  F32.leb (F32.of_Z 10) (F32.of_Z 2000) = true /\
  F32.leb (F32.of_Z 10) (F32.of_Z 80) = true /\
  F32.leb (F32.of_Z 80) (F32.of_Z 2000) = true /\
  F32.leb (F32.of_Z 10) (clampf (F32.of_Z 5000) (F32.of_Z 10) (F32.of_Z 2000)) = true /\
  F32.leb (clampf (F32.of_Z 5000) (F32.of_Z 10) (F32.of_Z 2000)) (F32.of_Z 2000) = true /\
  clampf (F32.of_Z 80) (F32.of_Z 10) (F32.of_Z 2000) = F32.of_Z 80 /\
  clampf (clampf (F32.of_Z 5000) (F32.of_Z 10) (F32.of_Z 2000))
         (F32.of_Z 10) (F32.of_Z 2000)
  = clampf (F32.of_Z 5000) (F32.of_Z 10) (F32.of_Z 2000) /\
  clampf S754_nan (F32.of_Z 10) (F32.of_Z 2000) = S754_nan.
Proof.
  repeat (split; [reflexivity|]).
  apply (@clampf_between_bounds (F32.of_Z 5000) (F32.of_Z 10) (F32.of_Z 2000)
           (F32.of_Z 80)); reflexivity.
Defined.

(** X2 at the end of the sample session. *)
Lemma camera_stays_in_range_witness :
  run_msgs sample_env session_msgs world_init = Some session_end /\
  F32.leb (F32.of_Z 10) (scale (g_cam session_end)) = true /\
  F32.leb (scale (g_cam session_end)) (F32.of_Z 2000) = true /\
  0 <= g_clientW session_end <= 65535 /\ 0 <= g_clientH session_end <= 65535.
Proof.
  assert (H : run_msgs sample_env session_msgs world_init = Some session_end)
    by (vm_compute; reflexivity).
  split; [exact H|].
  apply (@camera_stays_in_range sample_env session_msgs session_end H).
Defined.

(** X3 at the point (-3, 200) with the bits above set. *)
Lemma lparam_signed_coordinates_witness :
  -32768 <= -3 <= 32767 /\ -32768 <= 200 <= 32767 /\
  let packed := (-3) mod 65536 + 65536 * (200 mod 65536) + 4294967296 * 5 in
  GET_X_LPARAM packed = -3 /\
  GET_Y_LPARAM packed = 200 /\
  GET_WHEEL_DELTA_WPARAM packed = 200 /\
  -32768 <= GET_X_LPARAM 123456789 <= 32767 /\
  -32768 <= GET_Y_LPARAM 123456789 <= 32767 /\
  -32768 <= GET_WHEEL_DELTA_WPARAM 123456789 <= 32767.
Proof.
  assert (H1 : -32768 <= -3 <= 32767) by lia.
  assert (H2 : -32768 <= 200 <= 32767) by lia.
  split; [exact H1|]. split; [exact H2|].
  apply (@lparam_signed_coordinates (-3) 200 5 123456789 H1 H2).
Defined.

(** X4 at the target 4. *)
Lemma nice_step_close_to_target_witness :
  (0 < 4)%Q /\
  (0 < nice_step_for_scale 4%Q)%Q /\
  ((2 # 3) * 4 < nice_step_for_scale 4%Q)%Q /\
  (nice_step_for_scale 4%Q <= (5 # 3) * 4)%Q.
Proof.
  assert (H : (0 < 4)%Q) by reflexivity.
  split; [exact H|]. apply (@nice_step_close_to_target 4%Q H).
Defined.

(** X5 at the index 702, with room for two letters in a buffer of eight. *)
Lemma make_label_stays_in_buffer_witness :
  0 < 3 <= Z.of_nat (List.length sample_buffer) /\
  (Z.to_nat 3 <= 5)%nat /\
  List.length (make_label 702 sample_buffer 3) = List.length sample_buffer /\
  nth 5 (make_label 702 sample_buffer 3) NUL = nth 5 sample_buffer NUL /\
  Z.of_nat (String.length (c_str (make_label 702 sample_buffer 3))) < 3 /\
  make_label 702 sample_buffer 0 = sample_buffer.
Proof.
  assert (H1 : 0 < 3 <= Z.of_nat (List.length sample_buffer)) by (cbn; lia).
  assert (H2 : (Z.to_nat 3 <= 5)%nat) by (cbn; lia).
  split; [exact H1|]. split; [exact H2|].
  apply (@make_label_stays_in_buffer 702 3 sample_buffer 5%nat NUL H1 H2).
Defined.

(** X6 at the indices 0 and 25. *)
Lemma labels_unique_up_to_seven_letters_witness :
  List.length sample_buffer = 8%nat /\ List.length sample_buffer = 8%nat /\
  0 <= 0 < 8353082582 /\ 0 <= 25 < 8353082582 /\
  (c_str (make_label 0 sample_buffer LABEL_SIZE)
   = c_str (make_label 25 sample_buffer LABEL_SIZE) -> 0 = 25) /\
  c_str (make_label 0 sample_buffer LABEL_SIZE)
  = string_of_list_ascii (rev (label_digits 0)) /\
  c_str (make_label 8353082582 sample_buffer LABEL_SIZE)
  = c_str (make_label 321272406 sample_buffer LABEL_SIZE).
Proof.
  assert (H1 : 0 <= 0 < 8353082582) by lia.
  assert (H2 : 0 <= 25 < 8353082582) by lia.
  split; [reflexivity|]. split; [reflexivity|]. split; [exact H1|]. split; [exact H2|].
  apply (@labels_unique_up_to_seven_letters 0 25 sample_buffer sample_buffer
           eq_refl eq_refl H1 H2).
Defined.

(** X7 at the empty list, asked for one slot. *)
Lemma veclist_reserve_keeps_entries_witness :
  VecList_wf g_vecs_init /\
  let r := veclist_reserve g_vecs_init 1 in
  VecList_wf r /\
  len r = len g_vecs_init /\
  entries r = entries g_vecs_init /\
  Z.max (cap g_vecs_init) 1 <= cap r /\
  cap r = (if 1 <=? cap g_vecs_init then cap g_vecs_init
           else Z.max 1 (if cap g_vecs_init =? 0 then 16
                         else size_wrap (cap g_vecs_init * 2))) /\
  data r = data g_vecs_init ++ repeat VEntry_blank (Z.to_nat (cap r - cap g_vecs_init)).
Proof.
  assert (Hwf : VecList_wf g_vecs_init).
  { unfold VecList_wf. cbn. repeat split; try lia. constructor. }
  split; [exact Hwf|].
  apply (@veclist_reserve_keeps_entries g_vecs_init 1 Hwf).
Defined.

(** X8 at the empty list. *)
Lemma veclist_push_appends_witness :
  VecList_wf g_vecs_init /\ len g_vecs_init < SIZE_MOD - 1 /\
  let r := veclist_push g_vecs_init 26 (mk_vec2 (F32.of_Z 1) (F32.of_Z 2))
             (RGB 80 220 160) in
  VecList_wf (fst r) /\
  len (fst r) = len g_vecs_init + 1 /\
  snd r = size_wrap (26 + 1) /\
  cap g_vecs_init <= cap (fst r) /\
  exists lab : list ascii,
    List.length lab = 8%nat /\
    c_str lab = string_of_list_ascii (firstn 7 (rev (label_digits 26))) /\
    entries (fst r)
    = entries g_vecs_init
      ++ [mk_VEntry (mk_vec2 (F32.of_Z 1) (F32.of_Z 2)) (RGB 80 220 160) lab].
Proof.
  assert (Hwf : VecList_wf g_vecs_init).
  { unfold VecList_wf. cbn. repeat split; try lia. constructor. }
  assert (Hs : len g_vecs_init < SIZE_MOD - 1) by reflexivity.
  split; [exact Hwf|]. split; [exact Hs|].
  apply (@veclist_push_appends g_vecs_init 26 (mk_vec2 (F32.of_Z 1) (F32.of_Z 2))
           (RGB 80 220 160) Hwf Hs).
Defined.

(** X9 at the end of the sample session. *)
Lemma scene_labelled_in_order_witness :
  forallb (fun m => negb (is_destroy m)) session_msgs = true /\
  Z.of_nat (List.length session_msgs) < 2 ^ 63 /\
  run_msgs sample_env session_msgs world_init = Some session_end /\
  VecList_wf (g_vecs session_end) /\
  g_label_counter session_end = len (g_vecs session_end) /\
  len (g_vecs session_end) <= 40 + Z.of_nat (List.length session_msgs) /\
  map (fun e => c_str (label e)) (entries (g_vecs session_end))
  = map (fun i => label_string (Z.of_nat i))
        (seq 0 (Z.to_nat (len (g_vecs session_end)))).
Proof.
  assert (H1 : forallb (fun m => negb (is_destroy m)) session_msgs = true)
    by reflexivity.
  assert (H2 : Z.of_nat (List.length session_msgs) < 2 ^ 63) by reflexivity.
  assert (H3 : run_msgs sample_env session_msgs world_init = Some session_end)
    by (vm_compute; reflexivity).
  split; [exact H1|]. split; [exact H2|]. split; [exact H3|].
  apply (@scene_labelled_in_order sample_env session_msgs session_end H1 H2 H3).
Defined.

(** X10 from the initial state: nine steps forward, three back. *)
Lemma preset_cycling_witness :
  0 <= g_preset_index world_init <= g_preset_count - 1 /\
  g_preset_name world_init = name (preset_at (g_preset_index world_init)) /\
  exists w1 w2 w3 : World,
    run_ops sample_env (repeat op_next 9) world_init = Some w1 /\
    g_preset_index w1 = (g_preset_index world_init + Z.of_nat 9) mod g_preset_count /\
    run_ops sample_env (repeat op_prev 3) w1 = Some w2 /\
    g_preset_index w2
    = (g_preset_index world_init + Z.of_nat 9 - Z.of_nat 3) mod g_preset_count /\
    run_ops sample_env (repeat op_next 9 ++ repeat op_prev 9) world_init = Some w3 /\
    g_preset_index w3 = g_preset_index world_init /\
    g_preset_name w3 = g_preset_name world_init.
Proof.
  assert (H1 : 0 <= g_preset_index world_init <= g_preset_count - 1)
    by (vm_compute; split; discriminate).
  assert (H2 : g_preset_name world_init = name (preset_at (g_preset_index world_init)))
    by reflexivity.
  split; [exact H1|]. split; [exact H2|].
  apply (@preset_cycling sample_env 9 3 world_init H1 H2).
Defined.

(** X11 at the key 2 in the initial state. *)
Lemma handlers_write_their_part_witness :
  let w' := preset_apply_index sample_env 1 world_init in
  WndProc sample_env (WM_KEYDOWN KEY_2) world_init = Some w' /\
  (writes_camera (WM_KEYDOWN KEY_2) = true \/ g_cam w' = g_cam world_init) /\
  (writes_scene (WM_KEYDOWN KEY_2) = true \/
   (g_vecs w' = g_vecs world_init /\ g_label_counter w' = g_label_counter world_init /\
    g_preset_index w' = g_preset_index world_init /\
    g_preset_name w' = g_preset_name world_init)) /\
  ((exists lParam, WM_KEYDOWN KEY_2 = WM_SIZE lParam) \/
   (g_clientW w' = g_clientW world_init /\ g_clientH w' = g_clientH world_init)).
Proof.
  cbv zeta.
  assert (H : WndProc sample_env (WM_KEYDOWN KEY_2) world_init
              = Some (preset_apply_index sample_env 1 world_init)) by reflexivity.
  split; [exact H|].
  apply (@handlers_write_their_part sample_env (WM_KEYDOWN KEY_2) world_init
           (preset_apply_index sample_env 1 world_init) H).
Defined.

(** X14 at the vectors (3, -4), (1, 2) and (4, 6). *)
Lemma vec2_length_nonnegative_witness :
  let a := mk_vec2 (F32.of_Z 3) (F32.of_Z (-4)) in
  let p := mk_vec2 (F32.of_Z 1) (F32.of_Z 2) in
  let q := mk_vec2 (F32.of_Z 4) (F32.of_Z 6) in
  IEEE.is_nan (vx a) = false /\ IEEE.is_nan (vy a) = false /\
  vec2_finite p = true /\ vec2_finite q = true /\
  F32.leb f32_zero (vec2_length2 a) = true /\
  F32.leb f32_zero (vec2_length a) = true /\
  F32.leb f32_zero (vec2_dist2 p q) = true /\
  F32.leb f32_zero (vec2_dist p q) = true.
Proof.
  cbv zeta. repeat (split; [reflexivity|]).
  apply (@vec2_length_nonnegative
           (mk_vec2 (F32.of_Z 3) (F32.of_Z (-4)))
           (mk_vec2 (F32.of_Z 1) (F32.of_Z 2))
           (mk_vec2 (F32.of_Z 4) (F32.of_Z 6))); reflexivity.
Defined.

(** X15 at the vector (2^100, 2^100), whose components have an infinite
    product, and at the vector (3, -2). *)
Lemma quarter_turns_witness :
  let a := mk_vec2 (IEEE.of_scaled F32.prec F32.emax 1 100)
                   (IEEE.of_scaled F32.prec F32.emax 1 100) in
  let c := mk_vec2 (F32.of_Z 3) (F32.of_Z (-2)) in
  IEEE.is_finite (F32.mul (vx c) (vy c)) = true /\
  vec2_perp a = vec2_rot90_ccw a /\
  vec2_rot90_cw (vec2_rot90_ccw a) = a /\
  vec2_rot90_ccw (vec2_rot90_cw a) = a /\
  vec2_rot90_ccw (vec2_rot90_ccw a) = mk_vec2 (fneg (vx a)) (fneg (vy a)) /\
  vec2_rot90_ccw (vec2_rot90_ccw (vec2_rot90_ccw (vec2_rot90_ccw a))) = a /\
  vec2_length2 (vec2_rot90_ccw a) = vec2_length2 a /\
  vec2_length (vec2_rot90_cw a) = vec2_length a /\
  vec2_dot (vec2_perp c) c = f32_zero /\
  vec2_dot c (vec2_rot90_cw c) = f32_zero.
Proof.
  cbv zeta. split; [reflexivity|].
  apply (@quarter_turns
           (mk_vec2 (IEEE.of_scaled F32.prec F32.emax 1 100)
                    (IEEE.of_scaled F32.prec F32.emax 1 100))
           (mk_vec2 (F32.of_Z 3) (F32.of_Z (-2)))); reflexivity.
Defined.

(** X16 at the vectors (3, -2) and (1, 1) and the zero vector (+0, -0). *)
Lemma zero_directions_witness :
  let a := mk_vec2 (F32.of_Z 3) (F32.of_Z (-2)) in
  let c := mk_vec2 (F32.of_Z 1) (F32.of_Z 1) in
  let z := mk_vec2 (S754_zero false) (S754_zero true) in
  vec2_finite a = true /\
  vec2_normalize z = mk_vec2 f32_zero f32_zero /\
  vec2_same (vec2_reflect a z) a = true /\
  vec2_project c z = mk_vec2 S754_nan S754_nan /\
  vec2_reject c z = mk_vec2 S754_nan S754_nan.
Proof.
  cbv zeta. split; [reflexivity|].
  apply (@zero_directions (mk_vec2 (F32.of_Z 3) (F32.of_Z (-2)))
           (mk_vec2 (F32.of_Z 1) (F32.of_Z 1)) false true); reflexivity.
Defined.

(** X17 at the vectors (3, -2), (1, 5) and (7, 7). *)
Lemma vec2_min_max_bounds_witness :
  let a := mk_vec2 (F32.of_Z 3) (F32.of_Z (-2)) in
  let b := mk_vec2 (F32.of_Z 1) (F32.of_Z 5) in
  let c := mk_vec2 (F32.of_Z 7) (F32.of_Z 7) in
  IEEE.is_nan (vx a) = false /\ IEEE.is_nan (vy a) = false /\
  IEEE.is_nan (vx b) = false /\ IEEE.is_nan (vy b) = false /\
  (F32.leb (vx (vec2_min a b)) (vx a) = true /\
   F32.leb (vx (vec2_min a b)) (vx b) = true /\
   F32.leb (vy (vec2_min a b)) (vy a) = true /\
   F32.leb (vy (vec2_min a b)) (vy b) = true) /\
  (F32.leb (vx a) (vx (vec2_max a b)) = true /\
   F32.leb (vx b) (vx (vec2_max a b)) = true /\
   F32.leb (vy a) (vy (vec2_max a b)) = true /\
   F32.leb (vy b) (vy (vec2_max a b)) = true) /\
  vec2_min c (mk_vec2 S754_nan S754_nan) = mk_vec2 S754_nan S754_nan /\
  vec2_max c (mk_vec2 S754_nan S754_nan) = mk_vec2 S754_nan S754_nan /\
  vec2_min (mk_vec2 S754_nan S754_nan) c = c /\
  vec2_max (mk_vec2 S754_nan S754_nan) c = c.
Proof.
  cbv zeta. repeat (split; [reflexivity|]).
  apply (@vec2_min_max_bounds (mk_vec2 (F32.of_Z 3) (F32.of_Z (-2)))
           (mk_vec2 (F32.of_Z 1) (F32.of_Z 5))
           (mk_vec2 (F32.of_Z 7) (F32.of_Z 7))); reflexivity.
Defined.

(** X18 at the vectors of the projection preset, (3, 2) onto (4, 1). *)
Lemma project_reject_exact_witness :
  let a := mk_vec2 3%Q 2%Q in
  let b := mk_vec2 4%Q 1%Q in
  ~ (vec2_length2 b == 0)%Q /\
  (vx (vec2_project a b) + vx (vec2_reject a b) == vx a)%Q /\
  (vy (vec2_project a b) + vy (vec2_reject a b) == vy a)%Q /\
  (vec2_dot (vec2_reject a b) b == 0)%Q /\
  (vec2_dot (vec2_project a b) b == vec2_dot a b)%Q /\
  (vx (vec2_project (vec2_project a b) b) == vx (vec2_project a b))%Q /\
  (vy (vec2_project (vec2_project a b) b) == vy (vec2_project a b))%Q /\
  (vec2_length2 (vec2_project a b) + vec2_length2 (vec2_reject a b)
   == vec2_length2 a)%Q /\
  (vec2_length2 (vec2_project a b) <= vec2_length2 a)%Q.
Proof.
  cbv zeta.
  assert (H : ~ (vec2_length2 (mk_vec2 4%Q 1%Q) == 0)%Q)
    by (intros E; vm_compute in E; discriminate E).
  split; [exact H|].
  apply (@project_reject_exact (mk_vec2 3%Q 2%Q) (mk_vec2 4%Q 1%Q) H).
Defined.

(** X19 at the pivot (3, 2), with the sample values of [cosf] and [sinf]. *)
Lemma rotate_around_fixes_pivot_witness :
  let a := mk_vec2 (F32.of_Z 3) (F32.of_Z 2) in
  vec2_finite a = true /\
  IEEE.is_finite (cosf sample_env (F32.of_Z 1)) = true /\
  IEEE.is_finite (sinf sample_env (F32.of_Z 1)) = true /\
  vec2_same (vec2_rotate_around sample_env a a (F32.of_Z 1)) a = true /\
  vec2_same (vec2_rotate sample_env (mk_vec2 f32_zero f32_zero) (F32.of_Z 1))
            (mk_vec2 f32_zero f32_zero) = true.
Proof.
  cbv zeta. repeat (split; [reflexivity|]).
  apply (@rotate_around_fixes_pivot sample_env (mk_vec2 (F32.of_Z 3) (F32.of_Z 2))
           (F32.of_Z 1)); reflexivity.
Defined.

(** X20 from the initial state, with the sample tape. *)
Lemma random_preset_in_box_witness :
  (forall n : nat, 0 <= rand_tape sample_env n <= RAND_MAX) /\
  VecList_wf (g_vecs world_init) /\
  len (g_vecs (preset_random sample_env world_init)) = 40 /\
  g_rand_calls (preset_random sample_env world_init)
  = (g_rand_calls world_init + 80)%nat /\
  vectors (g_vecs (preset_random sample_env world_init))
  = map (fun j => random_point (rand_tape sample_env (g_rand_calls world_init + 2 * j))
                               (rand_tape sample_env (g_rand_calls world_init + 2 * j + 1)))
        (seq 0 40) /\
  Forall (fun p => in_box 5 3 p = true)
         (vectors (g_vecs (preset_random sample_env world_init))).
Proof.
  assert (H1 : forall n : nat, 0 <= rand_tape sample_env n <= RAND_MAX).
  { intros n. cbn. unfold RAND_MAX. lia. }
  assert (H2 : VecList_wf (g_vecs world_init)).
  { unfold VecList_wf. cbn. repeat split; try lia. constructor. }
  split; [exact H1|]. split; [exact H2|].
  apply (@random_preset_in_box sample_env world_init H1 H2).
Defined.

(** X22 at the vectors (2^100, 2^100) and (1, 5), and at (3, -2) for the
    cross product. *)
Lemma vec2_sub_antisymmetric_witness :
  let a := mk_vec2 (IEEE.of_scaled F32.prec F32.emax 1 100)
                   (IEEE.of_scaled F32.prec F32.emax 1 100) in
  let b := mk_vec2 (F32.of_Z 1) (F32.of_Z 5) in
  let c := mk_vec2 (F32.of_Z 3) (F32.of_Z (-2)) in
  vec2_finite a = true /\ vec2_finite b = true /\
  IEEE.is_finite (F32.mul (vx c) (vy c)) = true /\
  vec2_same (vec2_sub a b)
            (mk_vec2 (fneg (vx (vec2_sub b a))) (fneg (vy (vec2_sub b a)))) = true /\
  vec2_sub a a = mk_vec2 f32_zero f32_zero /\
  vec2_cross c c = f32_zero.
Proof.
  cbv zeta. repeat (split; [reflexivity|]).
  apply (@vec2_sub_antisymmetric
           (mk_vec2 (IEEE.of_scaled F32.prec F32.emax 1 100)
                    (IEEE.of_scaled F32.prec F32.emax 1 100))
           (mk_vec2 (F32.of_Z 1) (F32.of_Z 5))
           (mk_vec2 (F32.of_Z 3) (F32.of_Z (-2)))); reflexivity.
Defined.

(** X23 at the end of the sample session, for a move of the mouse. *)
Lemma handlers_defined_witness :
  run_msgs sample_env session_msgs world_init = Some session_end /\
  projects (WM_MOUSEMOVE (MAKE_LPARAM 7 9)) = false /\
  (exists w', WndProc sample_env (WM_MOUSEMOVE (MAKE_LPARAM 7 9)) session_end = Some w') /\
  -32768 <= px (g_lastMouse session_end) <= 32767 /\
  -32768 <= py (g_lastMouse session_end) <= 32767 /\
  0 <= g_preset_index session_end <= g_preset_count - 1.
Proof.
  assert (H : run_msgs sample_env session_msgs world_init = Some session_end)
    by (vm_compute; reflexivity).
  split; [exact H|]. split; [reflexivity|].
  apply (@handlers_defined sample_env session_msgs session_end
           (WM_MOUSEMOVE (MAKE_LPARAM 7 9)) H eq_refl).
Defined.

(** X24 at the scale 88. *)
Lemma grid_spacing_in_pixels_witness :
  (0 < 88)%Q /\
  (0 < grid_step 88%Q)%Q /\
  ((160 # 3) < grid_step 88%Q * 88)%Q /\
  (grid_step 88%Q * 88 <= (400 # 3))%Q /\
  grid_step_64 (scale g_cam_init) = F64.of_Z 1.
Proof.
  assert (H : (0 < 88)%Q) by reflexivity.
  split; [exact H|]. apply (@grid_spacing_in_pixels 88%Q H).
Defined.

(** * The label sequence and the equality test at concrete inputs *)

(** C3 at a buffer of eight [#] and the indices 2^64 - 2 and 703. *)
Lemma label_sequence_witness :
  List.length sample_buffer = 8%nat /\
  0 <= 2 ^ 64 - 2 < SIZE_MOD - 1 /\
  0 <= 703 < 8353082582 /\
  (c_str (make_label 0 sample_buffer LABEL_SIZE) = "a"%string /\
   c_str (make_label 25 sample_buffer LABEL_SIZE) = "z"%string /\
   c_str (make_label 26 sample_buffer LABEL_SIZE) = "aa"%string /\
   c_str (make_label 701 sample_buffer LABEL_SIZE) = "zz"%string /\
   c_str (make_label 702 sample_buffer LABEL_SIZE) = "aaa"%string) /\
  (c_str (make_label 27 sample_buffer LABEL_SIZE) = "ab"%string /\
   c_str (make_label 51 sample_buffer LABEL_SIZE) = "az"%string /\
   c_str (make_label 52 sample_buffer LABEL_SIZE) = "ba"%string /\
   c_str (make_label 703 sample_buffer LABEL_SIZE) = "aab"%string) /\
  bij26_value (label_digits (2 ^ 64 - 2)) = 2 ^ 64 - 2 + 1 /\
  Forall (fun c => is_lower c = true) (label_digits (2 ^ 64 - 2)) /\
  c_str (make_label (2 ^ 64 - 2) sample_buffer LABEL_SIZE)
  = string_of_list_ascii (firstn 7 (rev (label_digits (2 ^ 64 - 2)))) /\
  c_str (make_label 703 sample_buffer LABEL_SIZE)
  = string_of_list_ascii (rev (label_digits 703)) /\
  bij26_value (rev (list_ascii_of_string (c_str (make_label 703 sample_buffer LABEL_SIZE))))
  = 703 + 1.
Proof.
  assert (H1 : 0 <= 2 ^ 64 - 2 < SIZE_MOD - 1) by (split; [lia | reflexivity]).
  assert (H2 : 0 <= 703 < 8353082582) by lia.
  split; [reflexivity|]. split; [exact H1|]. split; [exact H2|].
  apply (@label_sequence sample_buffer (2 ^ 64 - 2) 703 eq_refl H1 H2).
Defined.

(** C6 at [a = (1, 0.5)], [b = (1.000001, 0.5)], [c = (3, -4)], the
    tolerance [EPSILON] and the negative tolerance -1. *)
Lemma vec2_equal_two_tier_witness :
  let a := mk_vec2 (F32.of_Z 1) (F32.lit 1 2) in
  let b := mk_vec2 (F32.lit 1000001 1000000) (F32.lit 1 2) in
  let c := mk_vec2 (F32.of_Z 3) (F32.of_Z (-4)) in
  let neg := F32.of_Z (-1) in
  IEEE.is_finite (vx c) = true /\ IEEE.is_finite (vy c) = true /\
  IEEE.is_finite EPSILON = true /\ F32.leb f32_zero EPSILON = true /\
  F32.ltb f32_zero EPSILON = true /\
  F32.leb neg f32_zero = true /\
  (vec2_equal a b EPSILON = true <->
   (F32.ltb (vec2_length a) EPSILON = true /\ F32.ltb (vec2_length b) EPSILON = true) \/
   (F32.leb (fabsf (F32.sub (vx a) (vx b)))
            (F32.mul EPSILON (fmaxf (fabsf (vx a)) (fabsf (vx b)))) = true /\
    F32.leb (fabsf (F32.sub (vy a) (vy b)))
            (F32.mul EPSILON (fmaxf (fabsf (vy a)) (fabsf (vy b)))) = true)) /\
  vec2_equal c c EPSILON = true /\
  vec2_equal (mk_vec2 f32_zero f32_zero) (mk_vec2 f32_zero f32_zero) EPSILON = true /\
  F32.leb f32_zero (vec2_length c) = true /\
  F32.ltb (vec2_length c) neg = false /\
  vec2_equal c b neg
  = F32.leb (fabsf (F32.sub (vx c) (vx b)))
            (F32.mul neg (fmaxf (fabsf (vx c)) (fabsf (vx b))))
    && F32.leb (fabsf (F32.sub (vy c) (vy b)))
               (F32.mul neg (fmaxf (fabsf (vy c)) (fabsf (vy b)))) /\
  vec2_length (mk_vec2 (F32.of_Z 3) (F32.of_Z 4)) = F32.of_Z 5 /\
  vec2_equal (mk_vec2 (F32.of_Z 1) (F32.of_Z 0)) (mk_vec2 (F32.of_Z 5) (F32.of_Z 5))
             EPSILON = false /\
  vec2_length (mk_vec2 tiny f32_zero) = f32_zero.
Proof.
  cbv zeta.
  repeat (split; [reflexivity|]).
  apply (@vec2_equal_two_tier
           (mk_vec2 (F32.of_Z 1) (F32.lit 1 2))
           (mk_vec2 (F32.lit 1000001 1000000) (F32.lit 1 2))
           (mk_vec2 (F32.of_Z 3) (F32.of_Z (-4)))
           EPSILON EPSILON EPSILON (F32.of_Z (-1))); reflexivity.
Defined.
